(** * prettybad-traits: Commutes, Propagates, TracksPropagation

    A shallow embedding of [src/index.js] (the snapshot variant) and
    [src/index.mjs] (the variant with a tracking ledger and getter proxies)
    over an explicit JavaScript-like store: objects live in a heap and are
    named by references, properties carry descriptors, [this] is an explicit
    argument of every call, and the closures the two files create are the
    constructors of [func]. *)

From stdpp Require Import base list strings.
From Stdlib Require Import ZArith.

Open Scope string_scope.
Open Scope list_scope.

(** ** Values *)

(** The three module-level symbols ([Commutes.symbol], [Propagates.symbol],
    [TracksPropagation.tracking_symbol]) and the symbols [_track_key] makes
    with [Symbol(`tracked_child[${key}]`)], told apart by a serial number. *)
Inductive symbol :=
| SymCommute
| SymPropagate
| SymTracking
| SymTrackedChild (n : nat) (k : string).

Inductive key :=
| KStr (s : string)
| KSym (y : symbol).

(** References are positions in the store. *)
Abbreviation loc := nat (only parsing).

(** [func] lists the function values the two files can produce. A closure
    carries what it captured. *)
Inductive val :=
| VUndef
| VNum (z : Z)
| VStr (s : string)
| VSym (y : symbol)
| VRef (l : loc)
| VFun (f : func)
with func :=
| F_commute                                   (* _commute *)
| F_proxy_commute                             (* _proxy_commute *)
| F_id                                        (* id of @prettybad/util *)
| F_propagating_commute (commute : val)       (* closure of _commute_wrapper *)
| F_propagate_up (k : key) (context : val)    (* closure of create_propagate_up / propagate_up_create *)
| F_override_propagate_using_parent_context (y : symbol)
                                              (* getter made by create_propagate_proxy *)
| F_host (n : nat).                           (* a function of the caller: updaters, overrides *)

#[global] Instance symbol_eq_dec : EqDecision symbol.
Proof. solve_decision. Defined.

#[global] Instance key_eq_dec : EqDecision key.
Proof. solve_decision. Defined.

Fixpoint val_eq_dec (x y : val) {struct x} : {x = y} + {x <> y}
with func_eq_dec (f g : func) {struct f} : {f = g} + {f <> g}.
Proof.
  - decide equality; first [apply func_eq_dec | apply (decide_rel (=))].
  - decide equality; first [apply val_eq_dec | apply (decide_rel (=))].
Defined.

#[global] Instance val_eqdec : EqDecision val := val_eq_dec.

(** ** Property descriptors and objects *)

Record flags := Flags {
  configurable : bool;
  enumerable : bool;
  writable : bool
}.

#[global] Instance flags_eq_dec : EqDecision flags.
Proof. solve_decision. Defined.

Inductive prop :=
| PData (v : val) (fl : flags)
| PAccessor (getter : val) (fl : flags).

#[global] Instance prop_eq_dec : EqDecision prop.
Proof. solve_decision. Defined.

Definition prop_flags (p : prop) : flags :=
  match p with PData _ fl | PAccessor _ fl => fl end.

(** Modelled from the spec: the descriptor builders [d.*] of @prettybad/util
    ("property attachment with configurable enumerability/writability").
    A descriptor names the attributes its builder switches on and no other:
    [d.nothing] names none, [d.non_writable] names the two others. As the
    attributes of a property in an object, [flags] says which are on; an
    object literal's own fields have all three. *)
Definition d_nothing : flags := Flags false false false.
Definition d_configurable : flags := Flags true false false.
Definition d_enumerable : flags := Flags false true false.
Definition d_non_writable : flags := Flags true true false.
Definition d_literal : flags := Flags true true true.

Definition props := list (key * prop).

(** Own properties, in insertion order. *)
Fixpoint lookup_prop (k : key) (ps : props) : option prop :=
  match ps with
  | [] => None
  | (k', p) :: rest => if decide (k = k') then Some p else lookup_prop k rest
  end.

Fixpoint store_prop (k : key) (p : prop) (ps : props) : props :=
  match ps with
  | [] => [(k, p)]
  | (k', p') :: rest =>
      if decide (k = k') then (k, p) :: rest else (k', p') :: store_prop k p rest
  end.

Inductive obj :=
| Obj (ps : props)
| Arr (elems : list val).

(** ** The store and the computation monad *)

Record state := State {
  heap : list obj;
  next_symbol : nat;
  console : list string
}.

Definition set_heap (h : list obj) (st : state) : state :=
  State h (next_symbol st) (console st).

Inductive res (A : Type) :=
| Ok (a : A)
| Throws (e : string)
| OutOfFuel
| Unmodelled.
Arguments Ok {A} a.
Arguments Throws {A} e.
Arguments OutOfFuel {A}.
Arguments Unmodelled {A}.

Definition M (A : Type) : Type := state -> res (A * state).

#[global] Instance M_ret : MRet M := fun A a st => Ok (a, st).

#[global] Instance M_bind : MBind M := fun A B k m st =>
  match m st with
  | Ok (a, st') => k a st'
  | Throws e => Throws e
  | OutOfFuel => OutOfFuel
  | Unmodelled => Unmodelled
  end.

Definition throw {A} (e : string) : M A := fun _ => Throws e.
Definition unmodelled {A} : M A := fun _ => Unmodelled.
Definition out_of_fuel {A} : M A := fun _ => OutOfFuel.

(** An object or array literal. *)
Definition alloc (o : obj) : M val := fun st =>
  Ok (VRef (length (heap st)), set_heap (heap st ++ [o]) st).

Definition log (msg : string) (st : state) : state :=
  State (heap st) (next_symbol st) (console st ++ [msg]).

(** [console.assert(cond, msg)]: a failed assertion prints and goes on.
    The condition is evaluated first and may throw. *)
Definition console_assert (cond : state -> res bool) (msg : string) : M unit :=
  fun st =>
    match cond st with
    | Ok true => Ok (tt, st)
    | Ok false => Ok (tt, log msg st)
    | Throws e => Throws e
    | OutOfFuel => OutOfFuel
    | Unmodelled => Unmodelled
    end.

(** [Symbol(description)]: a symbol no earlier call returned. *)
Definition Symbol (description : string) : M symbol := fun st =>
  Ok (SymTrackedChild (next_symbol st) description,
      State (heap st) (S (next_symbol st)) (console st)).

Definition symbol_to_string (y : symbol) : string :=
  match y with
  | SymCommute => "Symbol(commute)"
  | SymPropagate => "Symbol(propagate)"
  | SymTracking => "Symbol(tracking)"
  | SymTrackedChild _ k => "Symbol(tracked_child[" +:+ k +:+ "])"
  end.

Definition own_props (st : state) (target : val) : option props :=
  match target with
  | VRef l => match heap st !! l with Some (Obj ps) => Some ps | _ => None end
  | _ => None
  end.

(** ** @prettybad/util *)

(** Modelled from the spec: @prettybad/util is an external package, not part
    of these sources. Its operations follow the interface the specification
    requires of it: has-key, read, property attachment in place, the
    immutable "update value at key" that "returns a new container with one
    field replaced and all others structurally shared", conditional
    application, fold and append. Descriptor records and argument records are
    not heap objects here. Arrays carry their elements only. *)
Module util.

(** [has(k)(target)]: an own key of [target]. It reads the store and
    changes nothing; on [undefined] it throws. *)
Definition has (k : key) (target : val) (st : state) : res bool :=
  match target with
  | VUndef => Throws "TypeError: Cannot convert undefined or null to object"
  | _ =>
      Ok (match own_props st target with
          | Some ps => match lookup_prop k ps with Some _ => true | None => false end
          | None => false
          end)
  end.

(** [not(pred)] and [and([pred, ...])] *)
Definition not (pred : val -> state -> res bool) (target : val) (st : state)
    : res bool :=
  match pred target st with
  | Ok b => Ok (negb b)
  | r => r
  end.

Fixpoint and (preds : list (val -> state -> res bool)) (target : val)
    (st : state) : res bool :=
  match preds with
  | [] => Ok true
  | pred :: rest =>
      match pred target st with
      | Ok b => match and rest target st with Ok b' => Ok (b && b') | r => r end
      | r => r
      end
  end.

(** What [Object.defineProperty] accepts over an existing property [old],
    for a descriptor [d] that names only attributes it switches on: anything
    when [old] is configurable; otherwise [d] may not name [configurable],
    may name [enumerable] only if [old] has it, must be of the kind of
    [old], and may give a data property that is not writable only the value
    it has, an accessor only the getter it has. *)
Definition redefinable (old d : prop) : bool :=
  configurable (prop_flags old)
  || (negb (configurable (prop_flags d))
      && (enumerable (prop_flags old) || negb (enumerable (prop_flags d)))
      && match old, d with
         | PData vo fo, PData v fd =>
             writable fo || (negb (writable fd) && bool_decide (vo = v))
         | PAccessor go _, PAccessor g _ => bool_decide (go = g)
         | _, _ => false
         end).

(** The property [old] once [d] is applied to it: the attributes [d] names
    are switched on, the others stay as they are; [writable] belongs to
    data properties only and starts off when the kind changes. *)
Definition redefined (old d : prop) : prop :=
  let c := configurable (prop_flags old) || configurable (prop_flags d) in
  let e := enumerable (prop_flags old) || enumerable (prop_flags d) in
  match d with
  | PData v fd =>
      PData v (Flags c e (match old with
                          | PData _ fo => writable fo || writable fd
                          | PAccessor _ _ => writable fd
                          end))
  | PAccessor g _ => PAccessor g (Flags c e false)
  end.

(** The own properties once [d] is defined at [k]: a new property has the
    attributes [d] names and no other. *)
Definition applied (k : key) (d : prop) (ps : props) : props :=
  store_prop k
    (match lookup_prop k ps with Some old => redefined old d | None => d end)
    ps.

Definition define_prop (k : key) (d : prop) (ps : props) : option props :=
  match lookup_prop k ps with
  | None => Some (applied k d ps)
  | Some old => if redefinable old d then Some (applied k d ps) else None
  end.

(** [define_property.mut(k)(descriptor)(target)]: in place, returns [target]. *)
Definition define_property_mut (k : key) (p : prop) (target : val) : M val :=
  fun st =>
    match target with
    | VRef l =>
        match heap st !! l with
        | Some (Obj ps) =>
            match define_prop k p ps with
            | Some ps' => Ok (target, set_heap (<[l := Obj ps']> (heap st)) st)
            | None => Throws "TypeError: Cannot redefine property"
            end
        | _ => Unmodelled
        end
    | _ => Throws "TypeError: Object.defineProperty called on non-object"
    end.

(** [define_properties.mut({...})(target)]: each descriptor in turn. *)
Fixpoint define_properties_mut (ds : props) (target : val) : M val :=
  match ds with
  | [] => mret target
  | (k, p) :: rest =>
      t ← define_property_mut k p target; define_properties_mut rest t
  end.

(** [ᐅwhen(pred)(fn)(target)] *)
Definition when (pred : val -> state -> res bool) (fn : val -> M val)
    (target : val) : M val :=
  fun st =>
    match pred target st with
    | Ok true => fn target st
    | Ok false => Ok (target, st)
    | Throws e => Throws e
    | OutOfFuel => OutOfFuel
    | Unmodelled => Unmodelled
    end.

(** [fold(f)(initial)(list)], with [f] curried as item, then accumulator. *)
Fixpoint fold {A} (f : A -> val -> M val) (initial : val) (l : list A) : M val :=
  match l with
  | [] => mret initial
  | x :: rest => acc ← f x initial; fold f acc rest
  end.

Definition flip {A B C} (f : A -> B -> C) : B -> A -> C := fun b a => f a b.

(** [push(v)(array)]: a new array with [v] appended. *)
Definition push (v : val) (array : val) : M val := fun st =>
  match array with
  | VRef l =>
      match heap st !! l with
      | Some (Arr elems) => alloc (Arr (elems ++ [v])) st
      | _ => Unmodelled
      end
  | _ => Unmodelled
  end.

Section Reads.
(** Reading a property may run a getter: [invoke f this arg]. *)
Variable invoke : val -> val -> val -> M val.

(** [get(k)(target)], also the plain read [target[k]]. *)
Definition get (k : key) (target : val) : M val := fun st =>
  match target with
  | VUndef => Throws "TypeError: Cannot read properties of undefined"
  | VRef l =>
      match heap st !! l with
      | Some (Obj ps) =>
          match lookup_prop k ps with
          | Some (PData v _) => Ok (v, st)
          | Some (PAccessor g _) => invoke g target VUndef st
          | None => Ok (VUndef, st)
          end
      | Some (Arr _) => Ok (VUndef, st)
      | None => Unmodelled
      end
  | _ => Ok (VUndef, st)
  end.

(** Modelled from the spec: the "new container with one field replaced and
    all others structurally shared" that [update] returns, here every other
    own property of [target] with its descriptor (hidden slots and getters
    included, as the Tree suites need), and [k] written as an ordinary
    field holding [v], whatever attributes the data property [k] had. *)
Definition copy_with (k : key) (v : val) (target : val) : M val := fun st =>
  match own_props st target with
  | Some ps =>
      match lookup_prop k ps with
      | Some (PData _ _) => alloc (Obj (store_prop k (PData v d_literal) ps)) st
      | _ => Unmodelled
      end
  | None => Unmodelled
  end.

(** Modelled from the spec: [update(k)(fn)(target)], the immutable "update
    value at key": read, apply [fn], copy. *)
Definition update (k : key) (fn : val -> M val) (target : val) : M val :=
  v ← get k target; v' ← fn v; copy_with k v' target.
End Reads.

End util.

(** ** What both files define alike *)

Definition state_key : key := KStr "state".
Definition commute_key : key := KStr "commute".

(** [override_internal(symbol)(replacement)(target)] *)
Definition override_internal (y : symbol) (replacement : val) (target : val)
    : M val :=
  console_assert (util.has (KSym y) target)
    ("override_internal: " +:+ symbol_to_string y +:+ " does not exist!");;
  util.when (util.has (KSym y))
    (util.define_property_mut (KSym y) (PData replacement d_configurable))
    target.

(** [Commutes.override] and [Propagates.override] *)
Definition _override_commute (override : val) : val -> M val :=
  override_internal SymCommute override.

Definition _override_propagate (override : val) : val -> M val :=
  override_internal SymPropagate override.

(** The closures the files build, under the names of their makers.
    [create_propagate_proxy] is only ever given [Propagators.propagate_up],
    that is [create_propagate_up]. *)
Definition _commute_wrapper (commute : val) : val :=
  VFun (F_propagating_commute commute).

Definition propagate_up_create (k : string) (target : val) : val :=
  VFun (F_propagate_up (KStr k) target).

Definition create_propagate_up (y : symbol) (context : val) : val :=
  VFun (F_propagate_up (KSym y) context).

Definition create_propagate_proxy (y : symbol) : val :=
  VFun (F_override_propagate_using_parent_context y).

Section Bodies.
Variable invoke : val -> val -> val -> M val.

(** [_commute]: [update(`state`)(updater)(this)] *)
Definition _commute (this updater : val) : M val :=
  util.update invoke state_key (invoke updater VUndef) this.

(** [_proxy_commute]: [this[Commutes.symbol](updater)] *)
Definition _proxy_commute (this updater : val) : M val :=
  m ← util.get invoke (KSym SymCommute) this; invoke m this updater.

(** [propagating_commute]: the pipe of [bind(this)(commute)] and
    [method_of(this)(Propagates.symbol)]. The two stages are built before
    the pipe runs, so the propagate slot is read on entry. *)
Definition propagating_commute (commute this updater : val) : M val :=
  propagate ← util.get invoke (KSym SymPropagate) this;
  result ← invoke commute this updater;
  invoke propagate this result.

(** [propagate_up], for [{ key, target }] in index.js and for
    [{ symbol, context }] in index.mjs. *)
Definition propagate_up (k : key) (context result : val) : M val :=
  util.update invoke k (fun _ => mret result) context.

(** [override_propagate_using_parent_context], the getter of a tracked key
    in index.mjs, with [Propagator = create_propagate_up]. *)
Definition override_propagate_using_parent_context (y : symbol)
    (this : val) : M val :=
  let overrider := create_propagate_up y this in
  child ← util.get invoke (KSym y) this;
  _override_propagate overrider child.

(** [_wrap_commute] with [_commute_wrapper] *)
Definition _wrap_commute (target : val) : M val :=
  commute ← util.get invoke (KSym SymCommute) target;
  _override_commute (_commute_wrapper commute) target.

(** [Propagates], the same text in both files. *)
Definition Propagates (target : val) : M val :=
  console_assert (util.has (KSym SymCommute) target)
    "The `target` object of `Propagates` must also be `Commutes`!";;
  util.when (util.has (KSym SymCommute))
    (fun t =>
       t1 ← util.define_property_mut (KSym SymPropagate)
              (PData (VFun F_id) d_configurable) t;
       _wrap_commute t1)
    target.
End Bodies.

(** [Commutes.property] and the two definitions [Commutes] makes. *)
Definition Commutes_property : prop := PData (VFun F_commute) d_configurable.

Definition attach_commute (target : val) : M val :=
  t ← util.define_property_mut (KSym SymCommute) Commutes_property target;
  util.define_property_mut commute_key (PData (VFun F_proxy_commute) d_nothing) t.

Definition msg_state : string :=
  "The `target` object of `Commutes` must have a state key!".

Definition msg_track (k : string) : string :=
  "TracksPropagation: key (" +:+ k +:+ ") does not exist in target!".

(** ** src/index.js *)
Module IndexJs.

Definition Commutes (target : val) : M val :=
  console_assert (util.has state_key target) msg_state;;
  util.when (util.has state_key) attach_commute target.

Section Tracking.
Variable invoke : val -> val -> val -> M val.

Definition _track_key (k : string) (target : val) : M val :=
  console_assert (util.has (KStr k) target) (msg_track k);;
  let propagate := propagate_up_create k target in
  util.when (util.has (KStr k))
    (util.update invoke (KStr k) (_override_propagate propagate))
    target.

Definition TracksPropagation (keys : list string) : val -> M val :=
  util.flip (util.fold _track_key) keys.
End Tracking.

End IndexJs.

(** ** src/index.mjs *)
Module IndexMjs.

Definition Commutes (target : val) : M val :=
  console_assert (util.has state_key target) msg_state;;
  console_assert (util.not (util.has (KSym SymCommute)) target)
    "Commutes: `target` is already `Commutes`!";;
  util.when
    (util.and [util.has state_key; util.not (util.has (KSym SymCommute))])
    attach_commute target.

(** A ledger entry [{ key, symbol }]. *)
Definition entry (k : string) (y : symbol) : obj :=
  Obj [(KStr "key", PData (VStr k) d_literal);
       (KStr "symbol", PData (VSym y) d_literal)].

Section Tracking.
Variable invoke : val -> val -> val -> M val.

Definition _add_to_tracking (k : string) (y : symbol) (target : val)
    : M val :=
  e ← alloc (entry k y);
  util.update invoke (KSym SymTracking) (util.push e) target.

(** The descriptor map of [_track_key] has a symbol key and a string key;
    [define_properties.mut] meets the string key first. *)
Definition _track_key (k : string) (target : val) : M val :=
  console_assert (util.has (KStr k) target) (msg_track k);;
  tracked_child ← util.get invoke (KStr k) target;
  y ← Symbol k;
  let proxy := create_propagate_proxy y in
  util.when (util.has (KStr k))
    (fun t =>
       t1 ← _add_to_tracking k y t;
       util.define_properties_mut
         [(KStr k, PAccessor proxy d_enumerable);
          (KSym y, PData tracked_child d_non_writable)] t1)
    target.

(** [TracksPropagation(keys)(target)]; the empty ledger is the array
    literal of the call [TracksPropagation(keys)]. *)
Definition TracksPropagation (keys : list string) (target : val) : M val :=
  ledger ← alloc (Arr []);
  t ← util.define_property_mut (KSym SymTracking)
        (PData ledger d_configurable) target;
  util.flip (util.fold _track_key) keys t.
End Tracking.

End IndexMjs.

(** ** Calls *)

Section Interp.
(** The caller's own functions, by number: [host invoke n this arg]; they
    may call back through [invoke]. *)
Variable host : (val -> val -> val -> M val) -> nat -> val -> val -> M val.

Fixpoint call (fuel : nat) (f this arg : val) {struct fuel} : M val :=
  match fuel with
  | 0 => out_of_fuel
  | S n =>
      match f with
      | VFun F_commute => _commute (call n) this arg
      | VFun F_proxy_commute => _proxy_commute (call n) this arg
      | VFun F_id => mret arg
      | VFun (F_propagating_commute commute) =>
          propagating_commute (call n) commute this arg
      | VFun (F_propagate_up k context) => propagate_up (call n) k context arg
      | VFun (F_override_propagate_using_parent_context y) =>
          override_propagate_using_parent_context (call n) y this
      | VFun (F_host h) => host (call n) h this arg
      | _ => throw "TypeError: not a function"
      end
  end.
End Interp.

(** ** Reading results *)

(** [parent[k].commute(updater)] *)
Definition commit_via (invoke : val -> val -> val -> M val) (parent : val)
    (k : string) (updater : val) : M val :=
  child ← util.get invoke (KStr k) parent;
  commute ← util.get invoke commute_key child;
  invoke commute child updater.

(** [node.commute(updater)] *)
Definition commit (invoke : val -> val -> val -> M val) (node updater : val)
    : M val :=
  commute ← util.get invoke commute_key node;
  invoke commute node updater.

(** The data field [k] of the object [v], read without running getters. *)
Definition field (st : state) (v : val) (k : key) : option val :=
  ps ← own_props st v;
  match lookup_prop k ps with
  | Some (PData x _) => Some x
  | _ => None
  end.

Definition elements (st : state) (v : val) : option (list val) :=
  match v with
  | VRef l => match heap st !! l with Some (Arr es) => Some es | _ => None end
  | _ => None
  end.

(** [map(get(`key`))(parent[TracksPropagation.tracking_symbol])] *)
Definition ledger_keys (st : state) (parent : val) : option (list val) :=
  ledger ← field st parent (KSym SymTracking);
  es ← elements st ledger;
  mapM (fun e => field st e (KStr "key")) es.

(** [map(get(`symbol`))(parent[TracksPropagation.tracking_symbol])] *)
Definition ledger_symbols (st : state) (parent : val) : option (list val) :=
  ledger ← field st parent (KSym SymTracking);
  es ← elements st ledger;
  mapM (fun e => field st e (KStr "symbol")) es.

(** ** States the operations reach *)

(** The store with the object at [l] replaced. *)
Definition put (l : loc) (ps : props) (st : state) : state :=
  set_heap (<[l := Obj ps]> (heap st)) st.

(** The own properties of a node after [Commutes], and after [Propagates]
    wrapped the commit behaviour [commute]. *)
Definition with_commute (ps : props) : props :=
  store_prop commute_key (PData (VFun F_proxy_commute) d_nothing)
    (store_prop (KSym SymCommute) Commutes_property ps).

Definition with_propagate (commute : val) (ps : props) : props :=
  util.applied (KSym SymCommute)
    (PData (VFun (F_propagating_commute commute)) d_configurable)
    (util.applied (KSym SymPropagate) (PData (VFun F_id) d_configurable) ps).

(** The own properties of a node once [override_internal] replaced the
    slot [y] by [r]. *)
Definition overridden (y : symbol) (r : val) (ps : props) : props :=
  util.applied (KSym y) (PData r d_configurable) ps.

(** The state after index.mjs passed over a key the parent lacks. *)
Definition skipped (k : string) (st : state) : state :=
  State (heap st) (S (next_symbol st)) (console st ++ [msg_track k]).

(** ** Tracked parents of index.mjs *)

(** The parent's own properties after [_track_key] handled [k]: the ledger
    slot of the copy holds the new array [ledger], [k] is the getter and the
    symbol [y] hides the child [c]. *)
Definition tracked_props (k : string) (y : symbol) (c ledger : val)
    (ps : props) : props :=
  util.applied (KSym y) (PData c d_non_writable)
    (util.applied (KStr k) (PAccessor (create_propagate_proxy y) d_enumerable)
       (store_prop (KSym SymTracking) (PData ledger d_literal) ps)).

(** [ps] tracks key [k] under symbol [y] with hidden child [c]: [k] is the
    getter for [y], and [y] holds [c]. The attributes are left open: a
    commit through the parent rewrites the hidden slot as an ordinary
    field. *)
Definition tracks (ps : props) (e : string * symbol * val) : Prop :=
  let '(k, y, c) := e in
  (exists n, y = SymTrackedChild n k)
  /\ (exists fa,
        lookup_prop (KStr k) ps = Some (PAccessor (create_propagate_proxy y) fa))
  /\ (exists fy, lookup_prop (KSym y) ps = Some (PData c fy)).

(** The reference [r] is a ledger entry [{ key, symbol }] for [e]. *)
Definition entry_at (st : state) (r : val) (e : string * symbol * val) : Prop :=
  exists le, r = VRef le /\ heap st !! le = Some (IndexMjs.entry e.1.1 e.1.2).

(** The object at [p] is a tracked parent whose ledger lists [es], in order,
    and no symbol [Symbol] may still return is among its keys. *)
Definition tracking (st : state) (p : loc) (ps : props)
    (es : list (string * symbol * val)) : Prop :=
  heap st !! p = Some (Obj ps)
  /\ (exists la fl refs,
        lookup_prop (KSym SymTracking) ps = Some (PData (VRef la) fl)
        /\ heap st !! la = Some (Arr refs)
        /\ Forall2 (entry_at st) refs es)
  /\ Forall (tracks ps) es
  /\ (forall n d, next_symbol st <= n ->
        lookup_prop (KSym (SymTrackedChild n d)) ps = None).

(** The own properties of a node with Commutes and then Propagates
    attached, holding the state [s]. *)
Definition propagating_node (psc : props) (s : val) : Prop :=
  (exists fs, lookup_prop state_key psc = Some (PData s fs))
  /\ lookup_prop commute_key psc = Some (PData (VFun F_proxy_commute) d_nothing)
  /\ lookup_prop (KSym SymCommute) psc
     = Some (PData (VFun (F_propagating_commute (VFun F_commute))) d_configurable)
  /\ (exists old, lookup_prop (KSym SymPropagate) psc = Some old
                  /\ configurable (prop_flags old) = true).

(** [parent[y].state], read from the store. *)
Definition child_state (st : state) (parent : val) (y : symbol) : option val :=
  c ← field st parent (KSym y); field st c state_key.

(** [parent[k].state], read as a caller does. *)
Definition read_state (invoke : val -> val -> val -> M val) (parent : val)
    (k : string) : M val :=
  c ← util.get invoke (KStr k) parent; util.get invoke state_key c.

(** [st'] keeps [st]: every object of [st] is in [st'] as it was, and no
    symbol is handed out again. What ran in between (an updater, say) may
    have read the store, allocated, printed and made symbols. *)
Definition keeps (st st' : state) : Prop :=
  (forall l o, heap st !! l = Some o -> heap st' !! l = Some o)
  /\ next_symbol st <= next_symbol st'.

(** The entries [es] once the symbol [y] hides [c]. *)
Definition with_child (y : symbol) (c : val)
    (es : list (string * symbol * val)) : list (string * symbol * val) :=
  map (fun e => if decide (e.1.2 = y) then (e.1.1, y, c) else e) es.

(** A key [TracksPropagation] can take over: an ordinary field. *)
Definition plain_field (ps : props) (k : string) (c : val) : Prop :=
  exists fl, lookup_prop (KStr k) ps = Some (PData c fl) /\ configurable fl = true.

(** ** Keys listed more than once in index.mjs *)

(** [k] is listed more than once in [keys]. *)
Fixpoint listed_twice (k : string) (keys : list string) : Prop :=
  match keys with
  | [] => False
  | k' :: rest => (k' = k /\ k ∈ rest) \/ listed_twice k rest
  end.

(** The keys of [keys] the parent has, in the order listed. *)
Definition present (ps : props) (keys : list string) : list string :=
  filter (fun k => is_Some (lookup_prop (KStr k) ps)) keys.

(** The object at [l], if it has a propagate slot, lets it be replaced. *)
Definition slot_free (st : state) (l : loc) : Prop :=
  forall psc old,
    heap st !! l = Some (Obj psc) ->
    lookup_prop (KSym SymPropagate) psc = Some old ->
    configurable (prop_flags old) = true.

(** A value the getter of a tracked key can hand out. The second time a
    key is tracked its value is read through the getter of the first time,
    which calls the override utility on it: that throws on [undefined], and
    on an object with a propagate slot it needs the slot replaceable. A
    reference is to an object of the store. *)
Definition overridable (st : state) (c : val) : Prop :=
  c <> VUndef
  /\ forall lc, c = VRef lc -> lc < length (heap st) /\ slot_free st lc.

(** [st'] has the objects of [st], at their places, and a propagate slot
    that could be replaced in [st] can be replaced in [st']. *)
Definition evolves (st st' : state) : Prop :=
  length (heap st) <= length (heap st')
  /\ forall l, l < length (heap st) -> slot_free st l -> slot_free st' l.

(** The symbol [y] was made for [k] and hides [c] in [ps]. *)
Definition hides (ps : props) (e : string * symbol * val) : Prop :=
  let '(k, y, c) := e in
  (exists n, y = SymTrackedChild n k)
  /\ (exists fy, lookup_prop (KSym y) ps = Some (PData c fy)).

(** The object at [p] carries a ledger that lists [es], in order, each
    entry's symbol hiding its child; as [tracking], without the getters,
    which a key listed again takes away from its earlier entries. *)
Definition ledgered (st : state) (p : loc) (ps : props)
    (es : list (string * symbol * val)) : Prop :=
  heap st !! p = Some (Obj ps)
  /\ (exists la fl refs,
        lookup_prop (KSym SymTracking) ps = Some (PData (VRef la) fl)
        /\ heap st !! la = Some (Arr refs)
        /\ Forall2 (entry_at st) refs es)
  /\ Forall (hides ps) es
  /\ (forall n d, next_symbol st <= n ->
        lookup_prop (KSym (SymTrackedChild n d)) ps = None).

(** The key [k] of the parent at [p] can be tracked, and tracked [again]
    later: it is absent, or an ordinary field, or the getter an earlier
    step of the same fold left. *)
Definition trackable (st : state) (p : loc) (ps : props) (k : string)
    (again : Prop) : Prop :=
  (forall c fk,
     lookup_prop (KStr k) ps = Some (PData c fk) ->
     configurable fk = true /\ (again -> overridable st c))
  /\ (forall g fa,
        lookup_prop (KStr k) ps = Some (PAccessor g fa) ->
        configurable fa = true
        /\ exists n c fy,
             g = create_propagate_proxy (SymTrackedChild n k)
             /\ lookup_prop (KSym (SymTrackedChild n k)) ps = Some (PData c fy)
             /\ overridable st c
             /\ c <> VRef p).

(** ** The fixtures of the two test suites *)
Module Fixtures.

Definition literal (fields : list (string * val)) : obj :=
  Obj (map (fun '(k, v) => (KStr k, PData v d_literal)) fields).

(** [current => current === 'green' ? 'brown' : 'green'] *)
Definition turn_color (current : val) : val :=
  if decide (current = VStr "green") then VStr "brown" else VStr "green".

Definition h_turn_color : nat := 0.
Definition h_turn : nat := 1.
Definition h_emit_smoke : nat := 2.
Definition h_increment : nat := 3.
Definition h_push_0 : nat := 4.

(** The functions the suites pass in; [smoke] is the object of the
    Propagates suite. *)
Definition host (smoke : val) (invoke : val -> val -> val -> M val)
    (n : nat) (this arg : val) : M val :=
  match n with
  | 0 => (* update(`color`)(turn_color) *)
      util.update invoke (KStr "color") (fun c => mret (turn_color c)) arg
  | 1 => (* turn () { return this.commute(update(`color`)(...)) } *)
      commit invoke this (VFun (F_host h_turn_color))
  | 2 => (* result => [ smoke, result.state ] *)
      s ← util.get invoke state_key arg; alloc (Arr [smoke; s])
  | 3 => (* v => v + 1 *)
      match arg with
      | VNum z => mret (VNum (z + 1))
      | _ => unmodelled
      end
  | 4 => (* push(0) *)
      util.push (VNum 0) arg
  | _ => throw "TypeError: not a function"
  end.

Definition run : nat -> val -> val -> val -> M val := call (host VUndef).
Definition fuel : nat := 16.

Definition st0 : state := State [] 0 [].

(** [Leaf({})] up to the call of [Commutes] *)
Definition leaf_literal : M val :=
  s ← alloc (literal [("color", VStr "green")]);
  alloc (literal [("state", s); ("turn", VFun (F_host h_turn))]).

Definition Leaf_js : M val := l ← leaf_literal; IndexJs.Commutes l.
Definition Leaf_mjs : M val := l ← leaf_literal; IndexMjs.Commutes l.

(** The object literals handed to [TracksPropagation]: one leaf as in
    index.js, two as in index.mjs. *)
Definition one_leaf (Leaf : M val) : M val :=
  l ← Leaf;
  l ← Propagates (run fuel) l;
  alloc (literal [("leaf", l); ("height", VNum 100)]).

Definition two_leaves (Leaf : M val) : M val :=
  l ← Leaf;
  l ← Propagates (run fuel) l;
  l2 ← Leaf;
  l2 ← Propagates (run fuel) l2;
  alloc (literal [("leaf", l); ("leaf2", l2); ("height", VNum 100)]).

(** [Tree] of index.js, and the same parent under index.mjs. *)
Definition Tree_js : M val :=
  t ← one_leaf Leaf_js;
  IndexJs.TracksPropagation (run fuel) ["leaf"] t.

Definition Tree1_mjs : M val :=
  t ← one_leaf Leaf_mjs;
  IndexMjs.TracksPropagation (run fuel) ["leaf"] t.

(** [Tree] of index.mjs, and the same parent under index.js. *)
Definition Tree_mjs : M val :=
  t ← two_leaves Leaf_mjs;
  IndexMjs.TracksPropagation (run fuel) ["leaf"; "leaf2"] t.

Definition Tree2_js : M val :=
  t ← two_leaves Leaf_js;
  IndexJs.TracksPropagation (run fuel) ["leaf"; "leaf2"] t.

Definition get : key -> val -> M val := util.get (run fuel).

(** [tree.height] and [tree[k].state.color] *)
Definition height (tree : val) : M val := get (KStr "height") tree.

Definition color (tree : val) (k : string) : M val :=
  l ← get (KStr k) tree;
  s ← get state_key l;
  get (KStr "color") s.

Definition turn_updater : val := VFun (F_host h_turn_color).

(** [tree[k].commute(update(`color`)(...))], what [tree[k].turn()] does. *)
Definition turn_leaf (k : string) (tree : val) : M val :=
  commit_via (run fuel) tree k turn_updater.

Definition value {A} (r : res (A * state)) : option A :=
  match r with Ok (a, _) => Some a | _ => None end.

(** The Tree example: the leaf of a fresh tree is green, height 100; its
    commit with the colour updater returns another parent, height 100, leaf
    brown; the same on that parent returns a parent with a green leaf. *)
Definition turns_brown_then_green (Tree : M val) : Prop :=
  exists tree st turned st1 twice st2,
    Tree st0 = Ok (tree, st)
    /\ value (height tree st) = Some (VNum 100)
    /\ value (color tree "leaf" st) = Some (VStr "green")
    /\ turn_leaf "leaf" tree st = Ok (turned, st1)
    /\ turned <> tree
    /\ value (height turned st1) = Some (VNum 100)
    /\ value (color turned "leaf" st1) = Some (VStr "brown")
    /\ turn_leaf "leaf" turned st1 = Ok (twice, st2)
    /\ value (height twice st2) = Some (VNum 100)
    /\ value (color twice "leaf" st2) = Some (VStr "green").

(** Two counters [Propagates(Commutes({ state: 5 }))] under the keys [a]
    and [b] of a parent, and that parent tracked by index.mjs. *)
Definition two_counters (Commutes : val -> M val) : M val :=
  a ← alloc (literal [("state", VNum 5)]);
  a ← Commutes a;
  a ← Propagates (run fuel) a;
  b ← alloc (literal [("state", VNum 5)]);
  b ← Commutes b;
  b ← Propagates (run fuel) b;
  alloc (literal [("a", a); ("b", b)]).

Definition Counters_mjs : M val :=
  t ← two_counters IndexMjs.Commutes;
  IndexMjs.TracksPropagation (run fuel) ["a"; "b"] t.

(** The same parent tracked by index.js. *)
Definition Counters_js : M val :=
  t ← two_counters IndexJs.Commutes;
  IndexJs.TracksPropagation (run fuel) ["a"; "b"] t.

(** A parent [{ a: 1, b: 2 }], alone in the store. *)
Definition siblings : props :=
  [(KStr "a", PData (VNum 1) d_literal); (KStr "b", PData (VNum 2) d_literal)].

Definition st_siblings : state := State [Obj siblings] 0 [].

(** [{ state: 5 }], bare and with Commutes attached, alone in the store. *)
Definition counter : props := [(state_key, PData (VNum 5) d_literal)].

Definition st_plain : state := State [Obj counter] 0 [].

Definition st_counter : state :=
  State [Obj (store_prop commute_key (PData (VFun F_proxy_commute) d_nothing)
                (store_prop (KSym SymCommute) Commutes_property counter))]
    0 [].

(** The Propagates suite: [smoke], the state [[]] and
    [propagating = Propagates(Commutes({ state: [] }))]. *)
Definition propagating : props :=
  [(state_key, PData (VRef 1) d_literal);
   (KSym SymCommute,
    PData (VFun (F_propagating_commute (VFun F_commute))) d_configurable);
   (commute_key, PData (VFun F_proxy_commute) d_nothing);
   (KSym SymPropagate, PData (VFun F_id) d_configurable)].

Definition st_smoke : state :=
  State [literal [("message", VStr "propagate called")]; Arr [];
         Obj propagating] 0 [].

(** The same node after [Smokes = Propagates.override(emit_smoke)]. *)
Definition smoking : props :=
  store_prop (KSym SymPropagate)
    (PData (VFun (F_host h_emit_smoke)) d_configurable) propagating.

Definition st_smoking : state :=
  State [literal [("message", VStr "propagate called")]; Arr [];
         Obj smoking] 0 [].

End Fixtures.

(** * Properties *)

(** ** Own properties *)

Lemma lookup_store_eq k p ps : lookup_prop k (store_prop k p ps) = Some p.
Proof.
  induction ps as [|[k' p'] ps IH]; simpl.
  - by rewrite decide_True.
  - destruct (decide (k = k')) as [->|Hne]; simpl.
    + by rewrite decide_True.
    + by rewrite decide_False.
Qed.

Lemma lookup_store_ne k k' p ps :
  k <> k' -> lookup_prop k' (store_prop k p ps) = lookup_prop k' ps.
Proof.
  intros Hne. induction ps as [|[k0 p0] ps IH]; simpl.
  - by rewrite decide_False.
  - destruct (decide (k = k0)) as [->|Hk]; simpl.
    + by rewrite !decide_False.
    + destruct (decide (k' = k0)); [done | apply IH].
Qed.

(** ** The monad *)

Lemma bind_Ok {A B} (m : M A) (k : A -> M B) st a st' :
  m st = Ok (a, st') -> (m ≫= k) st = k a st'.
Proof. intros H. unfold mbind, M_bind. by rewrite H. Qed.

Lemma has_lookup k l st ps :
  heap st !! l = Some (Obj ps) ->
  util.has k (VRef l) st
  = Ok (match lookup_prop k ps with Some _ => true | None => false end).
Proof. intros H. unfold util.has. simpl. by rewrite H. Qed.

Lemma has_log k target msg st : util.has k target (log msg st) = util.has k target st.
Proof. done. Qed.

(** ** Guards *)

Lemma console_assert_true cond msg st :
  cond st = Ok true -> console_assert cond msg st = Ok (tt, st).
Proof. intros H. unfold console_assert. by rewrite H. Qed.

Lemma console_assert_false cond msg st :
  cond st = Ok false -> console_assert cond msg st = Ok (tt, log msg st).
Proof. intros H. unfold console_assert. by rewrite H. Qed.

Lemma when_true pred fn target st :
  pred target st = Ok true -> util.when pred fn target st = fn target st.
Proof. intros H. unfold util.when. by rewrite H. Qed.

Lemma when_false pred fn target st :
  pred target st = Ok false -> util.when pred fn target st = Ok (target, st).
Proof. intros H. unfold util.when. by rewrite H. Qed.

(** [has] answers for every value but [undefined], whatever the key. *)
Lemma has_answers k target st b k' st' :
  util.has k target st = Ok b -> exists b', util.has k' target st' = Ok b'.
Proof. destruct target; simpl; [done|by eexists..]. Qed.

(** ** Attaching to a node without [state] *)

Lemma Commutes_missing_state target st :
  util.has state_key target st = Ok false ->
  IndexJs.Commutes target st = Ok (target, log msg_state st)
  /\ exists st',
       IndexMjs.Commutes target st = Ok (target, st')
       /\ heap st' = heap st
       /\ exists more, console st' = console st ++ msg_state :: more.
Proof.
  intros Hno. split.
  - unfold IndexJs.Commutes.
    erewrite bind_Ok; [|by apply console_assert_false].
    apply when_false. by rewrite has_log.
  - unfold IndexMjs.Commutes.
    erewrite bind_Ok; [|by apply console_assert_false].
    destruct (has_answers _ _ _ _ (KSym SymCommute) st Hno) as [b Hb].
    assert (Hand : forall st1, heap st1 = heap st ->
              util.and [util.has state_key; util.not (util.has (KSym SymCommute))]
                target st1 = Ok false).
    { intros st1 Hh. simpl. unfold util.not.
      replace (util.has state_key target st1) with (Ok (A:=bool) false).
      - replace (util.has (KSym SymCommute) target st1) with (Ok b); [done|].
        rewrite <- Hb. unfold util.has, own_props. by rewrite Hh.
      - rewrite <- Hno. unfold util.has, own_props. by rewrite Hh. }
    destruct b.
    + erewrite bind_Ok.
      2: { apply console_assert_false. unfold util.not.
           by rewrite has_log, Hb. }
      rewrite when_false by (by apply Hand).
      eexists. split; [reflexivity|]. split; [done|]. eexists. simpl.
      rewrite <- app_assoc. reflexivity.
    + erewrite bind_Ok.
      2: { apply console_assert_true. unfold util.not.
           by rewrite has_log, Hb. }
      rewrite when_false by (by apply Hand).
      eexists. split; [reflexivity|]. split; [done|]. by exists [].
Qed.

(** C7. Attaching Commutes to a node that has no [state] field prints the
    diagnostic, throws nothing and hands back its argument; the store is
    the one it started from, so the node has gained neither the private
    commit slot nor the [commute] method. This holds in both files;
    index.mjs prints a second diagnostic when the node already carries the
    private slot. *)
Theorem Commutes_without_state (target : val) (st : state) :
  util.has state_key target st = Ok false ->
  IndexJs.Commutes target st = Ok (target, log msg_state st)
  /\ (exists st',
        IndexMjs.Commutes target st = Ok (target, st')
        /\ heap st' = heap st
        /\ exists more, console st' = console st ++ msg_state :: more)
  /\ (forall st', heap st' = heap st ->
        util.has commute_key target st' = util.has commute_key target st
        /\ util.has (KSym SymCommute) target st'
           = util.has (KSym SymCommute) target st).
Proof.
  intros Hno. destruct (Commutes_missing_state target st Hno) as [Hjs Hmjs].
  split; [exact Hjs|]. split; [exact Hmjs|].
  intros st' Hh. unfold util.has, own_props. rewrite Hh. done.
Qed.

Lemma Commutes_without_state_witness :
  let st := State [Obj [(KStr "v", PData (VNum 5) d_literal)]] 0 [] in
  IndexJs.Commutes (VRef 0) st = Ok (VRef 0, log msg_state st).
Proof.
  intros st. apply (Commutes_without_state (VRef 0) st). reflexivity.
Defined.

(** ** Keys the parent does not have *)

Lemma define_prop_applied k d ps ps' :
  util.define_prop k d ps = Some ps' -> ps' = util.applied k d ps.
Proof.
  unfold util.define_prop. destruct (lookup_prop k ps) as [old|].
  - destruct (util.redefinable old d); congruence.
  - congruence.
Qed.

Lemma applied_lookup_ne k k' d ps :
  k <> k' -> lookup_prop k' (util.applied k d ps) = lookup_prop k' ps.
Proof. intros Hne. unfold util.applied. by apply lookup_store_ne. Qed.

Lemma lookup_snoc_Obj (h : list obj) (o : obj) (l : nat) ps :
  (h ++ [o]) !! l = Some (Obj ps) -> (forall ps', o <> Obj ps') ->
  h !! l = Some (Obj ps).
Proof.
  intros H Ho. destruct (decide (l < length h)) as [Hlt|Hge].
  - by rewrite lookup_app_l in H.
  - rewrite lookup_app_r in H by lia.
    destruct (l - length h) as [|n]; simpl in H.
    + injection H as ->. by destruct (Ho ps).
    + done.
Qed.

Lemma mjs_track_key_absent invoke k l ps st :
  heap st !! l = Some (Obj ps) -> lookup_prop (KStr k) ps = None ->
  IndexMjs._track_key invoke k (VRef l) st = Ok (VRef l, skipped k st).
Proof.
  intros Hl Hk.
  assert (Hno : forall st1, heap st1 = heap st ->
            util.has (KStr k) (VRef l) st1 = Ok false).
  { intros st1 Hh. rewrite (has_lookup _ _ st1 ps) by (by rewrite Hh).
    by rewrite Hk. }
  unfold IndexMjs._track_key.
  erewrite bind_Ok; [|apply console_assert_false; by apply Hno].
  erewrite bind_Ok; [|unfold util.get; simpl; by rewrite Hl, Hk].
  erewrite bind_Ok; [|reflexivity].
  by rewrite when_false by (by apply Hno).
Qed.

(** C8. A listed key the parent does not have is passed over: the
    diagnostic is printed, the parent comes back as it was (same reference,
    same store, so no override and no ledger entry), and the keys after it
    are processed from there. In index.mjs the unused symbol made for the
    key is the only other trace. *)
Theorem absent_key_is_skipped
    (invoke : val -> val -> val -> M val) (k : string) (ks : list string)
    (target : val) (st : state) :
  util.has (KStr k) target st = Ok false ->
  IndexJs._track_key invoke k target st = Ok (target, log (msg_track k) st)
  /\ IndexJs.TracksPropagation invoke (k :: ks) target st
     = IndexJs.TracksPropagation invoke ks target (log (msg_track k) st)
  /\ (is_Some (own_props st target) ->
      IndexMjs._track_key invoke k target st = Ok (target, skipped k st))
  /\ IndexMjs.TracksPropagation invoke (k :: ks) target st
     = IndexMjs.TracksPropagation invoke ks target (skipped k st).
Proof.
  intros Hno.
  assert (Hjs : IndexJs._track_key invoke k target st
                = Ok (target, log (msg_track k) st)).
  { unfold IndexJs._track_key.
    erewrite bind_Ok; [|by apply console_assert_false].
    apply when_false. by rewrite has_log. }
  split; [exact Hjs|]. split; [|split].
  - unfold IndexJs.TracksPropagation, util.flip. simpl.
    by rewrite (bind_Ok _ _ _ _ _ Hjs).
  - intros [ps Hps]. unfold own_props in Hps.
    destruct target as [| | | |l|]; try done.
    destruct (heap st !! l) as [[ps'|]|] eqn:Hl; try done.
    rewrite (has_lookup _ _ _ _ Hl) in Hno.
    destruct (lookup_prop (KStr k) ps') eqn:Hk; [done|].
    by apply (mjs_track_key_absent _ _ _ ps').
  - unfold IndexMjs.TracksPropagation, util.flip, mbind, M_bind.
    unfold alloc. simpl.
    unfold util.define_property_mut. destruct target as [| | | |l|]; try done.
    simpl.
    destruct ((heap st ++ [Arr []]) !! l) as [[ps|]|] eqn:Hl; try done.
    destruct (util.define_prop _ _ ps) as [ps'|] eqn:Hd; [|done].
    apply define_prop_applied in Hd. subst ps'.
    apply lookup_snoc_Obj in Hl; [|done].
    rewrite (has_lookup _ _ _ _ Hl) in Hno.
    destruct (lookup_prop (KStr k) ps) eqn:Hk; [done|].
    match goal with |- context [Obj ?q] => set (ps' := q) end.
    match goal with
    | |- (_ ≫= _) ?s = _ =>
        assert (Hs : heap s !! l = Some (Obj ps'))
    end.
    { simpl. apply list_lookup_insert_eq. rewrite length_app. simpl.
      apply lookup_lt_Some in Hl. lia. }
    assert (Hk' : lookup_prop (KStr k) ps' = None).
    { unfold ps'. by rewrite applied_lookup_ne. }
    rewrite (bind_Ok _ _ _ _ _ (mjs_track_key_absent invoke k l ps' _ Hs Hk')).
    reflexivity.
Qed.

Lemma absent_key_is_skipped_witness :
  let st := State [Obj [(KStr "b", PData (VNum 1) d_literal)]] 0 [] in
  IndexMjs.TracksPropagation (Fixtures.run 4) ["a"; "b"] (VRef 0) st
  = IndexMjs.TracksPropagation (Fixtures.run 4) ["b"] (VRef 0) (skipped "a" st).
Proof.
  intros st.
  apply (absent_key_is_skipped (Fixtures.run 4) "a" ["b"] (VRef 0) st).
  reflexivity.
Defined.

(** ** Primitive steps on a plain object *)

#[local] Arguments util.has : simpl never.
#[local] Arguments util.get : simpl never.
#[local] Arguments util.define_property_mut : simpl never.
#[local] Arguments util.copy_with : simpl never.
#[local] Arguments util.update : simpl never.
#[local] Arguments util.push : simpl never.
#[local] Arguments alloc : simpl never.
#[local] Arguments Symbol : simpl never.
#[local] Arguments override_internal : simpl never.

Section Steps.
Context (invoke : val -> val -> val -> M val).
Context (st : state) (l : loc) (ps : props).
Hypothesis Hl : heap st !! l = Some (Obj ps).

Lemma get_data k v fl :
  lookup_prop k ps = Some (PData v fl) ->
  util.get invoke k (VRef l) st = Ok (v, st).
Proof using Hl. intros Hk. unfold util.get. by rewrite Hl, Hk. Qed.

Lemma get_accessor k g fl :
  lookup_prop k ps = Some (PAccessor g fl) ->
  util.get invoke k (VRef l) st = invoke g (VRef l) VUndef st.
Proof using Hl. intros Hk. unfold util.get. by rewrite Hl, Hk. Qed.

Lemma define_ok k p ps' :
  util.define_prop k p ps = Some ps' ->
  util.define_property_mut k p (VRef l) st
  = Ok (VRef l, set_heap (<[l := Obj ps']> (heap st)) st).
Proof using Hl.
  intros Hd. unfold util.define_property_mut. by rewrite Hl, Hd.
Qed.

Lemma copy_with_ok k v0 v fl :
  lookup_prop k ps = Some (PData v0 fl) ->
  util.copy_with k v (VRef l) st
  = Ok (VRef (length (heap st)),
        set_heap (heap st ++ [Obj (store_prop k (PData v d_literal) ps)]) st).
Proof using Hl.
  intros Hk. unfold util.copy_with, own_props. by rewrite Hl, Hk.
Qed.

Lemma has_data k p :
  lookup_prop k ps = Some p -> util.has k (VRef l) st = Ok true.
Proof using Hl. intros Hk. by rewrite (has_lookup _ _ _ _ Hl), Hk. Qed.

Lemma has_none k :
  lookup_prop k ps = None -> util.has k (VRef l) st = Ok false.
Proof using Hl. intros Hk. by rewrite (has_lookup _ _ _ _ Hl), Hk. Qed.

Lemma override_internal_ok y r old :
  lookup_prop (KSym y) ps = Some old ->
  util.redefinable old (PData r d_configurable) = true ->
  override_internal y r (VRef l) st
  = Ok (VRef l, set_heap (<[l := Obj (overridden y r ps)]> (heap st)) st).
Proof using Hl.
  intros Hk Hr. unfold override_internal.
  erewrite bind_Ok; [|apply console_assert_true; by eapply has_data].
  rewrite when_true by (by eapply has_data).
  apply define_ok. unfold util.define_prop. by rewrite Hk, Hr.
Qed.
End Steps.

(** ** Defining a property *)

Lemma applied_new k d ps :
  lookup_prop k ps = None -> util.applied k d ps = store_prop k d ps.
Proof. intros H. unfold util.applied. by rewrite H. Qed.

Lemma applied_old k d ps old :
  lookup_prop k ps = Some old ->
  util.applied k d ps = store_prop k (util.redefined old d) ps.
Proof. intros H. unfold util.applied. by rewrite H. Qed.

(** A data descriptor leaves a data property with its value; a property
    that was configurable, or is made so, is configurable. *)
Lemma applied_data k v fd ps :
  exists fl,
    lookup_prop k (util.applied k (PData v fd) ps) = Some (PData v fl)
    /\ (configurable fd = true -> configurable fl = true).
Proof.
  unfold util.applied. destruct (lookup_prop k ps) as [old|]; simpl.
  - eexists. split; [apply lookup_store_eq|]. simpl. intros ->.
    apply orb_true_r.
  - eexists. split; [apply lookup_store_eq|]. done.
Qed.

(** Applying a descriptor the property already satisfies changes nothing
    but the value. *)
Lemma redefined_same_flags v0 v fl fd :
  (configurable fd = true -> configurable fl = true) ->
  (enumerable fd = true -> enumerable fl = true) ->
  (writable fd = true -> writable fl = true) ->
  util.redefined (PData v0 fl) (PData v fd) = PData v fl.
Proof.
  destruct fl as [c e w], fd as [c' e' w']. simpl. intros Hc He Hw.
  f_equal. f_equal.
  - destruct c, c'; auto. by discriminate Hc.
  - destruct e, e'; auto. by discriminate He.
  - destruct w, w'; auto. by discriminate Hw.
Qed.

Lemma define_prop_new k p ps :
  lookup_prop k ps = None -> util.define_prop k p ps = Some (store_prop k p ps).
Proof. intros H. unfold util.define_prop, util.applied. by rewrite H. Qed.

Lemma define_prop_fresh k d ps :
  lookup_prop k ps = None -> util.define_prop k d ps = Some (util.applied k d ps).
Proof. intros H. unfold util.define_prop. by rewrite H. Qed.

Lemma define_prop_configurable k p ps old :
  lookup_prop k ps = Some old -> configurable (prop_flags old) = true ->
  util.define_prop k p ps = Some (util.applied k p ps).
Proof.
  intros H Hc. unfold util.define_prop, util.redefinable. by rewrite H, Hc.
Qed.

Lemma heap_insert_eq (h : list obj) l o o' :
  h !! l = Some o -> <[l := o']> h !! l = Some o'.
Proof. intros H. apply list_lookup_insert_eq. by apply lookup_lt_Some in H. Qed.

(** ** What attaching installs *)

Lemma attach_commute_plain st l ps :
  heap st !! l = Some (Obj ps) ->
  lookup_prop (KSym SymCommute) ps = None ->
  lookup_prop commute_key ps = None ->
  attach_commute (VRef l) st = Ok (VRef l, put l (with_commute ps) st).
Proof.
  intros Hl Hc Hm. unfold attach_commute.
  erewrite bind_Ok; [|eapply define_ok; [done|by apply define_prop_new]].
  erewrite define_ok.
  - unfold put. simpl. by rewrite list_insert_insert_eq.
  - simpl. by eapply heap_insert_eq.
  - apply define_prop_new. by rewrite lookup_store_ne.
Qed.

Lemma Commutes_plain st l ps :
  heap st !! l = Some (Obj ps) ->
  is_Some (lookup_prop state_key ps) ->
  lookup_prop (KSym SymCommute) ps = None ->
  lookup_prop commute_key ps = None ->
  IndexJs.Commutes (VRef l) st = Ok (VRef l, put l (with_commute ps) st)
  /\ IndexMjs.Commutes (VRef l) st = Ok (VRef l, put l (with_commute ps) st).
Proof.
  intros Hl [s Hs] Hc Hm. split.
  - unfold IndexJs.Commutes.
    erewrite bind_Ok; [|apply console_assert_true; by eapply has_data].
    rewrite when_true by (by eapply has_data). by apply attach_commute_plain.
  - unfold IndexMjs.Commutes.
    erewrite bind_Ok; [|apply console_assert_true; by eapply has_data].
    erewrite bind_Ok.
    2: { apply console_assert_true. unfold util.not.
         by erewrite has_none. }
    rewrite when_true; [by apply attach_commute_plain|].
    unfold util.and, util.not. erewrite has_data by done.
    by erewrite has_none.
Qed.

Lemma Propagates_plain invoke st l ps c fl :
  heap st !! l = Some (Obj ps) ->
  lookup_prop (KSym SymCommute) ps = Some (PData c fl) ->
  configurable fl = true ->
  lookup_prop (KSym SymPropagate) ps = None ->
  Propagates invoke (VRef l) st = Ok (VRef l, put l (with_propagate c ps) st).
Proof.
  intros Hl Hc Hfl Hp.
  unfold Propagates.
  erewrite bind_Ok; [|apply console_assert_true; by eapply has_data].
  rewrite when_true by (by eapply has_data).
  erewrite bind_Ok.
  2: { eapply define_ok; [done|]. unfold util.define_prop. by rewrite Hp. }
  unfold _wrap_commute.
  erewrite bind_Ok.
  2: { eapply get_data.
       - simpl. by eapply heap_insert_eq.
       - rewrite applied_lookup_ne by done. exact Hc. }
  unfold _override_commute.
  erewrite override_internal_ok.
  - unfold put, with_propagate, overridden. simpl.
    by rewrite list_insert_insert_eq.
  - simpl. by eapply heap_insert_eq.
  - rewrite applied_lookup_ne by done. exact Hc.
  - unfold util.redefinable. simpl. by rewrite Hfl.
Qed.

(** ** Committing *)

Section Commit.
Context (host : (val -> val -> val -> M val) -> nat -> val -> val -> M val).

(** One run of [_commute]: the updater is applied to the state read from
    the receiver, the copy is taken from the receiver as it is then. *)
Lemma _commute_run fuel st l ps s fl u s' st1 ps1 s1 fl1 :
  heap st !! l = Some (Obj ps) ->
  lookup_prop state_key ps = Some (PData s fl) ->
  call host fuel u VUndef s st = Ok (s', st1) ->
  heap st1 !! l = Some (Obj ps1) ->
  lookup_prop state_key ps1 = Some (PData s1 fl1) ->
  call host (S fuel) (VFun F_commute) (VRef l) u st
  = Ok (VRef (length (heap st1)),
        set_heap (heap st1 ++ [Obj (store_prop state_key (PData s' d_literal) ps1)])
          st1).
Proof.
  intros Hl Hs Hu Hl1 Hs1. simpl. unfold _commute, util.update.
  erewrite bind_Ok; [|by eapply get_data].
  erewrite bind_Ok; [|exact Hu].
  by eapply copy_with_ok.
Qed.

Lemma commit_proxy fuel st l ps u :
  heap st !! l = Some (Obj ps) ->
  lookup_prop commute_key ps = Some (PData (VFun F_proxy_commute) d_nothing) ->
  commit (call host (S fuel)) (VRef l) u st
  = (m ← util.get (call host fuel) (KSym SymCommute) (VRef l);
     call host fuel m (VRef l) u) st.
Proof.
  intros Hl Hm. unfold commit.
  erewrite bind_Ok; [|by eapply get_data]. reflexivity.
Qed.
End Commit.

(** C5. On a node with Commutes attached, [commute(updater)] returns a new
    node (a reference the store did not hold before) whose [state] is an
    ordinary field holding the updater's result on the old state and whose
    every other own property is the receiver's, descriptor included; the
    receiver is as it was, given that the updater itself left it alone. *)
Theorem commute_returns_updated_copy
    (host : (val -> val -> val -> M val) -> nat -> val -> val -> M val)
    (fuel : nat) (st st1 : state) (l : loc) (ps : props)
    (s s' u : val) (fl : flags) :
  heap st !! l = Some (Obj ps) ->
  lookup_prop state_key ps = Some (PData s fl) ->
  lookup_prop (KSym SymCommute) ps = Some Commutes_property ->
  lookup_prop commute_key ps = Some (PData (VFun F_proxy_commute) d_nothing) ->
  call host fuel u VUndef s st = Ok (s', st1) ->
  heap st1 !! l = Some (Obj ps) ->
  exists (l' : loc) (ps' : props) (st' : state),
    commit (call host (S (S fuel))) (VRef l) u st = Ok (VRef l', st')
    /\ heap st1 !! l' = None
    /\ heap st' !! l' = Some (Obj ps')
    /\ lookup_prop state_key ps' = Some (PData s' d_literal)
    /\ (forall k, k <> state_key -> lookup_prop k ps' = lookup_prop k ps)
    /\ heap st' !! l = Some (Obj ps).
Proof.
  intros Hl Hs Hc Hm Hu Hl1.
  exists (length (heap st1)), (store_prop state_key (PData s' d_literal) ps).
  eexists. split; [|split; [|split; [|split; [|split]]]].
  - erewrite commit_proxy by done.
    erewrite bind_Ok; [|by eapply get_data].
    by eapply _commute_run.
  - by apply lookup_ge_None.
  - simpl. by rewrite lookup_app_r, Nat.sub_diag.
  - apply lookup_store_eq.
  - intros k Hk. by apply lookup_store_ne.
  - simpl. by apply lookup_app_l_Some.
Qed.

Lemma commute_returns_updated_copy_witness :
  exists (l' : loc) (ps' : props) (st' : state),
    commit (call (Fixtures.host VUndef) 3) (VRef 0)
      (VFun (F_host Fixtures.h_increment)) Fixtures.st_counter
    = Ok (VRef l', st')
    /\ heap Fixtures.st_counter !! l' = None
    /\ heap st' !! l' = Some (Obj ps')
    /\ lookup_prop state_key ps' = Some (PData (VNum 6) d_literal)
    /\ (forall k, k <> state_key ->
          lookup_prop k ps' = lookup_prop k (with_commute Fixtures.counter))
    /\ heap st' !! 0 = Some (Obj (with_commute Fixtures.counter)).
Proof.
  apply (commute_returns_updated_copy (Fixtures.host VUndef) 1
           Fixtures.st_counter Fixtures.st_counter 0
           (with_commute Fixtures.counter) (VNum 5) (VNum 6)
           (VFun (F_host Fixtures.h_increment)) d_literal);
    reflexivity.
Defined.

(** C4. Once Commutes and then Propagates are attached to a node no parent
    tracks, the propagate slot holds the identity, which returns its
    argument in any store, and [commute(updater)] returns what the private
    [_commute] of Commutes alone returns on that node: the same value and
    the same store. *)
Theorem untracked_commit_is_plain_commit
    (host : (val -> val -> val -> M val) -> nat -> val -> val -> M val)
    (invoke : val -> val -> val -> M val)
    (st : state) (l : loc) (ps : props) :
  heap st !! l = Some (Obj ps) ->
  is_Some (lookup_prop state_key ps) ->
  lookup_prop (KSym SymCommute) ps = None ->
  lookup_prop commute_key ps = None ->
  lookup_prop (KSym SymPropagate) ps = None ->
  let st2 := put l (with_propagate (VFun F_commute) (with_commute ps)) st in
  (IndexJs.Commutes (VRef l) ≫= Propagates invoke) st = Ok (VRef l, st2)
  /\ (IndexMjs.Commutes (VRef l) ≫= Propagates invoke) st = Ok (VRef l, st2)
  /\ field st2 (VRef l) (KSym SymPropagate) = Some (VFun F_id)
  /\ (forall fuel this x stx,
        call host (S fuel) (VFun F_id) this x stx = Ok (x, stx))
  /\ (forall fuel u r,
        call host (S fuel) (VFun F_commute) (VRef l) u st2 = Ok r ->
        commit (call host (S (S (S fuel)))) (VRef l) u st2 = Ok r).
Proof.
  intros Hl Hs Hc Hm Hp st2.
  destruct (Commutes_plain st l ps Hl Hs Hc Hm) as [Hjs Hmjs].
  assert (Hl1 : heap (put l (with_commute ps) st) !! l
                = Some (Obj (with_commute ps))).
  { simpl. by eapply heap_insert_eq. }
  assert (HP : Propagates invoke (VRef l) (put l (with_commute ps) st)
               = Ok (VRef l, st2)).
  { erewrite (Propagates_plain invoke _ l (with_commute ps) (VFun F_commute)
                d_configurable); try done.
    - unfold st2, put. simpl. by rewrite list_insert_insert_eq.
    - unfold with_commute. rewrite lookup_store_ne by done.
      apply lookup_store_eq.
    - unfold with_commute. by rewrite !lookup_store_ne. }
  assert (Hpc : lookup_prop (KSym SymCommute) (with_commute ps)
                = Some Commutes_property).
  { unfold with_commute. rewrite lookup_store_ne by done.
    apply lookup_store_eq. }
  assert (Hpp : lookup_prop (KSym SymPropagate) (with_commute ps) = None).
  { unfold with_commute. by rewrite !lookup_store_ne. }
  assert (Hid : lookup_prop (KSym SymPropagate)
                  (with_propagate (VFun F_commute) (with_commute ps))
                = Some (PData (VFun F_id) d_configurable)).
  { unfold with_propagate. rewrite applied_lookup_ne by done.
    rewrite applied_new by done. apply lookup_store_eq. }
  assert (Hwr : lookup_prop (KSym SymCommute)
                  (with_propagate (VFun F_commute) (with_commute ps))
                = Some (PData (VFun (F_propagating_commute (VFun F_commute)))
                          d_configurable)).
  { unfold with_propagate.
    erewrite (applied_old _ _ _ Commutes_property).
    - by rewrite lookup_store_eq.
    - rewrite applied_lookup_ne by done. exact Hpc. }
  assert (Hl2 : heap st2 !! l
                = Some (Obj (with_propagate (VFun F_commute) (with_commute ps)))).
  { simpl. by eapply heap_insert_eq. }
  split; [|split; [|split; [|split]]].
  - by rewrite (bind_Ok _ _ _ _ _ Hjs).
  - by rewrite (bind_Ok _ _ _ _ _ Hmjs).
  - unfold field, own_props. rewrite Hl2. simpl. by rewrite Hid.
  - reflexivity.
  - intros fuel u [v st'] Hr.
    erewrite commit_proxy; [|exact Hl2|].
    2: { unfold with_propagate, with_commute.
         rewrite !applied_lookup_ne by done. rewrite lookup_store_eq.
         reflexivity. }
    erewrite bind_Ok.
    2: { eapply get_data; [exact Hl2|exact Hwr]. }
    change (propagating_commute (call host (S fuel)) (VFun F_commute)
              (VRef l) u st2 = Ok (v, st')).
    unfold propagating_commute.
    erewrite bind_Ok.
    2: { eapply get_data; [exact Hl2|exact Hid]. }
    erewrite bind_Ok; [|exact Hr]. reflexivity.
Qed.

Lemma untracked_commit_is_plain_commit_witness :
  exists st2 r,
    (IndexMjs.Commutes (VRef 0) ≫= Propagates (Fixtures.run 1)) Fixtures.st_plain
    = Ok (VRef 0, st2)
    /\ call (Fixtures.host VUndef) 2 (VFun F_commute) (VRef 0)
         (VFun (F_host Fixtures.h_increment)) st2 = Ok r
    /\ commit (call (Fixtures.host VUndef) 4) (VRef 0)
         (VFun (F_host Fixtures.h_increment)) st2 = Ok r.
Proof.
  destruct (untracked_commit_is_plain_commit (Fixtures.host VUndef)
              (Fixtures.run 1) Fixtures.st_plain 0 Fixtures.counter)
    as (_ & Hattach & _ & _ & Hcommit); try reflexivity.
  { by exists (PData (VNum 5) d_literal). }
  eexists _, _. split; [exact Hattach|]. split.
  - reflexivity.
  - apply Hcommit. reflexivity.
Defined.

(** C3. After [Propagates.override(f)] on a node whose commit Propagates
    has wrapped, the public [commute] is the commit behaviour the wrapper
    captured followed by [f] on its result, with the node as receiver: the
    wrapper reads the propagate slot as it is when [commute] is called,
    whatever the slot held when Propagates was attached. *)
Theorem override_propagate_is_honoured
    (host : (val -> val -> val -> M val) -> nat -> val -> val -> M val)
    (st : state) (l : loc) (ps : props) (c f : val) (fc : flags) (old : prop) :
  heap st !! l = Some (Obj ps) ->
  lookup_prop commute_key ps = Some (PData (VFun F_proxy_commute) d_nothing) ->
  lookup_prop (KSym SymCommute) ps
    = Some (PData (VFun (F_propagating_commute c)) fc) ->
  lookup_prop (KSym SymPropagate) ps = Some old ->
  util.redefinable old (PData f d_configurable) = true ->
  let st1 := put l (overridden SymPropagate f ps) st in
  _override_propagate f (VRef l) st = Ok (VRef l, st1)
  /\ forall fuel u,
       commit (call host (S (S fuel))) (VRef l) u st1
       = (result ← call host fuel c (VRef l) u;
          call host fuel f (VRef l) result) st1.
Proof.
  intros Hl Hm Hc Hp Hr st1. split.
  - unfold _override_propagate. by eapply override_internal_ok.
  - intros fuel u.
    assert (Hl1 : heap st1 !! l = Some (Obj (overridden SymPropagate f ps))).
    { simpl. by eapply heap_insert_eq. }
    destruct (applied_data (KSym SymPropagate) f d_configurable ps)
      as (ff & Hf & _).
    erewrite commit_proxy; [|exact Hl1|].
    2: { unfold overridden. by rewrite applied_lookup_ne. }
    erewrite bind_Ok.
    2: { eapply get_data; [exact Hl1|]. unfold overridden.
         rewrite applied_lookup_ne by done. exact Hc. }
    change (propagating_commute (call host fuel) c (VRef l) u st1
            = (result ← call host fuel c (VRef l) u;
               call host fuel f (VRef l) result) st1).
    unfold propagating_commute.
    erewrite bind_Ok; [reflexivity|].
    eapply get_data; [exact Hl1|exact Hf].
Qed.

(** The Propagates suite: [Smokes(propagating).commute(push(0))] is
    [[ smoke, [0] ]]. *)
Lemma override_propagate_is_honoured_witness :
  let host := Fixtures.host (VRef 0) in
  let emit_smoke := VFun (F_host Fixtures.h_emit_smoke) in
  let push_0 := VFun (F_host Fixtures.h_push_0) in
  let st1 := put 2 (overridden SymPropagate emit_smoke Fixtures.propagating)
               Fixtures.st_smoke in
  (_override_propagate emit_smoke (VRef 2) Fixtures.st_smoke = Ok (VRef 2, st1)
   /\ forall fuel u,
        commit (call host (S (S fuel))) (VRef 2) u st1
        = (result ← call host fuel (VFun F_commute) (VRef 2) u;
           call host fuel emit_smoke (VRef 2) result) st1)
  /\ exists pair state' st',
       commit (call host 4) (VRef 2) push_0 st1 = Ok (pair, st')
       /\ elements st' pair = Some [VRef 0; state']
       /\ elements st' state' = Some [VNum 0].
Proof.
  intros host emit_smoke push_0 st1. split.
  - apply (override_propagate_is_honoured host Fixtures.st_smoke 2
             Fixtures.propagating (VFun F_commute) emit_smoke d_configurable
             (PData (VFun F_id) d_configurable)); reflexivity.
  - eexists _, _, _. split; [vm_compute; reflexivity|].
    split; vm_compute; reflexivity.
Defined.

(** ** One step of tracking in index.mjs *)

Lemma push_run v la refs st :
  heap st !! la = Some (Arr refs) ->
  util.push v (VRef la) st
  = Ok (VRef (length (heap st)), set_heap (heap st ++ [Arr (refs ++ [v])]) st).
Proof. intros H. unfold util.push. by rewrite H. Qed.

Lemma insert_snoc (h : list obj) (o x : obj) :
  <[length h := x]> (h ++ [o]) = h ++ [x].
Proof.
  replace (length h) with (length h + 0) by lia.
  by rewrite insert_app_r.
Qed.

(** [_track_key] on a key the parent has, from the read of the key on:
    [sr] is the store the read leaves, [c] the value read. *)
Lemma mjs_track_key_read invoke st sr p ps k c old la fl refs :
  heap st !! p = Some (Obj ps) ->
  lookup_prop (KStr k) ps = Some old ->
  configurable (prop_flags old) = true ->
  util.get invoke (KStr k) (VRef p) st = Ok (c, sr) ->
  heap sr !! p = Some (Obj ps) ->
  lookup_prop (KSym SymTracking) ps = Some (PData (VRef la) fl) ->
  heap sr !! la = Some (Arr refs) ->
  lookup_prop (KSym (SymTrackedChild (next_symbol sr) k)) ps = None ->
  let y := SymTrackedChild (next_symbol sr) k in
  let n := length (heap sr) in
  IndexMjs._track_key invoke k (VRef p) st
  = Ok (VRef (S (S n)),
        State (heap sr ++ [IndexMjs.entry k y; Arr (refs ++ [VRef n]);
                           Obj (tracked_props k y c (VRef (S n)) ps)])
          (S (next_symbol sr)) (console sr)).
Proof.
  intros Hp Hk Hfk Hget Hpr Ht Hla Hy y n.
  unfold IndexMjs._track_key.
  erewrite bind_Ok; [|apply console_assert_true; by eapply has_data].
  erewrite bind_Ok; [|exact Hget].
  erewrite bind_Ok; [|reflexivity].
  rewrite when_true; [|by eapply has_data].
  unfold IndexMjs._add_to_tracking.
  erewrite bind_Ok.
  2: { erewrite bind_Ok; [|reflexivity].
       unfold util.update.
       erewrite bind_Ok.
       2: { eapply get_data; [|exact Ht]. simpl. by apply lookup_app_l_Some. }
       erewrite bind_Ok.
       2: { eapply push_run. simpl. by apply lookup_app_l_Some. }
       eapply copy_with_ok; [|exact Ht]. simpl.
       apply lookup_app_l_Some. by apply lookup_app_l_Some. }
  simpl. rewrite !length_app. simpl.
  replace (length (heap sr) + 1 + 1) with (S (S n)) by (unfold n; lia).
  replace (length (heap sr) + 1) with (S n) by (unfold n; lia).
  fold y.
  set (h2 := (heap sr ++ [IndexMjs.entry k y]) ++ [Arr (refs ++ [VRef n])]).
  assert (Hlen : length h2 = S (S n)).
  { unfold h2. rewrite !length_app. simpl. unfold n. lia. }
  set (ps1 := store_prop (KSym SymTracking) (PData (VRef (S n)) d_literal) ps).
  erewrite bind_Ok.
  2: { eapply define_ok with (ps := ps1).
       - simpl. rewrite <- Hlen. by rewrite lookup_app_r, Nat.sub_diag.
       - eapply (define_prop_configurable _ _ _ old); [|exact Hfk].
         unfold ps1. rewrite lookup_store_ne by done. exact Hk. }
  erewrite bind_Ok.
  2: { eapply define_ok.
       - simpl. rewrite <- Hlen. rewrite insert_snoc.
         by rewrite lookup_app_r, Nat.sub_diag.
       - apply define_prop_fresh. rewrite applied_lookup_ne by done.
         unfold ps1. rewrite lookup_store_ne by done. exact Hy. }
  unfold mret, M_ret. simpl. rewrite <- Hlen. rewrite !insert_snoc.
  unfold h2. rewrite <- !app_assoc. simpl. reflexivity.
Qed.

(** The same on an ordinary field, which is read without effect. *)
Lemma mjs_track_key_run invoke st p ps k c fk la fl refs :
  heap st !! p = Some (Obj ps) ->
  lookup_prop (KStr k) ps = Some (PData c fk) ->
  configurable fk = true ->
  lookup_prop (KSym SymTracking) ps = Some (PData (VRef la) fl) ->
  heap st !! la = Some (Arr refs) ->
  lookup_prop (KSym (SymTrackedChild (next_symbol st) k)) ps = None ->
  let y := SymTrackedChild (next_symbol st) k in
  let n := length (heap st) in
  IndexMjs._track_key invoke k (VRef p) st
  = Ok (VRef (S (S n)),
        State (heap st ++ [IndexMjs.entry k y; Arr (refs ++ [VRef n]);
                           Obj (tracked_props k y c (VRef (S n)) ps)])
          (S (next_symbol st)) (console st)).
Proof.
  intros Hp Hk Hfk Ht Hla Hy.
  eapply mjs_track_key_read; try done. by eapply get_data.
Qed.

Lemma entry_at_mono st st' r e :
  (forall l o, heap st !! l = Some o -> heap st' !! l = Some o) ->
  entry_at st r e -> entry_at st' r e.
Proof. intros Hext (le & -> & Hle). exists le. split; [done|by apply Hext]. Qed.

Lemma tracks_data_ne ps k c fk e :
  lookup_prop (KStr k) ps = Some (PData c fk) -> tracks ps e -> e.1.1 <> k.
Proof.
  destruct e as [[k0 y0] c0]. intros Hk (_ & (fa & Hk0) & _) Heq. simpl in *.
  subst k0. congruence.
Qed.

(** The own properties [_track_key] leaves in the copy of the parent. *)
Lemma tracked_props_ledger k y c ledger ps :
  (exists n, y = SymTrackedChild n k) ->
  lookup_prop (KSym SymTracking) (tracked_props k y c ledger ps)
  = Some (PData ledger d_literal).
Proof.
  intros (n & ->). unfold tracked_props.
  rewrite !applied_lookup_ne by done. apply lookup_store_eq.
Qed.

Lemma tracked_props_other_key k y c ledger ps k' :
  k' <> k ->
  lookup_prop (KStr k') (tracked_props k y c ledger ps) = lookup_prop (KStr k') ps.
Proof.
  intros Hne. unfold tracked_props.
  rewrite !applied_lookup_ne by congruence. by rewrite lookup_store_ne.
Qed.

Lemma tracked_props_other_symbol k y c ledger ps y' :
  y' <> y -> y' <> SymTracking ->
  lookup_prop (KSym y') (tracked_props k y c ledger ps) = lookup_prop (KSym y') ps.
Proof.
  intros Hne Ht. unfold tracked_props.
  rewrite !applied_lookup_ne by congruence. rewrite lookup_store_ne by congruence.
  done.
Qed.

Lemma tracked_props_hidden k y c ledger ps :
  y <> SymTracking -> lookup_prop (KSym y) ps = None ->
  lookup_prop (KSym y) (tracked_props k y c ledger ps)
  = Some (PData c d_non_writable).
Proof.
  intros Ht Hy. unfold tracked_props. rewrite applied_new.
  - apply lookup_store_eq.
  - rewrite applied_lookup_ne by done. rewrite lookup_store_ne by congruence.
    done.
Qed.

Lemma tracked_props_getter k y c ledger ps old :
  lookup_prop (KStr k) ps = Some old ->
  lookup_prop (KStr k) (tracked_props k y c ledger ps)
  = Some (PAccessor (create_propagate_proxy y)
            (Flags (configurable (prop_flags old)) true false)).
Proof.
  intros Hk. unfold tracked_props. rewrite applied_lookup_ne by done.
  erewrite (applied_old _ _ _ old).
  - rewrite lookup_store_eq. simpl. by rewrite orb_false_r, orb_true_r.
  - by rewrite lookup_store_ne.
Qed.

Lemma mjs_track_key_step invoke st p ps es k c :
  tracking st p ps es -> plain_field ps k c ->
  let y := SymTrackedChild (next_symbol st) k in
  let p' := S (S (length (heap st))) in
  exists ps' st',
    IndexMjs._track_key invoke k (VRef p) st = Ok (VRef p', st')
    /\ tracking st' p' ps' (es ++ [(k, y, c)])
    /\ (forall k', k' <> k ->
          lookup_prop (KStr k') ps' = lookup_prop (KStr k') ps)
    /\ (forall l o, heap st !! l = Some o -> heap st' !! l = Some o)
    /\ console st' = console st
    /\ length (heap st') = 3 + length (heap st)
    /\ lookup_prop (KStr k) ps'
       = Some (PAccessor (create_propagate_proxy y) (Flags true true false)).
Proof.
  intros (Hp & (la & fl & refs & Ht & Hla & Hrefs) & Hes & Hfresh) (fk & Hk & Hfk)
    y p'.
  pose proof (mjs_track_key_run invoke st p ps k c fk la fl refs
                Hp Hk Hfk Ht Hla (Hfresh _ k (le_n _))) as Hrun.
  simpl in Hrun. fold y in Hrun.
  set (n := length (heap st)) in *.
  set (ps' := tracked_props k y c (VRef (S n)) ps) in *.
  set (st' := State _ _ _) in Hrun.
  assert (Hext : forall l o, heap st !! l = Some o -> heap st' !! l = Some o).
  { intros l o Hl. simpl. by apply lookup_app_l_Some. }
  exists ps', st'. split; [exact Hrun|].
  split; [|split; [|split; [|split; [|split]]]]; try done.
  2: { intros k' Hk'. by apply tracked_props_other_key. }
  2: { simpl. rewrite length_app. simpl. lia. }
  2: { unfold ps'. erewrite tracked_props_getter by exact Hk. simpl.
       by rewrite Hfk. }
  - split; [|split; [|split]].
    + simpl. rewrite lookup_app_r by (unfold p'; lia).
      by replace (p' - length (heap st)) with 2 by (unfold p'; lia).
    + exists (S n), d_literal, (refs ++ [VRef n]). split; [|split].
      * apply tracked_props_ledger. by eexists.
      * simpl. rewrite lookup_app_r by (unfold n; lia).
        by replace (S n - length (heap st)) with 1 by (unfold n; lia).
      * apply Forall2_app.
        -- eapply Forall2_impl; [exact Hrefs|].
           intros r e. by apply entry_at_mono.
        -- constructor; [|constructor]. exists n. split; [done|]. simpl.
           rewrite lookup_app_r by (unfold n; lia). unfold n.
           by rewrite Nat.sub_diag.
    + apply Forall_app. split.
      * eapply Forall_impl; [exact Hes|].
        intros [[k0 y0] c0] H0.
        pose proof (tracks_data_ne _ _ _ _ _ Hk H0) as Hne. simpl in Hne.
        destruct H0 as ((n0 & ->) & (fa & Hk0) & (fy & Hy0)).
        split; [by exists n0|]. split.
        -- exists fa. unfold ps'.
           rewrite tracked_props_other_key by congruence. exact Hk0.
        -- assert (SymTrackedChild n0 k0 <> y).
           { intros Heq. rewrite Heq in Hy0. unfold y in Hy0.
             rewrite (Hfresh _ k (le_n _)) in Hy0. done. }
           exists fy. unfold ps'.
           rewrite tracked_props_other_symbol by done. exact Hy0.
      * constructor; [|constructor]. split; [by eexists|]. split.
        -- eexists. unfold ps'. by eapply tracked_props_getter.
        -- eexists. unfold ps'. apply tracked_props_hidden; [done|].
           apply Hfresh. lia.
    + intros n0 d Hn0. simpl in Hn0. unfold ps'.
      assert (SymTrackedChild n0 d <> y).
      { unfold y. intros [= Heq _]. lia. }
      rewrite tracked_props_other_symbol by done. apply Hfresh. lia.
Qed.

(** The fold of [TracksPropagation] over keys that are ordinary fields. *)
Lemma mjs_fold_track invoke keys :
  forall st p ps es,
    tracking st p ps es -> NoDup keys ->
    Forall (fun k => exists c, plain_field ps k c) keys ->
    exists p' ps' st' es',
      util.fold (IndexMjs._track_key invoke) (VRef p) keys st = Ok (VRef p', st')
      /\ tracking st' p' ps' (es ++ es')
      /\ map (fun e => e.1.1) es' = keys
      /\ Forall (fun e => plain_field ps e.1.1 e.2) es'
      /\ (forall k', k' ∉ keys ->
            lookup_prop (KStr k') ps' = lookup_prop (KStr k') ps)
      /\ (forall l o, heap st !! l = Some o -> heap st' !! l = Some o)
      /\ console st' = console st
      /\ length (heap st) <= length (heap st')
      /\ (keys = [] /\ p' = p \/ keys <> [] /\ length (heap st) < p')
      /\ Forall (fun e => lookup_prop (KStr e.1.1) ps'
                          = Some (PAccessor (create_propagate_proxy e.1.2)
                                    (Flags true true false))) es'.
Proof.
  induction keys as [|k keys IH]; intros st p ps es Htr Hnd Hall.
  - exists p, ps, st, []. rewrite app_nil_r.
    split; [done|]. split; [exact Htr|]. repeat split; try done. by left.
  - apply NoDup_cons in Hnd as [Hk Hnd].
    apply Forall_cons in Hall as [[c Hc] Hall].
    destruct (mjs_track_key_step invoke st p ps es k c Htr Hc)
      as (ps1 & st1 & Hrun & Htr1 & Hframe & Hext & Hcon & Hlen & Hget).
    destruct (IH st1 _ ps1 _ Htr1 Hnd) as
      (p' & ps' & st' & es' & Hfold & Htr' & Hkeys & Hch & Hframe' & Hext' & Hcon'
       & Hlen' & Hp' & Hgets).
    { apply Forall_forall. intros k' Hk'.
      rewrite Forall_forall in Hall. destruct (Hall k' Hk') as (c' & fl & Hl & Hfl).
      exists c', fl. split; [|done]. rewrite Hframe; [done|]. by intros ->. }
    exists p', ps', st', ((k, SymTrackedChild (next_symbol st) k, c) :: es').
    split; [|split; [|split; [|split; [|split; [|split; [|split; [|split;
      [|split]]]]]]]].
    + simpl. by rewrite (bind_Ok _ _ _ _ _ Hrun).
    + by rewrite <- app_assoc in Htr'.
    + simpl. by rewrite Hkeys.
    + constructor; [done|].
      rewrite Forall_forall in Hch. apply Forall_forall. intros e He.
      destruct (Hch e He) as (fl & Hl & Hfl). exists fl. split; [|done].
      rewrite <- Hframe; [done|].
      intros Heq. apply Hk. rewrite <- Heq, <- Hkeys.
      apply list_elem_of_fmap. by exists e.
    + intros k' Hk'. apply not_elem_of_cons in Hk' as [Hne Hk'].
      rewrite Hframe' by done. by apply Hframe.
    + intros l o Hl. by apply Hext', Hext.
    + by rewrite Hcon'.
    + lia.
    + right. split; [done|]. destruct Hp' as [[_ ->]|[_ Hlt]]; lia.
    + constructor; [|exact Hgets]. simpl. by rewrite Hframe'.
Qed.

Lemma field_data st l ps k v fl :
  heap st !! l = Some (Obj ps) -> lookup_prop k ps = Some (PData v fl) ->
  field st (VRef l) k = Some v.
Proof. intros Hl Hk. unfold field, own_props. rewrite Hl. simpl. by rewrite Hk. Qed.

Lemma tracking_ledger st p ps es :
  tracking st p ps es ->
  ledger_keys st (VRef p) = Some (map (fun e => VStr e.1.1) es)
  /\ ledger_symbols st (VRef p) = Some (map (fun e => VSym e.1.2) es).
Proof.
  intros (Hp & (la & fl & refs & Ht & Hla & Hrefs) & _ & _).
  unfold ledger_keys, ledger_symbols.
  rewrite (field_data _ _ _ _ _ _ Hp Ht). simpl. rewrite Hla. simpl.
  split; apply mapM_Some; apply Forall2_fmap_r;
    (eapply Forall2_impl; [exact Hrefs|]);
    intros r [[k y] c] (le & -> & Hle); simpl in Hle;
    by eapply field_data.
Qed.

(** The first step of [TracksPropagation] in index.mjs: a new, empty
    ledger is put into the parent given, in place, and the fold starts from
    there. *)
Lemma mjs_ledger_reset st p ps :
  heap st !! p = Some (Obj ps) ->
  (forall old, lookup_prop (KSym SymTracking) ps = Some old ->
     configurable (prop_flags old) = true) ->
  (forall n d, next_symbol st <= n ->
     lookup_prop (KSym (SymTrackedChild n d)) ps = None) ->
  let n := length (heap st) in
  let ps1 := util.applied (KSym SymTracking) (PData (VRef n) d_configurable) ps in
  let st1 := put p ps1 (set_heap (heap st ++ [Arr []]) st) in
  (forall invoke keys,
     IndexMjs.TracksPropagation invoke keys (VRef p) st
     = util.fold (IndexMjs._track_key invoke) (VRef p) keys st1)
  /\ tracking st1 p ps1 []
  /\ heap st1 !! n = Some (Arr [])
  /\ (forall k, k <> KSym SymTracking -> lookup_prop k ps1 = lookup_prop k ps).
Proof.
  intros Hp Hold Hfresh n ps1 st1.
  assert (Hdef : util.define_prop (KSym SymTracking)
                   (PData (VRef n) d_configurable) ps = Some ps1).
  { destruct (lookup_prop (KSym SymTracking) ps) as [old|] eqn:Ho.
    - eapply define_prop_configurable; [exact Ho|by apply Hold].
    - by apply define_prop_fresh. }
  assert (Hlt : p < n) by (by apply lookup_lt_Some in Hp).
  assert (Hn : heap st1 !! n = Some (Arr [])).
  { simpl. rewrite list_lookup_insert_ne by lia.
    rewrite lookup_app_r by (unfold n; lia). unfold n. by rewrite Nat.sub_diag. }
  destruct (applied_data (KSym SymTracking) (VRef n) d_configurable ps)
    as (fl & Hled & _).
  split; [|split; [|split]].
  - intros invoke keys. unfold IndexMjs.TracksPropagation.
    erewrite bind_Ok; [|reflexivity].
    erewrite bind_Ok; [reflexivity|].
    eapply define_ok; [|exact Hdef]. simpl. by apply lookup_app_l_Some.
  - split; [|split; [|split]].
    + simpl. eapply heap_insert_eq. by apply lookup_app_l_Some.
    + exists n, fl, []. split; [exact Hled|]. split; [exact Hn|constructor].
    + constructor.
    + intros n0 d Hn0. unfold ps1. rewrite applied_lookup_ne by done.
      by apply Hfresh.
  - exact Hn.
  - intros k Hk. unfold ps1. by rewrite applied_lookup_ne.
Qed.

(** [TracksPropagation] of index.mjs over distinct keys that are ordinary
    fields of a parent not tracked before. *)
Lemma mjs_TracksPropagation_tracking invoke keys st p ps :
  heap st !! p = Some (Obj ps) ->
  (forall old, lookup_prop (KSym SymTracking) ps = Some old ->
     configurable (prop_flags old) = true) ->
  (forall n d, next_symbol st <= n ->
     lookup_prop (KSym (SymTrackedChild n d)) ps = None) ->
  NoDup keys ->
  Forall (fun k => exists c, plain_field ps k c) keys ->
  exists p' ps' st' es,
    IndexMjs.TracksPropagation invoke keys (VRef p) st = Ok (VRef p', st')
    /\ tracking st' p' ps' es
    /\ map (fun e => e.1.1) es = keys
    /\ Forall (fun e => plain_field ps e.1.1 e.2) es
    /\ (forall k', k' ∉ keys ->
          lookup_prop (KStr k') ps' = lookup_prop (KStr k') ps)
    /\ console st' = console st
    /\ (keys = [] /\ p' = p \/ keys <> [] /\ length (heap st) < p').
Proof.
  intros Hp Hold Hfresh Hnd Hall.
  destruct (mjs_ledger_reset st p ps Hp Hold Hfresh) as (Hrun & Htr & _ & Hsame).
  cbv zeta in Hrun, Htr, Hsame.
  set (n := length (heap st)) in *.
  set (ps1 := util.applied (KSym SymTracking) (PData (VRef n) d_configurable) ps)
    in *.
  set (st1 := put p ps1 (set_heap (heap st ++ [Arr []]) st)) in *.
  destruct (mjs_fold_track invoke keys st1 p ps1 [] Htr Hnd) as
    (p' & ps' & st' & es & Hfold & Htr' & Hkeys & Hch & Hframe & Hext & Hcon
     & Hlen & Hp' & _).
  { eapply Forall_impl; [exact Hall|]. intros k (c & fl & Hk & Hfl).
    exists c, fl. split; [|done]. by rewrite Hsame. }
  exists p', ps', st', es.
  split; [|split; [|split; [|split; [|split; [|split]]]]]; try done.
  - by rewrite Hrun.
  - eapply Forall_impl; [exact Hch|]. intros e (fl & Hk & Hfl).
    exists fl. split; [|done]. by rewrite Hsame in Hk.
  - intros k' Hk'. rewrite Hframe by done. by rewrite Hsame.
  - destruct Hp' as [?|[? Hlt']]; [by left|right]. split; [done|].
    simpl in Hlt'. rewrite length_insert, length_app in Hlt'. lia.
Qed.

(** ** Reading a tracked key in index.mjs *)

Lemma override_internal_missing y r target st :
  util.has (KSym y) target st = Ok false ->
  override_internal y r target st
  = Ok (target,
        log ("override_internal: " +:+ symbol_to_string y +:+ " does not exist!") st).
Proof.
  intros H. unfold override_internal.
  erewrite bind_Ok; [|by apply console_assert_false].
  apply when_false. by rewrite has_log.
Qed.

(** The getter of a tracked key, run with the parent as receiver. *)
Lemma proxy_getter_run host fuel st p ps k y c fa fy :
  heap st !! p = Some (Obj ps) ->
  lookup_prop (KStr k) ps = Some (PAccessor (create_propagate_proxy y) fa) ->
  lookup_prop (KSym y) ps = Some (PData c fy) ->
  util.get (call host (S fuel)) (KStr k) (VRef p) st
  = _override_propagate (create_propagate_up y (VRef p)) c st.
Proof.
  intros Hp Hk Hy. erewrite get_accessor; [|done..].
  simpl. unfold override_propagate_using_parent_context.
  erewrite bind_Ok; [reflexivity|]. by eapply get_data.
Qed.



(** ** Tracking a key more than once in index.mjs *)

Lemma ledger_reads st p ps la fl refs es :
  heap st !! p = Some (Obj ps) ->
  lookup_prop (KSym SymTracking) ps = Some (PData (VRef la) fl) ->
  heap st !! la = Some (Arr refs) ->
  Forall2 (entry_at st) refs es ->
  ledger_keys st (VRef p) = Some (map (fun e => VStr e.1.1) es)
  /\ ledger_symbols st (VRef p) = Some (map (fun e => VSym e.1.2) es).
Proof.
  intros Hp Ht Hla Hrefs. unfold ledger_keys, ledger_symbols.
  rewrite (field_data _ _ _ _ _ _ Hp Ht). simpl. rewrite Hla. simpl.
  split; apply mapM_Some; apply Forall2_fmap_r;
    (eapply Forall2_impl; [exact Hrefs|]);
    intros r [[k y] c] (le & -> & Hle); simpl in Hle;
    by eapply field_data.
Qed.

Lemma tracking_ledgered st p ps es : tracking st p ps es -> ledgered st p ps es.
Proof.
  intros (Hp & Hled & Hes & Hfresh). split; [done|]. split; [done|].
  split; [|done]. eapply Forall_impl; [exact Hes|].
  intros [[k y] c] (Hy & _ & Hc). by split.
Qed.

Lemma evolves_refl st : evolves st st.
Proof. by split. Qed.

Lemma evolves_trans st1 st2 st3 :
  evolves st1 st2 -> evolves st2 st3 -> evolves st1 st3.
Proof.
  intros [Hl1 H1] [Hl2 H2]. split; [lia|].
  intros l Hl Hfree. apply H2; [lia|]. by apply H1.
Qed.

(** Only the heap matters, and only the part that was there. *)
Lemma evolves_prefix st st' ext :
  heap st' = heap st ++ ext -> evolves st st'.
Proof.
  intros Hh. split; [rewrite Hh, length_app; lia|].
  intros l Hl Hfree psc old Hpsc Hold. rewrite Hh in Hpsc.
  rewrite lookup_app_l in Hpsc by done. by eapply Hfree.
Qed.

Lemma evolves_put st l ps ps' :
  heap st !! l = Some (Obj ps) ->
  (forall old', lookup_prop (KSym SymPropagate) ps' = Some old' ->
     configurable (prop_flags old') = true
     \/ lookup_prop (KSym SymPropagate) ps = Some old') ->
  evolves st (put l ps' st).
Proof.
  intros Hl Hslot. split; [simpl; by rewrite length_insert|].
  intros l' Hl' Hfree psc old Hpsc Hold. simpl in Hpsc.
  destruct (decide (l' = l)) as [->|Hne].
  - rewrite list_lookup_insert_eq in Hpsc by done. injection Hpsc as <-.
    destruct (Hslot old Hold) as [?|Hsame]; [done|]. by eapply Hfree.
  - rewrite list_lookup_insert_ne in Hpsc by done. by eapply Hfree.
Qed.

Lemma overridable_evolves st st' c :
  evolves st st' -> overridable st c -> overridable st' c.
Proof.
  intros [Hlen Hev] [Hu Hc]. split; [done|].
  intros lc ->. destruct (Hc lc eq_refl) as [Hlt Hfree].
  split; [lia|]. by apply Hev.
Qed.

(** What a read through the getter of an already tracked key does: the
    value comes back, and the store changes at most in the propagate slot
    of the object the value refers to. *)
Lemma override_propagate_effect r c st :
  overridable st c ->
  exists sr,
    _override_propagate r c st = Ok (c, sr)
    /\ next_symbol sr = next_symbol st
    /\ length (heap sr) = length (heap st)
    /\ evolves st sr
    /\ (forall l o, heap st !! l = Some o -> c <> VRef l ->
          heap sr !! l = Some o)
    /\ (forall l o, heap st !! l = Some o ->
          (forall psc, o = Obj psc ->
             lookup_prop (KSym SymPropagate) psc = None) ->
          heap sr !! l = Some o).
Proof.
  intros [Hu Hc]. unfold _override_propagate.
  destruct (util.has (KSym SymPropagate) c st) as [[|]| | |] eqn:Hhas.
  - unfold util.has, own_props in Hhas.
    destruct c as [| | | |lc|]; try done.
    destruct (heap st !! lc) as [[psc|]|] eqn:Hlc; try done.
    destruct (lookup_prop (KSym SymPropagate) psc) as [old|] eqn:Hold; [|done].
    destruct (Hc lc eq_refl) as [Hlt Hfree].
    pose proof (Hfree psc old Hlc Hold) as Hconf.
    eexists. split.
    { eapply override_internal_ok; [done..|].
      unfold util.redefinable. by rewrite Hconf. }
    split; [done|]. split; [simpl; by rewrite length_insert|].
    split; [|split].
    + eapply (evolves_put st lc psc); [done|]. intros old' Hold'. left.
      destruct (applied_data (KSym SymPropagate) r d_configurable psc)
        as (fl & Hfl & Hcfl).
      unfold overridden in Hold'. rewrite Hfl in Hold'. injection Hold' as <-.
      by apply Hcfl.
    + intros l o Hl Hne. simpl. rewrite list_lookup_insert_ne by congruence.
      done.
    + intros l o Hl Hno. simpl. rewrite list_lookup_insert_ne; [done|].
      intros <-. rewrite Hlc in Hl. injection Hl as <-.
      rewrite (Hno psc eq_refl) in Hold. done.
  - eexists. split; [by apply override_internal_missing|].
    split; [done|]. split; [done|]. split; [|by split].
    apply (evolves_prefix _ _ []). simpl. by rewrite app_nil_r.
  - by destruct c.
  - by destruct c.
  - by destruct c.
Qed.

(** One step of the fold on a key the parent has, whatever the read of
    the key did to other objects. *)
Lemma mjs_track_key_ledgered invoke st sr p ps es k c old :
  ledgered st p ps es ->
  lookup_prop (KStr k) ps = Some old ->
  configurable (prop_flags old) = true ->
  util.get invoke (KStr k) (VRef p) st = Ok (c, sr) ->
  next_symbol sr = next_symbol st ->
  length (heap sr) = length (heap st) ->
  heap sr !! p = Some (Obj ps) ->
  (forall l o, heap st !! l = Some o ->
     (forall psc, o = Obj psc -> lookup_prop (KSym SymPropagate) psc = None) ->
     heap sr !! l = Some o) ->
  let y := SymTrackedChild (next_symbol st) k in
  let p' := S (S (length (heap st))) in
  exists ps' st' ext,
    IndexMjs._track_key invoke k (VRef p) st = Ok (VRef p', st')
    /\ ledgered st' p' ps' (es ++ [(k, y, c)])
    /\ heap st' = heap sr ++ ext
    /\ (forall k', k' <> k ->
          lookup_prop (KStr k') ps' = lookup_prop (KStr k') ps)
    /\ (forall y', y' <> y -> y' <> SymTracking ->
          lookup_prop (KSym y') ps' = lookup_prop (KSym y') ps)
    /\ lookup_prop (KStr k) ps'
       = Some (PAccessor (create_propagate_proxy y) (Flags true true false))
    /\ lookup_prop (KSym y) ps' = Some (PData c d_non_writable)
    /\ lookup_prop (KSym y) ps = None.
Proof.
  intros (Hp & (la & fl & refs & Ht & Hla & Hrefs) & Hes & Hfresh) Hk Hconf Hget
    Hsym Hlen Hpr Hkeep y p'.
  assert (Hlar : heap sr !! la = Some (Arr refs)).
  { apply Hkeep; [done|]. intros psc Hpsc. discriminate Hpsc. }
  assert (Hy : lookup_prop (KSym y) ps = None) by (apply Hfresh; lia).
  pose proof (mjs_track_key_read invoke st sr p ps k c old la fl refs
                Hp Hk Hconf Hget Hpr Ht Hlar) as Hrun.
  rewrite Hsym, Hlen in Hrun. specialize (Hrun Hy). cbv zeta in Hrun.
  fold y in Hrun.
  set (n := length (heap st)) in *.
  set (ps' := tracked_props k y c (VRef (S n)) ps) in *.
  set (st' := State _ _ _) in Hrun.
  assert (Hext : forall l o, heap sr !! l = Some o -> heap st' !! l = Some o).
  { intros l o Hl. simpl. by apply lookup_app_l_Some. }
  exists ps', st'. eexists.
  split; [exact Hrun|]. split; [|split; [reflexivity|]].
  - split; [|split; [|split]].
    + simpl. rewrite lookup_app_r by (unfold p'; lia). rewrite Hlen.
      by replace (p' - n) with 2 by (unfold p'; lia).
    + exists (S n), d_literal, (refs ++ [VRef n]). split; [|split].
      * apply tracked_props_ledger. by eexists.
      * simpl. rewrite lookup_app_r by (unfold n; lia). rewrite Hlen.
        by replace (S n - n) with 1 by lia.
      * apply Forall2_app.
        -- eapply Forall2_impl; [exact Hrefs|].
           intros r e (le & -> & Hle). exists le. split; [done|].
           apply Hext. apply Hkeep; [done|]. intros psc [= <-]. reflexivity.
        -- constructor; [|constructor]. exists n. split; [done|]. simpl.
           rewrite lookup_app_r by (unfold n; lia). rewrite Hlen.
           by rewrite Nat.sub_diag.
    + apply Forall_app. split.
      * eapply Forall_impl; [exact Hes|].
        intros [[k0 y0] c0] ((n0 & ->) & (fy & Hy0)).
        split; [by exists n0|].
        assert (SymTrackedChild n0 k0 <> y).
        { intros Heq. rewrite Heq in Hy0. congruence. }
        exists fy. unfold ps'.
        rewrite tracked_props_other_symbol by done. exact Hy0.
      * constructor; [|constructor]. split; [by eexists|].
        eexists. unfold ps'. by apply tracked_props_hidden.
    + intros n0 d Hn0. simpl in Hn0. unfold ps'.
      assert (SymTrackedChild n0 d <> y).
      { unfold y. intros [= Heq _]. lia. }
      rewrite tracked_props_other_symbol by done. apply Hfresh. lia.
  - split; [|split; [|split; [|split]]].
    + intros k' Hk'. by apply tracked_props_other_key.
    + intros y' Hy' Ht'. by apply tracked_props_other_symbol.
    + unfold ps'. erewrite tracked_props_getter by exact Hk. simpl.
      by rewrite Hconf.
    + unfold ps'. by apply tracked_props_hidden.
    + exact Hy.
Qed.

Lemma trackable_mono st st1 p ps k (A A' : Prop) :
  evolves st st1 -> (A' -> A) ->
  trackable st p ps k A -> trackable st1 p ps k A'.
Proof.
  intros Hev HA [Hd Ha]. split.
  - intros c fk Hl. destruct (Hd c fk Hl) as [Hc Hag]. split; [done|].
    intros HA'. eapply overridable_evolves; [exact Hev|]. by apply Hag, HA.
  - intros g fa Hl. destruct (Ha g fa Hl) as (Hc & n & c & fy & -> & Hh & Ho & Hp).
    split; [done|]. exists n, c, fy. split; [done|]. split; [done|].
    split; [by eapply overridable_evolves|done].
Qed.

(** Once [k] is tracked, the keys still to come can be tracked in the
    copy of the parent. *)
Lemma trackable_step st st1 p p1 ps ps1 k n c keys :
  let y := SymTrackedChild n k in
  evolves st st1 ->
  length (heap st) < p1 ->
  (forall k', k' <> k ->
     lookup_prop (KStr k') ps1 = lookup_prop (KStr k') ps) ->
  (forall y', y' <> y -> y' <> SymTracking ->
     lookup_prop (KSym y') ps1 = lookup_prop (KSym y') ps) ->
  lookup_prop (KStr k) ps1
  = Some (PAccessor (create_propagate_proxy y) (Flags true true false)) ->
  lookup_prop (KSym y) ps1 = Some (PData c d_non_writable) ->
  lookup_prop (KSym y) ps = None ->
  (k ∈ keys -> overridable st c) ->
  (forall k', k' ∈ keys -> trackable st p ps k' (listed_twice k' (k :: keys))) ->
  forall k', k' ∈ keys -> trackable st1 p1 ps1 k' (listed_twice k' keys).
Proof.
  intros y Hev Hp1 Hframek Hframey Hget Hhid Hnone Hover Htr k' Hin.
  destruct (decide (k' = k)) as [->|Hne].
  - split.
    + intros c' fk' Hl. rewrite Hget in Hl. discriminate Hl.
    + intros g fa Hl. rewrite Hget in Hl. injection Hl as <- <-.
      split; [done|]. exists n, c, d_non_writable.
      split; [done|]. split; [exact Hhid|].
      pose proof (Hover Hin) as Ho.
      split; [by eapply overridable_evolves|].
      intros ->. destruct Ho as [_ Ho]. destruct (Ho p1 eq_refl). lia.
  - destruct (Htr k' Hin) as [Hd Ha]. split.
    + intros c' fk' Hl. rewrite Hframek in Hl by done.
      destruct (Hd c' fk' Hl) as [Hc Hag]. split; [done|].
      intros Htw. eapply overridable_evolves; [exact Hev|].
      apply Hag. by right.
    + intros g fa Hl. rewrite Hframek in Hl by done.
      destruct (Ha g fa Hl) as (Hc & n0 & c0 & fy & -> & Hh & Ho & Hcp).
      split; [done|]. exists n0, c0, fy. split; [done|]. split.
      * rewrite Hframey; [done| |done]. intros Heq. rewrite Heq in Hh.
        fold y in Hh. congruence.
      * split; [by eapply overridable_evolves|].
        intros ->. destruct Ho as [_ Ho]. destruct (Ho p1 eq_refl). lia.
Qed.

Lemma present_cons_Some ps k keys :
  is_Some (lookup_prop (KStr k) ps) ->
  present ps (k :: keys) = k :: present ps keys.
Proof. intros H. unfold present. by rewrite filter_cons_True. Qed.

Lemma present_cons_None ps k keys :
  lookup_prop (KStr k) ps = None -> present ps (k :: keys) = present ps keys.
Proof.
  intros H. unfold present. rewrite filter_cons_False; [done|].
  rewrite H. by intros [? ?].
Qed.

Lemma present_ext ps ps' keys :
  (forall k, is_Some (lookup_prop (KStr k) ps')
             <-> is_Some (lookup_prop (KStr k) ps)) ->
  present ps' keys = present ps keys.
Proof. intros H. unfold present. by apply list_filter_iff. Qed.

Lemma fresh_symbol_is_new (ps : props) (es : list (string * symbol * val)) y :
  Forall (hides ps) es -> lookup_prop (KSym y) ps = None ->
  y ∉ map (fun e => e.1.2) es.
Proof.
  intros Hes Hy Hin. apply list_elem_of_fmap in Hin as ([[k0 y0] c0] & Heq & He).
  simpl in Heq. subst y0. rewrite Forall_forall in Hes.
  destruct (Hes _ He) as (_ & (fy & Hl)). congruence.
Qed.

(** The fold of [TracksPropagation] over any list of keys: absent keys are
    passed over, a key listed again is read through the getter its earlier
    entry left and gets a new symbol and a new entry. *)
Lemma mjs_fold_track_any host fuel keys :
  forall st p ps es,
    ledgered st p ps es ->
    NoDup (map (fun e => e.1.2) es) ->
    (forall k, k ∈ keys -> trackable st p ps k (listed_twice k keys)) ->
    exists p' ps' st' es',
      util.fold (IndexMjs._track_key (call host (S fuel))) (VRef p) keys st
      = Ok (VRef p', st')
      /\ ledgered st' p' ps' (es ++ es')
      /\ map (fun e => e.1.1) es' = present ps keys
      /\ NoDup (map (fun e => e.1.2) (es ++ es'))
      /\ evolves st st'.
Proof.
  induction keys as [|k keys IH]; intros st p ps es Hled Hnd Htr.
  - exists p, ps, st, []. rewrite app_nil_r.
    split; [done|]. split; [done|]. split; [done|]. split; [done|].
    apply evolves_refl.
  - pose proof (Htr k (list_elem_of_here _ _)) as [Hd Ha].
    assert (Hrest : forall k', k' ∈ keys ->
              trackable st p ps k' (listed_twice k' (k :: keys))).
    { intros k' Hk'. apply Htr. by apply list_elem_of_further. }
    assert (Hp : heap st !! p = Some (Obj ps)) by (by destruct Hled).
    assert (Hstep : forall c old sr,
              lookup_prop (KStr k) ps = Some old ->
              configurable (prop_flags old) = true ->
              (k ∈ keys -> overridable st c) ->
              util.get (call host (S fuel)) (KStr k) (VRef p) st = Ok (c, sr) ->
              next_symbol sr = next_symbol st ->
              length (heap sr) = length (heap st) ->
              evolves st sr ->
              heap sr !! p = Some (Obj ps) ->
              (forall l o, heap st !! l = Some o ->
                 (forall psc, o = Obj psc ->
                    lookup_prop (KSym SymPropagate) psc = None) ->
                 heap sr !! l = Some o) ->
              exists p' ps' st' es',
                util.fold (IndexMjs._track_key (call host (S fuel))) (VRef p)
                  (k :: keys) st = Ok (VRef p', st')
                /\ ledgered st' p' ps' (es ++ es')
                /\ map (fun e => e.1.1) es' = present ps (k :: keys)
                /\ NoDup (map (fun e => e.1.2) (es ++ es'))
                /\ evolves st st').
    { intros c old sr Hlk Hconf Hover Hget Hsym Hlen Hevr Hpr Hkeep.
      destruct (mjs_track_key_ledgered (call host (S fuel)) st sr p ps es k c old
                  Hled Hlk Hconf Hget Hsym Hlen Hpr Hkeep)
        as (ps1 & st1 & ext & Hrun & Hled1 & Hheap & Hfk & Hfy & Hgetter & Hhid
            & Hnone).
      set (y := SymTrackedChild (next_symbol st) k) in *.
      set (p1 := S (S (length (heap st)))) in *.
      assert (Hev1 : evolves st st1).
      { eapply evolves_trans; [exact Hevr|]. by eapply evolves_prefix. }
      assert (Hnd1 : NoDup (map (fun e => e.1.2) (es ++ [(k, y, c)]))).
      { rewrite map_app. simpl. apply NoDup_app. split; [done|]. split.
        - intros y0 Hy0 Hin. apply list_elem_of_singleton in Hin. subst y0.
          destruct Hled as (_ & _ & Hes & _).
          by apply (fresh_symbol_is_new ps es y Hes Hnone).
        - apply NoDup_singleton. }
      destruct (IH st1 p1 ps1 (es ++ [(k, y, c)]) Hled1 Hnd1) as
        (p' & ps' & st' & es' & Hfold & Hled' & Hkeys & Hnd' & Hev').
      { eapply (trackable_step st st1 p p1 ps ps1 k (next_symbol st) c keys);
          try done. unfold p1. lia. }
      assert (Hsame : forall k', is_Some (lookup_prop (KStr k') ps1)
                                 <-> is_Some (lookup_prop (KStr k') ps)).
      { intros k'. destruct (decide (k' = k)) as [->|Hne].
        - rewrite Hgetter, Hlk. by split.
        - by rewrite Hfk. }
      exists p', ps', st', ((k, y, c) :: es').
      split; [|split; [|split; [|split]]].
      - simpl. by rewrite (bind_Ok _ _ _ _ _ Hrun).
      - by rewrite <- app_assoc in Hled'.
      - rewrite present_cons_Some by (by rewrite Hlk). simpl.
        by rewrite Hkeys, (present_ext ps ps1).
      - by rewrite <- app_assoc in Hnd'.
      - by eapply evolves_trans. }
    destruct (lookup_prop (KStr k) ps) as [[c fk|g fa]|] eqn:Hlk.
    + destruct (Hd c fk eq_refl) as [Hconf Hagain].
      apply (Hstep c (PData c fk) st);
        [done|done| |by eapply get_data|done|done|apply evolves_refl|done|done].
      intros Hin. apply Hagain. left. by split.
    + destruct (Ha g fa eq_refl) as (Hconf & n0 & c & fy & -> & Hhid0 & Hover & Hcp).
      destruct (override_propagate_effect
                  (create_propagate_up (SymTrackedChild n0 k) (VRef p)) c st Hover)
        as (sr & Hover_run & Hsym & Hlen & Hevr & Hkeep1 & Hkeep2).
      apply (Hstep c (PAccessor (create_propagate_proxy (SymTrackedChild n0 k)) fa)
               sr);
        [done|done|done| |done|done|done| |exact Hkeep2].
      * erewrite proxy_getter_run; [exact Hover_run|done..].
      * apply Hkeep1; [done|]. congruence.
    + pose proof (mjs_track_key_absent (call host (S fuel)) k p ps st Hp Hlk)
        as Hrun.
      assert (Hev : evolves st (skipped k st)).
      { apply (evolves_prefix _ _ []). simpl. by rewrite app_nil_r. }
      destruct (IH (skipped k st) p ps es) as
        (p' & ps' & st' & es' & Hfold & Hled' & Hkeys & Hnd' & Hev').
      * destruct Hled as (Hp0 & Hl0 & Hes0 & Hfresh0).
        split; [done|]. split; [done|]. split; [done|].
        intros n d Hn. simpl in Hn. apply Hfresh0. lia.
      * done.
      * intros k' Hk'. eapply trackable_mono; [exact Hev| |by apply Hrest].
        intros Htw. by right.
      * exists p', ps', st', es'.
        split; [|split; [done|split; [|split; [done|]]]].
        -- simpl. by rewrite (bind_Ok _ _ _ _ _ Hrun).
        -- by rewrite present_cons_None.
        -- by eapply evolves_trans.
Qed.

(** [TracksPropagation] of index.mjs over any list of keys. *)
Lemma mjs_TracksPropagation_any host fuel keys st p ps :
  heap st !! p = Some (Obj ps) ->
  (forall old, lookup_prop (KSym SymTracking) ps = Some old ->
     configurable (prop_flags old) = true) ->
  (forall n d, next_symbol st <= n ->
     lookup_prop (KSym (SymTrackedChild n d)) ps = None) ->
  (forall k, k ∈ keys -> is_Some (lookup_prop (KStr k) ps) ->
     exists c, plain_field ps k c) ->
  (forall k c, listed_twice k keys -> plain_field ps k c -> overridable st c) ->
  exists p' ps' st' es,
    IndexMjs.TracksPropagation (call host (S fuel)) keys (VRef p) st
    = Ok (VRef p', st')
    /\ ledgered st' p' ps' es
    /\ map (fun e => e.1.1) es = present ps keys
    /\ NoDup (map (fun e => e.1.2) es).
Proof.
  intros Hp Hold Hfresh Hplain Htwice.
  destruct (mjs_ledger_reset st p ps Hp Hold Hfresh) as (Hrun & Htr & _ & Hsame).
  cbv zeta in Hrun, Htr, Hsame.
  set (n := length (heap st)) in *.
  set (ps1 := util.applied (KSym SymTracking) (PData (VRef n) d_configurable) ps)
    in *.
  set (st0 := set_heap (heap st ++ [Arr []]) st) in *.
  set (st1 := put p ps1 st0) in *.
  assert (Hev : evolves st st1).
  { eapply (evolves_trans _ st0).
    - by eapply evolves_prefix.
    - eapply (evolves_put st0 p ps); [simpl; by apply lookup_app_l_Some|].
      intros old' Hold'. right. by rewrite Hsame in Hold'. }
  destruct (mjs_fold_track_any host fuel keys st1 p ps1 []) as
    (p' & ps' & st' & es & Hfold & Hled & Hkeys & Hnd & _).
  - by apply tracking_ledgered.
  - constructor.
  - intros k Hin. split.
    + intros c fk Hl. rewrite Hsame in Hl by done.
      destruct (Hplain k Hin) as (c' & fl & Hl' & Hfl); [by rewrite Hl|].
      rewrite Hl in Hl'. injection Hl' as <- <-. split; [done|].
      intros Htw. eapply overridable_evolves; [exact Hev|].
      apply (Htwice k c Htw). by exists fk.
    + intros g fa Hl. rewrite Hsame in Hl by done.
      destruct (Hplain k Hin) as (c' & fl & Hl' & Hfl); [by rewrite Hl|].
      rewrite Hl in Hl'. discriminate Hl'.
  - exists p', ps', st', es. split; [by rewrite Hrun|]. split; [done|].
    split; [|done]. rewrite Hkeys. apply present_ext. intros k.
    by rewrite Hsame.
Qed.

(** ** The ledger of index.mjs *)

(** C6, as amended. In index.mjs, [TracksPropagation(keys)(parent)] returns
    a parent with a ledger, and the keys read from that ledger are the
    listed keys the parent has, in the order they were passed, a key listed
    twice appearing twice; a listed key the parent lacks is passed over.
    The listed keys the parent has are ordinary (configurable data) fields,
    the parent's ledger slot is free or configurable, no symbol still to be
    made is a key of the parent, and the value of a key listed more than
    once can go through the override utility, which reads it through the
    getter the first entry left: it is not [undefined], and a propagate
    slot it has can be replaced. *)
Theorem ledger_lists_keys_in_order
    (host : (val -> val -> val -> M val) -> nat -> val -> val -> M val)
    (fuel : nat) (keys : list string) (st : state) (p : loc) (ps : props) :
  heap st !! p = Some (Obj ps) ->
  (forall old, lookup_prop (KSym SymTracking) ps = Some old ->
     configurable (prop_flags old) = true) ->
  (forall n d, next_symbol st <= n ->
     lookup_prop (KSym (SymTrackedChild n d)) ps = None) ->
  (forall k, k ∈ keys -> is_Some (lookup_prop (KStr k) ps) ->
     exists c, plain_field ps k c) ->
  (forall k c, listed_twice k keys -> plain_field ps k c -> overridable st c) ->
  exists p' st',
    IndexMjs.TracksPropagation (call host (S fuel)) keys (VRef p) st
    = Ok (VRef p', st')
    /\ ledger_keys st' (VRef p') = Some (map VStr (present ps keys)).
Proof.
  intros Hp Hold Hfresh Hplain Htwice.
  destruct (mjs_TracksPropagation_any host fuel keys st p ps Hp Hold Hfresh
              Hplain Htwice)
    as (p' & ps' & st' & es & Hrun & Hled & Hkeys & _).
  exists p', st'. split; [exact Hrun|].
  destruct Hled as (Hp' & (la & fl & refs & Ht & Hla & Hrefs) & _).
  destruct (ledger_reads st' p' ps' la fl refs es Hp' Ht Hla Hrefs) as [-> _].
  by rewrite <- Hkeys, <- list_fmap_compose.
Qed.

(** The parent [{ a: 1, b: 2 }] and the keys [a, c, a, b]: the ledger reads
    [a, a, b]. *)
Lemma ledger_lists_keys_in_order_witness :
  exists p' st',
    IndexMjs.TracksPropagation (call (Fixtures.host VUndef) 1)
      ["a"; "c"; "a"; "b"] (VRef 0) Fixtures.st_siblings = Ok (VRef p', st')
    /\ ledger_keys st' (VRef p') = Some [VStr "a"; VStr "a"; VStr "b"].
Proof.
  apply (ledger_lists_keys_in_order (Fixtures.host VUndef) 0
           ["a"; "c"; "a"; "b"] Fixtures.st_siblings 0 Fixtures.siblings).
  - reflexivity.
  - intros old Hold. vm_compute in Hold. discriminate.
  - intros n d _. reflexivity.
  - intros k Hin Hsome. apply list_elem_of_In in Hin. simpl in Hin.
    destruct Hin as [<-|[<-|[<-|[<-|[]]]]].
    + eexists _, _. split; reflexivity.
    + destruct Hsome as [x Hx]. vm_compute in Hx. discriminate.
    + eexists _, _. split; reflexivity.
    + eexists _, _. split; reflexivity.
  - intros k c _ (fl & Hl & _). simpl in Hl.
    repeat case_decide; simplify_eq; (split; [done|intros lc Hc; discriminate Hc]).
Defined.

(** A listed key the parent lacks leaves no entry: the ledger is shorter
    than the key list. *)
Lemma ledger_omits_absent_key :
  exists t st',
    IndexMjs.TracksPropagation (Fixtures.run 1) ["a"; "c"; "b"] (VRef 0)
      Fixtures.st_siblings = Ok (t, st')
    /\ ledger_keys st' t = Some [VStr "a"; VStr "b"]
    /\ ledger_keys st' t <> Some [VStr "a"; VStr "c"; VStr "b"].
Proof.
  eexists _, _. split; [vm_compute; reflexivity|].
  split; [vm_compute; reflexivity|]. vm_compute. discriminate.
Qed.

(** ** The Tree example *)

(** C2. The parent [{ leaf: Leaf({}), height: 100 }] with [leaf] tracked:
    committing the colour updater on the tracked leaf returns a new parent
    whose height is still 100 and whose leaf is brown, and the same commit
    on the returned parent's leaf gives a parent whose leaf is green again.
    Both files do so. *)
Theorem tree_leaf_turns_brown_then_green :
  Fixtures.turns_brown_then_green Fixtures.Tree_js
  /\ Fixtures.turns_brown_then_green Fixtures.Tree1_mjs.
Proof.
  split; unfold Fixtures.turns_brown_then_green; eexists _, _, _, _, _, _;
    repeat (split; [vm_compute; first [reflexivity | discriminate]|]);
    vm_compute; reflexivity.
Qed.

(** ** References returned by attaching *)

(** One step of tracking in index.js over an ordinary field: the child is
    overridden in place when it propagates, and the parent returned is the
    copy [update] makes. The field may not hold [undefined], on which the
    override utility throws. *)
Lemma js_track_key_copies invoke st p ps k c :
  heap st !! p = Some (Obj ps) ->
  plain_field ps k c ->
  c <> VUndef ->
  (forall lc psc old,
     c = VRef lc -> heap st !! lc = Some (Obj psc) ->
     lookup_prop (KSym SymPropagate) psc = Some old ->
     configurable (prop_flags old) = true) ->
  exists st',
    IndexJs._track_key invoke k (VRef p) st = Ok (VRef (length (heap st)), st')
    /\ length (heap st') = S (length (heap st)).
Proof.
  intros Hp (fk & Hk & Hfk) Hundef Hchild.
  unfold IndexJs._track_key.
  erewrite bind_Ok; [|apply console_assert_true; by eapply has_data].
  rewrite when_true; [|by eapply has_data].
  unfold util.update.
  erewrite bind_Ok; [|by eapply get_data].
  set (f := propagate_up_create k (VRef p)).
  destruct (util.has (KSym SymPropagate) c st) as [[|]| | |] eqn:Hhas.
  - unfold util.has, own_props in Hhas.
    destruct c as [| | | |lc|]; try done.
    destruct (heap st !! lc) as [[psc|]|] eqn:Hlc; try done.
    destruct (lookup_prop (KSym SymPropagate) psc) as [old|] eqn:Hold; [|done].
    pose proof (Hchild lc psc old eq_refl Hlc Hold) as Hconf.
    erewrite bind_Ok.
    2: { unfold _override_propagate. eapply override_internal_ok; [done..|].
         unfold util.redefinable. by rewrite Hconf. }
    set (psc1 := overridden _ _ psc).
    destruct (decide (lc = p)) as [->|Hne].
    + assert (psc = ps) by congruence. subst psc.
      erewrite copy_with_ok.
      * simpl. rewrite length_insert. eexists. split; [reflexivity|].
        simpl. rewrite length_app, length_insert. simpl. lia.
      * simpl. by eapply heap_insert_eq.
      * unfold psc1, overridden. rewrite applied_lookup_ne by done. exact Hk.
    + erewrite copy_with_ok.
      * simpl. rewrite length_insert. eexists. split; [reflexivity|].
        simpl. rewrite length_app, length_insert. simpl. lia.
      * simpl. by rewrite list_lookup_insert_ne.
      * exact Hk.
  - erewrite bind_Ok.
    2: { unfold _override_propagate. by apply override_internal_missing. }
    erewrite copy_with_ok; [|exact Hp|exact Hk].
    eexists. split; [done|]. simpl. rewrite length_app. simpl. lia.
  - by destruct c.
  - by destruct c.
  - by destruct c.
Qed.

(** In index.js, tracking a field that holds [undefined] throws: the
    override utility tests the value for its slot. *)
Lemma js_track_key_undefined invoke st p ps k :
  heap st !! p = Some (Obj ps) ->
  plain_field ps k VUndef ->
  IndexJs._track_key invoke k (VRef p) st
  = Throws "TypeError: Cannot convert undefined or null to object".
Proof.
  intros Hp (fk & Hk & Hfk).
  unfold IndexJs._track_key.
  erewrite bind_Ok; [|apply console_assert_true; by eapply has_data].
  rewrite when_true; [|by eapply has_data].
  unfold util.update.
  erewrite bind_Ok; [|by eapply get_data].
  reflexivity.
Qed.

Lemma put_frame l ps st :
  length (heap (put l ps st)) = length (heap st)
  /\ forall l', l' <> l -> heap (put l ps st) !! l' = heap st !! l'.
Proof.
  split; simpl.
  - apply length_insert.
  - intros l' Hne. by apply list_lookup_insert_ne.
Qed.

Lemma Propagates_missing invoke target st :
  util.has (KSym SymCommute) target st = Ok false ->
  Propagates invoke target st
  = Ok (target,
        log "The `target` object of `Propagates` must also be `Commutes`!" st).
Proof.
  intros H. unfold Propagates.
  erewrite bind_Ok; [|by apply console_assert_false].
  apply when_false. by rewrite has_log.
Qed.

(** C10, as amended. [Commutes], [Propagates] and [override_internal] hand
    back the reference they were given. When the precondition holds the
    object behind it is augmented in place: the store keeps its size and
    every other object. When the precondition fails the store is untouched.
    [TracksPropagation] is different: with no key to track it returns its
    argument, and for keys it tracks it returns a reference the store did
    not hold before, the copy [update] makes; in index.js a tracked field
    that holds [undefined] makes the override utility throw instead. *)
Theorem attaching_is_in_place (invoke : val -> val -> val -> M val) :
  (forall target st,
     util.has state_key target st = Ok false ->
     exists st1 st2,
       IndexJs.Commutes target st = Ok (target, st1) /\ heap st1 = heap st
       /\ IndexMjs.Commutes target st = Ok (target, st2) /\ heap st2 = heap st)
  /\ (forall st l ps,
        heap st !! l = Some (Obj ps) ->
        is_Some (lookup_prop state_key ps) ->
        lookup_prop (KSym SymCommute) ps = None ->
        lookup_prop commute_key ps = None ->
        IndexJs.Commutes (VRef l) st = Ok (VRef l, put l (with_commute ps) st)
        /\ IndexMjs.Commutes (VRef l) st = Ok (VRef l, put l (with_commute ps) st))
  /\ (forall target st,
        util.has (KSym SymCommute) target st = Ok false ->
        exists st', Propagates invoke target st = Ok (target, st')
                    /\ heap st' = heap st)
  /\ (forall st l ps c fl,
        heap st !! l = Some (Obj ps) ->
        lookup_prop (KSym SymCommute) ps = Some (PData c fl) ->
        configurable fl = true ->
        lookup_prop (KSym SymPropagate) ps = None ->
        Propagates invoke (VRef l) st
        = Ok (VRef l, put l (with_propagate c ps) st))
  /\ (forall y r target st,
        util.has (KSym y) target st = Ok false ->
        exists st', override_internal y r target st = Ok (target, st')
                    /\ heap st' = heap st)
  /\ (forall y r st l ps old,
        heap st !! l = Some (Obj ps) ->
        lookup_prop (KSym y) ps = Some old ->
        configurable (prop_flags old) = true ->
        override_internal y r (VRef l) st
        = Ok (VRef l, put l (overridden y r ps) st))
  /\ (forall l ps st,
        length (heap (put l ps st)) = length (heap st)
        /\ forall l', l' <> l -> heap (put l ps st) !! l' = heap st !! l')
  /\ (forall keys st p ps,
        heap st !! p = Some (Obj ps) ->
        lookup_prop (KSym SymTracking) ps = None ->
        (forall n d, next_symbol st <= n ->
           lookup_prop (KSym (SymTrackedChild n d)) ps = None) ->
        NoDup keys ->
        Forall (fun k => exists c, plain_field ps k c) keys ->
        exists p' st',
          IndexMjs.TracksPropagation invoke keys (VRef p) st = Ok (VRef p', st')
          /\ (keys = [] /\ p' = p \/ keys <> [] /\ length (heap st) < p'))
  /\ (forall st p ps k c,
        heap st !! p = Some (Obj ps) ->
        plain_field ps k c ->
        c <> VUndef ->
        (forall lc psc old,
           c = VRef lc -> heap st !! lc = Some (Obj psc) ->
           lookup_prop (KSym SymPropagate) psc = Some old ->
           configurable (prop_flags old) = true) ->
        exists st',
          IndexJs.TracksPropagation invoke [k] (VRef p) st
          = Ok (VRef (length (heap st)), st'))
  /\ (forall st p ps k,
        heap st !! p = Some (Obj ps) ->
        plain_field ps k VUndef ->
        IndexJs.TracksPropagation invoke [k] (VRef p) st
        = Throws "TypeError: Cannot convert undefined or null to object").
Proof.
  split; [|split; [|split; [|split; [|split; [|split; [|split; [|split;
    [|split]]]]]]]].
  - intros target st Hno.
    destruct (Commutes_missing_state target st Hno) as (Hjs & st2 & Hmjs & Hh & _).
    by exists (log msg_state st), st2.
  - apply Commutes_plain.
  - intros target st Hno. rewrite Propagates_missing by done. by eexists.
  - intros. by eapply Propagates_plain.
  - intros y r target st Hno. rewrite override_internal_missing by done.
    by eexists.
  - intros y r st l ps old Hl Hk Hc. eapply override_internal_ok; [done..|].
    unfold util.redefinable. by rewrite Hc.
  - apply put_frame.
  - intros keys st p ps Hp Hnone Hfresh Hnd Hall.
    destruct (mjs_TracksPropagation_tracking invoke keys st p ps Hp) as
      (p' & ps' & st' & es & Hrun & _ & _ & _ & _ & _ & Hp'); try done.
    { intros old Hold. congruence. }
    by exists p', st'.
  - intros st p ps k c Hp Hf Hundef Hchild.
    destruct (js_track_key_copies invoke st p ps k c Hp Hf Hundef Hchild)
      as (st' & Hrun & _).
    exists st'. unfold IndexJs.TracksPropagation, util.flip. simpl.
    by rewrite (bind_Ok _ _ _ _ _ Hrun).
  - intros st p ps k Hp Hf.
    unfold IndexJs.TracksPropagation, util.flip. simpl. unfold mbind, M_bind.
    by rewrite (js_track_key_undefined invoke st p ps k Hp Hf).
Qed.

Lemma attaching_is_in_place_witness :
  (IndexJs.Commutes (VRef 0) Fixtures.st_plain
   = Ok (VRef 0, put 0 (with_commute Fixtures.counter) Fixtures.st_plain)
   /\ IndexMjs.Commutes (VRef 0) Fixtures.st_plain
      = Ok (VRef 0, put 0 (with_commute Fixtures.counter) Fixtures.st_plain))
  /\ exists st',
       IndexJs.TracksPropagation (Fixtures.run 1) ["a"] (VRef 0)
         Fixtures.st_siblings = Ok (VRef 1, st').
Proof.
  destruct (attaching_is_in_place (Fixtures.run 1))
    as (_ & Hcommutes & _ & _ & _ & _ & _ & _ & Htracks & _).
  split.
  - apply (Hcommutes Fixtures.st_plain 0 Fixtures.counter); try reflexivity.
    by exists (PData (VNum 5) d_literal).
  - apply (Htracks Fixtures.st_siblings 0 Fixtures.siblings "a" (VNum 1)).
    + reflexivity.
    + eexists. split; reflexivity.
    + discriminate.
    + intros lc psc old Hc. discriminate Hc.
Defined.

(** [TracksPropagation] does not return the parent it was given: the tree
    literal of either file and the tracked tree are two objects. *)
Lemma TracksPropagation_returns_a_copy :
  (exists st st',
     Fixtures.one_leaf Fixtures.Leaf_js Fixtures.st0 = Ok (VRef 2, st)
     /\ util.has (KStr "leaf") (VRef 2) st = Ok true
     /\ IndexJs.TracksPropagation (Fixtures.run Fixtures.fuel) ["leaf"] (VRef 2) st
        = Ok (VRef 3, st'))
  /\ (exists st st',
        Fixtures.one_leaf Fixtures.Leaf_mjs Fixtures.st0 = Ok (VRef 2, st)
        /\ util.has (KStr "leaf") (VRef 2) st = Ok true
        /\ IndexMjs.TracksPropagation (Fixtures.run Fixtures.fuel) ["leaf"] (VRef 2) st
           = Ok (VRef 6, st')).
Proof.
  split; eexists _, _;
    repeat (split; [vm_compute; reflexivity|]); vm_compute; reflexivity.
Qed.

(** ** Committing through a tracked parent of index.mjs *)

Lemma propagating_node_override psc s f :
  propagating_node psc s ->
  propagating_node (overridden SymPropagate f psc) s.
Proof.
  intros ((fs & Hs) & Hm & Hc & _). unfold overridden.
  split; [|split; [|split]].
  - exists fs. by rewrite applied_lookup_ne.
  - by rewrite applied_lookup_ne.
  - by rewrite applied_lookup_ne.
  - destruct (applied_data (KSym SymPropagate) f d_configurable psc)
      as (fl & Hf & Hconf).
    eexists. split; [exact Hf|]. by apply Hconf.
Qed.

Lemma propagating_node_commit psc s s' fs :
  propagating_node psc s ->
  propagating_node (store_prop state_key (PData s' fs) psc) s'.
Proof.
  intros (_ & Hm & Hc & (old & Hp & Ho)). split; [|split; [|split]].
  - exists fs. apply lookup_store_eq.
  - by rewrite lookup_store_ne.
  - by rewrite lookup_store_ne.
  - exists old. by rewrite lookup_store_ne.
Qed.

(** One read of a tracked key whose child propagates. *)
Lemma tracked_read host fuel st p ps k y lc psc fa fy old :
  heap st !! p = Some (Obj ps) ->
  lookup_prop (KStr k) ps = Some (PAccessor (create_propagate_proxy y) fa) ->
  lookup_prop (KSym y) ps = Some (PData (VRef lc) fy) ->
  heap st !! lc = Some (Obj psc) ->
  lookup_prop (KSym SymPropagate) psc = Some old ->
  configurable (prop_flags old) = true ->
  util.get (call host (S fuel)) (KStr k) (VRef p) st
  = Ok (VRef lc,
        put lc (overridden SymPropagate (create_propagate_up y (VRef p)) psc) st).
Proof.
  intros Hp Hk Hy Hlc Hold Hconf.
  erewrite proxy_getter_run; [|done..].
  unfold _override_propagate. eapply override_internal_ok; [done..|].
  unfold util.redefinable. by rewrite Hconf.
Qed.

Lemma keeps_refl st : keeps st st.
Proof. by split. Qed.

Section CommitVia.
Context (host : (val -> val -> val -> M val) -> nat -> val -> val -> M val).
Context (fuel : nat) (st : state) (p : loc) (ps : props).
Context (k : string) (y : symbol) (lc : loc) (psc : props).
Context (s s' u : val) (stu : state).
Hypothesis Hp : heap st !! p = Some (Obj ps).
Hypothesis Htracks : tracks ps (k, y, VRef lc).
Hypothesis Hlc : heap st !! lc = Some (Obj psc).
Hypothesis Hne : lc <> p.
Hypothesis Hnode : propagating_node psc s.

Let psc1 : props :=
  overridden SymPropagate (create_propagate_up y (VRef p)) psc.

(** The updater runs in the store the read of the key leaves. *)
Hypothesis Hu : call host fuel u VUndef s (put lc psc1 st) = Ok (s', stu).
Hypothesis Hkeeps : keeps (put lc psc1 st) stu.

Let n : nat := length (heap stu).
Let psc' : props := store_prop state_key (PData s' d_literal) psc1.
Let ps' : props := store_prop (KSym y) (PData (VRef n) d_literal) ps.

Lemma mjs_commit_via_run :
  util.get (call host (S (S (S fuel)))) (KStr k) (VRef p) st
  = Ok (VRef lc, put lc psc1 st)
  /\ commit_via (call host (S (S (S fuel)))) (VRef p) k u st
     = Ok (VRef (S n), set_heap (heap stu ++ [Obj psc'; Obj ps']) stu).
Proof using All.
  destruct Htracks as (_ & (fa & Hk) & (fy & Hy)).
  destruct Hnode as ((fs & Hs) & Hm & Hc & (old & Hold & Hconf)).
  destruct Hkeeps as [Hkeep _].
  set (str := put lc psc1 st) in *.
  assert (Hread : util.get (call host (S (S (S fuel)))) (KStr k) (VRef p) st
                  = Ok (VRef lc, str)).
  { by eapply tracked_read. }
  split; [exact Hread|].
  assert (Hnode1 : propagating_node psc1 s).
  { unfold psc1. by apply propagating_node_override. }
  destruct Hnode1 as ((fs1 & Hs1) & Hm1 & Hc1 & _).
  destruct (applied_data (KSym SymPropagate) (create_propagate_up y (VRef p))
              d_configurable psc) as (fp & Hp1 & _).
  fold (overridden SymPropagate (create_propagate_up y (VRef p)) psc) in Hp1.
  fold psc1 in Hp1.
  assert (Hlc1 : heap str !! lc = Some (Obj psc1)).
  { simpl. by eapply heap_insert_eq. }
  assert (Hlcu : heap stu !! lc = Some (Obj psc1)) by (by apply Hkeep).
  assert (Hpu : heap stu !! p = Some (Obj ps)).
  { apply Hkeep. simpl. by rewrite list_lookup_insert_ne. }
  unfold commit_via.
  erewrite bind_Ok; [|exact Hread].
  erewrite bind_Ok; [|by eapply get_data].
  change (_proxy_commute (call host (S (S fuel))) (VRef lc) u str = Ok
    (VRef (S n), set_heap (heap stu ++ [Obj psc'; Obj ps']) stu)).
  unfold _proxy_commute.
  erewrite bind_Ok; [|by eapply get_data].
  change (propagating_commute (call host (S fuel)) (VFun F_commute) (VRef lc)
            u str = Ok
    (VRef (S n), set_heap (heap stu ++ [Obj psc'; Obj ps']) stu)).
  unfold propagating_commute.
  erewrite bind_Ok; [|by eapply get_data].
  erewrite bind_Ok.
  2: { eapply _commute_run; [exact Hlc1|exact Hs1|exact Hu|exact Hlcu|exact Hs1]. }
  fold n psc'.
  change (propagate_up (call host fuel) (KSym y) (VRef p) (VRef n)
            (set_heap (heap stu ++ [Obj psc']) stu) = Ok
    (VRef (S n), set_heap (heap stu ++ [Obj psc'; Obj ps']) stu)).
  unfold propagate_up, util.update.
  assert (Hp2 : heap (set_heap (heap stu ++ [Obj psc']) stu) !! p
                = Some (Obj ps)).
  { simpl. by apply lookup_app_l_Some. }
  erewrite bind_Ok; [|by eapply get_data].
  erewrite bind_Ok; [|reflexivity].
  erewrite copy_with_ok; [|exact Hp2|exact Hy].
  simpl. rewrite length_app. simpl.
  replace (length (heap stu) + 1) with (S n) by (unfold n; lia).
  by rewrite <- app_assoc.
Qed.

Lemma mjs_commit_via_step :
  exists st' psc2,
    commit_via (call host (S (S (S fuel)))) (VRef p) k u st
    = Ok (VRef (S n), st')
    /\ heap st' !! S n = Some (Obj ps')
    /\ heap st' !! n = Some (Obj psc2)
    /\ propagating_node psc2 s'
    /\ (forall l psl sl,
          heap st !! l = Some (Obj psl) -> propagating_node psl sl ->
          exists psl', heap st' !! l = Some (Obj psl')
                       /\ propagating_node psl' sl)
    /\ (forall l o, l <> lc -> heap st !! l = Some o ->
          heap st' !! l = Some o)
    /\ (forall l o, heap stu !! l = Some o -> heap st' !! l = Some o)
    /\ heap st' !! lc = Some (Obj psc1)
    /\ length (heap st) <= n
    /\ next_symbol st <= next_symbol st'
    /\ length (heap st') = S (S n).
Proof using All.
  destruct mjs_commit_via_run as [_ Hrun].
  destruct Hkeeps as [Hkeep Hsym].
  eexists _, psc'. split; [exact Hrun|]. simpl.
  assert (Hlc1 : heap (put lc psc1 st) !! lc = Some (Obj psc1)).
  { simpl. by eapply heap_insert_eq. }
  split; [|split; [|split; [|split; [|split; [|split; [|split; [|split;
    [|split]]]]]]]].
  - rewrite lookup_app_r by (unfold n; lia).
    by replace (S n - length (heap stu)) with 1 by (unfold n; lia).
  - rewrite lookup_app_r by (unfold n; lia). unfold n. by rewrite Nat.sub_diag.
  - unfold psc'. apply (propagating_node_commit _ s).
    unfold psc1. by apply propagating_node_override.
  - intros l psl sl Hl Hn. destruct (decide (l = lc)) as [->|Hlne].
    + exists psc1. split.
      * apply lookup_app_l_Some. by apply Hkeep.
      * assert (psl = psc) by congruence. subst psl.
        unfold psc1. by apply propagating_node_override.
    + exists psl. split; [|done].
      apply lookup_app_l_Some. apply Hkeep. simpl.
      by rewrite list_lookup_insert_ne.
  - intros l o Hlne Hl. apply lookup_app_l_Some. apply Hkeep. simpl.
    by rewrite list_lookup_insert_ne.
  - intros l o Hl. by apply lookup_app_l_Some.
  - apply lookup_app_l_Some. by apply Hkeep.
  - apply Hkeep in Hlc1. apply lookup_lt_Some in Hlc1.
    destruct (decide (length (heap st) <= n)) as [|Hgt]; [done|].
    exfalso.
    assert (Hlast : is_Some (heap st !! n)) by (apply lookup_lt_is_Some; lia).
    destruct Hlast as [o Ho].
    assert (Hin : heap stu !! n = Some o \/ n = lc).
    { destruct (decide (n = lc)) as [|Hn]; [by right|left].
      apply Hkeep. simpl. by rewrite list_lookup_insert_ne. }
    destruct Hin as [Hin|Heq].
    + apply lookup_lt_Some in Hin. unfold n in Hin. lia.
    + unfold n in Heq. lia.
  - simpl in Hsym. exact Hsym.
  - rewrite length_app. simpl. unfold n. lia.
Qed.
End CommitVia.

Lemma read_state_tracked host st p ps k y lc psc s :
  heap st !! p = Some (Obj ps) ->
  tracks ps (k, y, VRef lc) ->
  heap st !! lc = Some (Obj psc) ->
  propagating_node psc s ->
  exists st', read_state (call host 1) (VRef p) k st = Ok (s, st').
Proof.
  intros Hp (_ & (fa & Hk) & (fy & Hy)) Hlc Hnode.
  pose proof (propagating_node_override psc s (create_propagate_up y (VRef p))
                Hnode) as ((fs & Hs) & _).
  destruct Hnode as (_ & _ & _ & (old & Hold & Hconf)).
  unfold read_state.
  erewrite bind_Ok; [|by eapply tracked_read].
  eexists. eapply get_data; [|exact Hs].
  simpl. by eapply heap_insert_eq.
Qed.
Lemma tracks_store_other ps k y c y' v fl :
  tracks ps (k, y, c) -> y' <> y ->
  tracks (store_prop (KSym y') (PData v fl) ps) (k, y, c).
Proof.
  intros (Hy & (fa & Hk) & (fy & Hc)) Hne. split; [done|]. split.
  - exists fa. by rewrite lookup_store_ne.
  - exists fy. rewrite lookup_store_ne by congruence. done.
Qed.

Lemma tracks_store_same ps k y c v fl :
  tracks ps (k, y, c) ->
  tracks (store_prop (KSym y) (PData v fl) ps) (k, y, v).
Proof.
  intros (Hy & (fa & Hk) & _). split; [done|]. split.
  - exists fa. by rewrite lookup_store_ne.
  - exists fl. apply lookup_store_eq.
Qed.

Lemma child_state_node st p ps y l psl s fl :
  heap st !! p = Some (Obj ps) ->
  lookup_prop (KSym y) ps = Some (PData (VRef l) fl) ->
  heap st !! l = Some (Obj psl) ->
  propagating_node psl s ->
  child_state st (VRef p) y = Some s.
Proof.
  intros Hp Hy Hl ((fs & Hs) & _). unfold child_state.
  rewrite (field_data _ _ _ _ _ _ Hp Hy). simpl. by eapply field_data.
Qed.

Lemma tracked_read_node host fuel st p ps k y lc psc s :
  heap st !! p = Some (Obj ps) ->
  tracks ps (k, y, VRef lc) ->
  heap st !! lc = Some (Obj psc) ->
  propagating_node psc s ->
  util.get (call host (S fuel)) (KStr k) (VRef p) st
  = Ok (VRef lc,
        put lc (overridden SymPropagate (create_propagate_up y (VRef p)) psc) st).
Proof.
  intros Hp (_ & (fa & Hk) & (fy & Hy)) Hlc (_ & _ & _ & (old & Hold & Hconf)).
  by eapply tracked_read.
Qed.

(** C1, as amended. In index.mjs, for a parent tracking two sibling keys
    [a] and [b] whose children are nodes with Commutes and Propagates, and
    for updaters that return a result and change no object that exists
    (they may read the store and allocate, as [update(`color`)(...)] does):
    committing on the child at [a] returns a parent where [a] holds the
    updated state and [b] the state it had; committing then on the child
    at [b] of that parent returns a parent in which both children hold
    their own updated states, under the hidden symbols and as read through
    the public keys, and nothing the first commit left in the store has
    changed but the propagate slot of the second child. Each updater runs
    in the store the read of its key leaves. *)
Theorem siblings_keep_their_own_updates
    (host : (val -> val -> val -> M val) -> nat -> val -> val -> M val)
    (fuel : nat) (st : state) (p : loc) (ps : props)
    (a b : string) (ya yb : symbol) (la lb : loc) (psa psb : props)
    (sa sb ua ub : val) :
  heap st !! p = Some (Obj ps) ->
  tracks ps (a, ya, VRef la) ->
  tracks ps (b, yb, VRef lb) ->
  a <> b ->
  heap st !! la = Some (Obj psa) ->
  heap st !! lb = Some (Obj psb) ->
  la <> p -> lb <> p ->
  propagating_node psa sa ->
  propagating_node psb sb ->
  let invoke := call host (S (S (S fuel))) in
  exists sta,
    util.get invoke (KStr a) (VRef p) st = Ok (VRef la, sta)
    /\ forall sa' stua,
         call host fuel ua VUndef sa sta = Ok (sa', stua) ->
         keeps sta stua ->
         exists p1 st1 stb,
           commit_via invoke (VRef p) a ua st = Ok (VRef p1, st1)
           /\ child_state st1 (VRef p1) ya = Some sa'
           /\ child_state st1 (VRef p1) yb = Some sb
           /\ util.get invoke (KStr b) (VRef p1) st1 = Ok (VRef lb, stb)
           /\ forall sb' stub,
                call host fuel ub VUndef sb stb = Ok (sb', stub) ->
                keeps stb stub ->
                exists p2 st2,
                  commit_via invoke (VRef p1) b ub st1 = Ok (VRef p2, st2)
                  /\ child_state st2 (VRef p2) ya = Some sa'
                  /\ child_state st2 (VRef p2) yb = Some sb'
                  /\ Fixtures.value (read_state (call host 1) (VRef p2) a st2)
                     = Some sa'
                  /\ Fixtures.value (read_state (call host 1) (VRef p2) b st2)
                     = Some sb'
                  /\ (forall l o, l <> lb -> heap stua !! l = Some o ->
                        heap st2 !! l = Some o).
Proof.
  intros Hp Ha Hb Hab Hla Hlb Hlap Hlbp Hna Hnb invoke.
  assert (Hy : ya <> yb).
  { destruct Ha as ((na & ->) & _), Hb as ((nb & ->) & _). congruence. }
  eexists. split; [by eapply tracked_read_node|].
  intros sa' stua Hua Hka.
  destruct (mjs_commit_via_step host fuel st p ps a ya la psa sa sa' ua stua
              Hp Ha Hla Hlap Hna Hua Hka)
    as (st1 & psa2 & Hrun1 & Hp1 & Hla1 & Hna1 & Hkeep1 & Hframe1 & Hfu1 & _
        & Hlen1 & _).
  set (n := length (heap stua)) in *.
  set (ps1 := store_prop (KSym ya) (PData (VRef n) d_literal) ps) in *.
  destruct (Hkeep1 lb psb sb Hlb Hnb) as (psb1 & Hlb1 & Hnb1).
  assert (Hltb : lb < n).
  { apply lookup_lt_Some in Hlb. lia. }
  assert (Ha1 : tracks ps1 (a, ya, VRef n)) by (by eapply tracks_store_same).
  assert (Hb1 : tracks ps1 (b, yb, VRef lb)) by (by apply tracks_store_other).
  assert (Hlbp1 : lb <> S n) by lia.
  exists (S n), st1. eexists.
  split; [exact Hrun1|]. split; [|split; [|split]].
  - destruct Ha1 as (_ & _ & (fy & Hya)). by eapply child_state_node.
  - destruct Hb1 as (_ & _ & (fy & Hyb)). by eapply child_state_node.
  - by eapply tracked_read_node.
  - intros sb' stub Hub Hkb.
    destruct (mjs_commit_via_step host fuel st1 (S n) ps1 b yb lb psb1 sb sb' ub
                stub Hp1 Hb1 Hlb1 Hlbp1 Hnb1 Hub Hkb)
      as (st2 & psb2 & Hrun2 & Hp2 & Hlb2 & Hnb2 & Hkeep2 & Hframe2 & _).
    set (m := length (heap stub)) in *.
    set (ps2 := store_prop (KSym yb) (PData (VRef m) d_literal) ps1) in *.
    destruct (Hkeep2 n psa2 sa' Hla1 Hna1) as (psa3 & Hla2 & Hna2).
    assert (Ha2 : tracks ps2 (a, ya, VRef n)) by (by apply tracks_store_other).
    assert (Hb2 : tracks ps2 (b, yb, VRef m)) by (by eapply tracks_store_same).
    exists (S m), st2. split; [exact Hrun2|].
    split; [|split; [|split; [|split]]].
    + destruct Ha2 as (_ & _ & (fy & Hya)). by eapply child_state_node.
    + destruct Hb2 as (_ & _ & (fy & Hyb)). by eapply child_state_node.
    + destruct (read_state_tracked host st2 (S m) ps2 a ya n psa3 sa'
                  Hp2 Ha2 Hla2 Hna2) as (st3 & ->). done.
    + destruct (read_state_tracked host st2 (S m) ps2 b yb m psb2 sb'
                  Hp2 Hb2 Hlb2 Hnb2) as (st3 & ->). done.
    + intros l o Hl Ho. apply Hframe2; [done|]. by apply Hfu1.
Qed.

(** A store that only grew keeps the one it grew from. *)
Lemma keeps_prefix st st' :
  take (length (heap st)) (heap st') = heap st ->
  next_symbol st <= next_symbol st' ->
  keeps st st'.
Proof.
  intros Ht Hn. split; [|done]. intros l o Hl.
  rewrite <- Ht in Hl. by apply lookup_take_Some in Hl as [Hl _].
Qed.

(** The Tree example of index.mjs: [Tree().leaf.turn().leaf2.turn()], with
    the updater [update(`color`)(...)] that allocates the new state. *)
Lemma siblings_keep_their_own_updates_witness :
  let host := Fixtures.host VUndef in
  let turn := Fixtures.turn_updater in
  let leaf := SymTrackedChild 0 "leaf" in
  let leaf2 := SymTrackedChild 1 "leaf2" in
  exists st,
    Fixtures.Tree_mjs Fixtures.st0 = Ok (VRef 11, st)
    /\ exists p1 st1 p2 st2 s s2,
         commit_via (call host 4) (VRef 11) "leaf" turn st = Ok (VRef p1, st1)
         /\ commit_via (call host 4) (VRef p1) "leaf2" turn st1 = Ok (VRef p2, st2)
         /\ child_state st2 (VRef p2) leaf = Some s
         /\ child_state st2 (VRef p2) leaf2 = Some s2
         /\ field st2 s (KStr "color") = Some (VStr "brown")
         /\ field st2 s2 (KStr "color") = Some (VStr "brown").
Proof.
  intros host turn leaf leaf2.
  eexists. split; [vm_compute; reflexivity|].
  match goal with |- context [commit_via _ _ _ _ ?s] => set (st := s) end.
  destruct (siblings_keep_their_own_updates host 1 st 11
              (match heap st !! 11 with Some (Obj ps) => ps | _ => [] end)
              "leaf" "leaf2" leaf leaf2 1 3
              (match heap st !! 1 with Some (Obj ps) => ps | _ => [] end)
              (match heap st !! 3 with Some (Obj ps) => ps | _ => [] end)
              (VRef 0) (VRef 2) turn turn)
    as (sta & Hread & Hrest).
  - reflexivity.
  - split; [by eexists|split; eexists; reflexivity].
  - split; [by eexists|split; eexists; reflexivity].
  - discriminate.
  - reflexivity.
  - reflexivity.
  - discriminate.
  - discriminate.
  - split; [eexists; reflexivity|].
    split; [reflexivity|]. split; [reflexivity|]. eexists. split; reflexivity.
  - split; [eexists; reflexivity|].
    split; [reflexivity|]. split; [reflexivity|]. eexists. split; reflexivity.
  - vm_compute in Hread. injection Hread as <-.
    lazymatch type of Hrest with
    | forall sa' stua, call ?h ?f ?u ?t ?x ?s0 = _ -> _ =>
        lazymatch eval vm_compute in (call h f u t x s0) with
        | Ok (?v, ?stu) =>
            destruct (Hrest v stu)
              as (p1 & st1 & stb & Hc1 & _ & _ & Hread2 & Hrest2)
        end
    end.
    + vm_compute. reflexivity.
    + apply keeps_prefix; [vm_compute; reflexivity|vm_compute; lia].
    + pose proof Hc1 as Hrun1.
      vm_compute in Hc1. injection Hc1 as <- <-.
      vm_compute in Hread2. injection Hread2 as <-.
      lazymatch type of Hrest2 with
      | forall sb' stub, call ?h ?f ?u ?t ?x ?s0 = _ -> _ =>
          lazymatch eval vm_compute in (call h f u t x s0) with
          | Ok (?v, ?stu) =>
              destruct (Hrest2 v stu)
                as (p2 & st2 & Hc2 & Hsa & Hsb & _)
          end
      end.
      * vm_compute. reflexivity.
      * apply keeps_prefix; [vm_compute; reflexivity|vm_compute; lia].
      * pose proof Hc2 as Hrun2.
        vm_compute in Hc2. injection Hc2 as <- <-.
        eexists _, _, _, _, _, _.
        split; [exact Hrun1|]. split; [exact Hrun2|].
        split; [exact Hsa|]. split; [exact Hsb|].
        split; vm_compute; reflexivity.
Defined.

(** In index.js the parent a child propagates into is the one captured when
    the key was tracked. In the two-leaf tree, turning [leaf] and then
    [leaf2] of the parent returned gives a parent whose [leaf2] is brown
    and whose [leaf] is green again: the first update is lost. *)
Lemma snapshot_parent_loses_sibling_update :
  exists tree st t1 st1 t2 st2,
    Fixtures.Tree2_js Fixtures.st0 = Ok (tree, st)
    /\ Fixtures.turn_leaf "leaf" tree st = Ok (t1, st1)
    /\ Fixtures.value (Fixtures.color t1 "leaf" st1) = Some (VStr "brown")
    /\ Fixtures.turn_leaf "leaf2" t1 st1 = Ok (t2, st2)
    /\ Fixtures.value (Fixtures.color t2 "leaf2" st2) = Some (VStr "brown")
    /\ Fixtures.value (Fixtures.color t2 "leaf" st2) = Some (VStr "green").
Proof.
  eexists _, _, _, _, _, _.
  repeat (split; [vm_compute; reflexivity|]). vm_compute. reflexivity.
Qed.

(** The Tree example of index.mjs, "and there is no caching or lossy
    updating": the same two turns leave both leaves brown. *)
Lemma dynamic_parent_keeps_sibling_update :
  exists tree st t1 st1 t2 st2,
    Fixtures.Tree_mjs Fixtures.st0 = Ok (tree, st)
    /\ Fixtures.turn_leaf "leaf" tree st = Ok (t1, st1)
    /\ Fixtures.turn_leaf "leaf2" t1 st1 = Ok (t2, st2)
    /\ Fixtures.value (Fixtures.color t2 "leaf2" st2) = Some (VStr "brown")
    /\ Fixtures.value (Fixtures.color t2 "leaf" st2) = Some (VStr "brown").
Proof.
  eexists _, _, _, _, _, _.
  repeat (split; [vm_compute; reflexivity|]). vm_compute. reflexivity.
Qed.

(** * More of the two files *)

(** ** Attaching again, and overriding the commit *)

Lemma store_prop_same k p ps :
  lookup_prop k ps = Some p -> store_prop k p ps = ps.
Proof.
  induction ps as [|[k' p'] ps IH]; simpl; [done|].
  destruct (decide (k = k')) as [->|Hne]; [congruence|].
  intros H. by rewrite IH.
Qed.

Lemma store_prop_twice k p q ps :
  store_prop k p (store_prop k q ps) = store_prop k p ps.
Proof.
  induction ps as [|[k' p'] ps IH]; simpl.
  - by rewrite decide_True.
  - destruct (decide (k = k')) as [->|Hne]; simpl.
    + by rewrite decide_True.
    + rewrite decide_False by done. by rewrite IH.
Qed.

Lemma put_put l ps ps' st : put l ps (put l ps' st) = put l ps st.
Proof. unfold put. simpl. by rewrite list_insert_insert_eq. Qed.

Lemma put_lookup l ps ps' st :
  heap st !! l = Some (Obj ps') -> heap (put l ps st) !! l = Some (Obj ps).
Proof. intros H. simpl. by eapply heap_insert_eq. Qed.

Lemma put_lookup_ne l l' ps st :
  l' <> l -> heap (put l ps st) !! l' = heap st !! l'.
Proof. intros H. simpl. by apply list_lookup_insert_ne. Qed.

(** The public [commute] of a node only delegates to the private slot. *)
Lemma commit_delegates host fuel st l ps m fl u :
  heap st !! l = Some (Obj ps) ->
  lookup_prop commute_key ps = Some (PData (VFun F_proxy_commute) d_nothing) ->
  lookup_prop (KSym SymCommute) ps = Some (PData m fl) ->
  commit (call host (S fuel)) (VRef l) u st = call host fuel m (VRef l) u st.
Proof.
  intros Hl Hm Hc. erewrite commit_proxy by done.
  erewrite bind_Ok; [reflexivity|]. by eapply get_data.
Qed.

(** X1. index.mjs refuses to attach Commutes twice: on a node that has
    [state] and already carries the private commit slot, [Commutes] prints
    "already Commutes", returns the node and leaves the store as it was, so
    whatever the slot holds (a wrapper, an override) stays. *)
Theorem mjs_Commutes_again_is_refused (st : state) (l : loc) (ps : props) :
  heap st !! l = Some (Obj ps) ->
  is_Some (lookup_prop state_key ps) ->
  is_Some (lookup_prop (KSym SymCommute) ps) ->
  IndexMjs.Commutes (VRef l) st
  = Ok (VRef l, log "Commutes: `target` is already `Commutes`!" st).
Proof.
  intros Hl [s Hs] [c Hc].
  unfold IndexMjs.Commutes.
  erewrite bind_Ok; [|apply console_assert_true; by eapply has_data].
  erewrite bind_Ok.
  2: { apply console_assert_false. unfold util.not. by erewrite has_data. }
  apply when_false. unfold util.and, util.not.
  rewrite !has_log. erewrite !has_data by done. reflexivity.
Qed.

Lemma mjs_Commutes_again_is_refused_witness :
  IndexMjs.Commutes (VRef 0) Fixtures.st_counter
  = Ok (VRef 0, log "Commutes: `target` is already `Commutes`!" Fixtures.st_counter).
Proof.
  apply (mjs_Commutes_again_is_refused Fixtures.st_counter 0
           (with_commute Fixtures.counter)).
  - reflexivity.
  - by eexists.
  - by eexists.
Defined.

(** X2. index.js has no such guard: [Commutes] on a node that already
    commutes puts [_commute] back into the private slot (the public
    [commute] is defined again with the same descriptor). A wrapper that
    Propagates or an override had put there is gone: from then on
    [commute(updater)] is [_commute] on the node and nothing propagates. *)
Theorem js_Commutes_again_resets_commit
    (host : (val -> val -> val -> M val) -> nat -> val -> val -> M val)
    (st : state) (l : loc) (ps : props) (old : prop) :
  heap st !! l = Some (Obj ps) ->
  is_Some (lookup_prop state_key ps) ->
  lookup_prop (KSym SymCommute) ps = Some old ->
  configurable (prop_flags old) = true ->
  lookup_prop commute_key ps = Some (PData (VFun F_proxy_commute) d_nothing) ->
  let st1 := put l (util.applied (KSym SymCommute) Commutes_property ps) st in
  IndexJs.Commutes (VRef l) st = Ok (VRef l, st1)
  /\ forall fuel u,
       commit (call host (S fuel)) (VRef l) u st1
       = call host fuel (VFun F_commute) (VRef l) u st1.
Proof.
  intros Hl [s Hs] Hc Hconf Hm st1.
  assert (Hl1 : heap st1 !! l
                = Some (Obj (util.applied (KSym SymCommute) Commutes_property ps))).
  { by eapply put_lookup. }
  destruct (applied_data (KSym SymCommute) (VFun F_commute) d_configurable ps)
    as (fc & Hfc & _).
  fold Commutes_property in Hfc.
  split.
  - unfold IndexJs.Commutes.
    erewrite bind_Ok; [|apply console_assert_true; by eapply has_data].
    rewrite when_true by (by eapply has_data).
    unfold attach_commute.
    erewrite bind_Ok.
    2: { eapply define_ok; [done|]. by eapply define_prop_configurable. }
    change (set_heap _ st) with st1.
    set (ps1 := util.applied (KSym SymCommute) Commutes_property ps) in *.
    assert (Hm1 : lookup_prop commute_key ps1
                  = Some (PData (VFun F_proxy_commute) d_nothing)).
    { unfold ps1. by rewrite applied_lookup_ne. }
    rewrite (define_ok st1 l ps1 Hl1 commute_key _ ps1).
    + unfold st1, put. simpl. by rewrite list_insert_insert_eq.
    + unfold util.define_prop. rewrite Hm1.
      change (util.redefinable _ _) with true.
      f_equal. erewrite applied_old by exact Hm1.
      by apply store_prop_same.
  - intros fuel u. eapply commit_delegates; [exact Hl1| |exact Hfc].
    by rewrite applied_lookup_ne.
Qed.

Lemma js_Commutes_again_resets_commit_witness :
  let host := Fixtures.host (VRef 0) in
  let st1 := put 2 (util.applied (KSym SymCommute) Commutes_property
                      Fixtures.propagating) Fixtures.st_smoke in
  IndexJs.Commutes (VRef 2) Fixtures.st_smoke = Ok (VRef 2, st1)
  /\ forall fuel u,
       commit (call host (S fuel)) (VRef 2) u st1
       = call host fuel (VFun F_commute) (VRef 2) u st1.
Proof.
  intros host st1.
  apply (js_Commutes_again_resets_commit host Fixtures.st_smoke 2
           Fixtures.propagating
           (PData (VFun (F_propagating_commute (VFun F_commute))) d_configurable)).
  - reflexivity.
  - by eexists.
  - reflexivity.
  - reflexivity.
  - reflexivity.
Defined.

(** X3. [Commutes.override(h)] replaces the whole commit behaviour: the
    public [commute(updater)] then is [h] called on the node with the
    updater. After Propagates the slot it replaces is the propagating
    wrapper, so the override also ends the call of the propagate slot. *)
Theorem override_commute_replaces_commit
    (host : (val -> val -> val -> M val) -> nat -> val -> val -> M val)
    (st : state) (l : loc) (ps : props) (old : prop) (h : val) :
  heap st !! l = Some (Obj ps) ->
  lookup_prop commute_key ps = Some (PData (VFun F_proxy_commute) d_nothing) ->
  lookup_prop (KSym SymCommute) ps = Some old ->
  configurable (prop_flags old) = true ->
  let st1 := put l (overridden SymCommute h ps) st in
  _override_commute h (VRef l) st = Ok (VRef l, st1)
  /\ forall fuel u,
       commit (call host (S fuel)) (VRef l) u st1
       = call host fuel h (VRef l) u st1.
Proof.
  intros Hl Hm Hc Hconf st1. split.
  - unfold _override_commute. eapply override_internal_ok; [done..|].
    unfold util.redefinable. by rewrite Hconf.
  - intros fuel u.
    destruct (applied_data (KSym SymCommute) h d_configurable ps)
      as (fh & Hfh & _).
    eapply commit_delegates.
    + by eapply put_lookup.
    + unfold overridden. by rewrite applied_lookup_ne.
    + exact Hfh.
Qed.

Lemma override_commute_replaces_commit_witness :
  let host := Fixtures.host (VRef 0) in
  let h := VFun (F_host Fixtures.h_emit_smoke) in
  let st1 := put 2 (overridden SymCommute h Fixtures.propagating)
               Fixtures.st_smoke in
  _override_commute h (VRef 2) Fixtures.st_smoke = Ok (VRef 2, st1)
  /\ forall fuel u,
       commit (call host (S fuel)) (VRef 2) u st1
       = call host fuel h (VRef 2) u st1.
Proof.
  intros host h st1.
  apply (override_commute_replaces_commit host Fixtures.st_smoke 2
           Fixtures.propagating
           (PData (VFun (F_propagating_commute (VFun F_commute))) d_configurable)
           h); reflexivity.
Defined.

(** ** Attaching Propagates to a node that already propagates *)

Lemma Propagates_over invoke st l ps c fl old :
  heap st !! l = Some (Obj ps) ->
  lookup_prop (KSym SymCommute) ps = Some (PData c fl) ->
  configurable fl = true ->
  lookup_prop (KSym SymPropagate) ps = Some old ->
  configurable (prop_flags old) = true ->
  Propagates invoke (VRef l) st = Ok (VRef l, put l (with_propagate c ps) st).
Proof.
  intros Hl Hc Hfl Hp Hold.
  unfold Propagates.
  erewrite bind_Ok; [|apply console_assert_true; by eapply has_data].
  rewrite when_true by (by eapply has_data).
  erewrite bind_Ok.
  2: { eapply define_ok; [done|]. by eapply define_prop_configurable. }
  unfold _wrap_commute.
  erewrite bind_Ok.
  2: { eapply get_data.
       - simpl. by eapply heap_insert_eq.
       - rewrite applied_lookup_ne by done. exact Hc. }
  unfold _override_commute.
  erewrite override_internal_ok.
  - unfold put, with_propagate, overridden. simpl.
    by rewrite list_insert_insert_eq.
  - simpl. by eapply heap_insert_eq.
  - rewrite applied_lookup_ne by done. exact Hc.
  - unfold util.redefinable. simpl. by rewrite Hfl.
Qed.

(** X4. [Propagates] has no guard against a second attachment. On a node
    that already propagates it puts the identity back into the propagate
    slot, dropping whatever override was installed there (by
    [Propagates.override] or by tracking in index.js), and wraps the
    wrapper once more. Afterwards [commute(updater)] returns what the commit
    behaviour under the first wrapper returns: the result goes through the
    identity twice and reaches no parent. *)
Theorem Propagates_again_drops_override
    (host : (val -> val -> val -> M val) -> nat -> val -> val -> M val)
    (invoke : val -> val -> val -> M val)
    (st : state) (l : loc) (ps : props) (c0 : val) (fl : flags) (old : prop) :
  heap st !! l = Some (Obj ps) ->
  lookup_prop commute_key ps = Some (PData (VFun F_proxy_commute) d_nothing) ->
  lookup_prop (KSym SymCommute) ps = Some (PData (_commute_wrapper c0) fl) ->
  configurable fl = true ->
  lookup_prop (KSym SymPropagate) ps = Some old ->
  configurable (prop_flags old) = true ->
  let st1 := put l (with_propagate (_commute_wrapper c0) ps) st in
  Propagates invoke (VRef l) st = Ok (VRef l, st1)
  /\ field st1 (VRef l) (KSym SymPropagate) = Some (VFun F_id)
  /\ field st1 (VRef l) (KSym SymCommute)
     = Some (_commute_wrapper (_commute_wrapper c0))
  /\ forall fuel u r,
       call host (S fuel) c0 (VRef l) u st1 = Ok r ->
       commit (call host (S (S (S (S fuel))))) (VRef l) u st1 = Ok r.
Proof.
  intros Hl Hm Hc Hfl Hp Hold st1.
  assert (Hl1 : heap st1 !! l
                = Some (Obj (with_propagate (_commute_wrapper c0) ps))).
  { by eapply put_lookup. }
  assert (Hp1 : exists fp,
            lookup_prop (KSym SymPropagate)
              (with_propagate (_commute_wrapper c0) ps)
            = Some (PData (VFun F_id) fp)).
  { unfold with_propagate. rewrite applied_lookup_ne by done.
    destruct (applied_data (KSym SymPropagate) (VFun F_id) d_configurable ps)
      as (fp & Hfp & _). by exists fp. }
  assert (Hc1 : exists fc,
            lookup_prop (KSym SymCommute)
              (with_propagate (_commute_wrapper c0) ps)
            = Some (PData (VFun (F_propagating_commute (_commute_wrapper c0)))
                      fc)).
  { unfold with_propagate.
    destruct (applied_data (KSym SymCommute)
                (VFun (F_propagating_commute (_commute_wrapper c0)))
                d_configurable
                (util.applied (KSym SymPropagate)
                   (PData (VFun F_id) d_configurable) ps))
      as (fc & Hfc & _). by exists fc. }
  destruct Hp1 as (fp & Hp1). destruct Hc1 as (fc & Hc1).
  split; [by eapply Propagates_over|].
  split; [by eapply field_data|]. split; [by eapply field_data|].
  intros fuel u [v st'] Hr.
  erewrite commit_delegates; [|exact Hl1| |exact Hc1].
  2: { unfold with_propagate. by rewrite !applied_lookup_ne. }
  change (propagating_commute (call host (S (S fuel))) (_commute_wrapper c0)
            (VRef l) u st1 = Ok (v, st')).
  unfold propagating_commute.
  erewrite bind_Ok; [|by eapply get_data].
  erewrite bind_Ok; [reflexivity|].
  change (propagating_commute (call host (S fuel)) c0 (VRef l) u st1
          = Ok (v, st')).
  unfold propagating_commute.
  erewrite bind_Ok; [|by eapply get_data].
  erewrite bind_Ok; [|exact Hr]. reflexivity.
Qed.

Lemma Propagates_again_drops_override_witness :
  let host := Fixtures.host (VRef 0) in
  let st1 := put 2 (with_propagate (_commute_wrapper (VFun F_commute))
                      Fixtures.smoking) Fixtures.st_smoking in
  Propagates (Fixtures.run 1) (VRef 2) Fixtures.st_smoking = Ok (VRef 2, st1)
  /\ field st1 (VRef 2) (KSym SymPropagate) = Some (VFun F_id)
  /\ exists r,
       call host 2 (VFun F_commute) (VRef 2) (VFun (F_host Fixtures.h_push_0)) st1
       = Ok r
       /\ commit (call host 5) (VRef 2) (VFun (F_host Fixtures.h_push_0)) st1
          = Ok r.
Proof.
  intros host st1.
  destruct (Propagates_again_drops_override host (Fixtures.run 1)
              Fixtures.st_smoking 2 Fixtures.smoking (VFun F_commute)
              d_configurable
              (PData (VFun (F_host Fixtures.h_emit_smoke)) d_configurable))
    as (Hrun & Hid & _ & Hcommit); try reflexivity.
  split; [exact Hrun|]. split; [exact Hid|].
  eexists. split; [reflexivity|]. apply Hcommit. reflexivity.
Defined.

(** ** Reading a tracked key more than once *)

(** Overriding a slot twice leaves what the second override alone leaves. *)
Lemma overridden_twice y r r' ps :
  overridden y r (overridden y r' ps) = overridden y r ps.
Proof.
  unfold overridden, util.applied. rewrite lookup_store_eq, store_prop_twice.
  f_equal.
  destruct (lookup_prop (KSym y) ps) as [[v0 [c e w]|g [c e w]]|]; simpl;
    [destruct c, e, w; reflexivity..|reflexivity].
Qed.

(** X5. In index.mjs reading a tracked key is idempotent: a second read
    through the same parent returns the same child and leaves the store
    exactly as the first read left it (the getter installs the same
    override again). *)
Theorem tracked_read_is_idempotent
    (host : (val -> val -> val -> M val) -> nat -> val -> val -> M val)
    (fuel : nat) (st : state) (p : loc) (ps : props) (k : string) (y : symbol)
    (lc : loc) (psc : props) (old : prop) :
  heap st !! p = Some (Obj ps) ->
  tracks ps (k, y, VRef lc) ->
  heap st !! lc = Some (Obj psc) ->
  lc <> p ->
  lookup_prop (KSym SymPropagate) psc = Some old ->
  configurable (prop_flags old) = true ->
  let read := util.get (call host (S fuel)) (KStr k) (VRef p) in
  exists st1,
    read st = Ok (VRef lc, st1)
    /\ read st1 = Ok (VRef lc, st1).
Proof.
  intros Hp (_ & (fa & Hk) & (fy & Hy)) Hlc Hne Hold Hconf read.
  destruct (applied_data (KSym SymPropagate) (create_propagate_up y (VRef p))
              d_configurable psc) as (fp & Hfp & Hcp).
  eexists. split; [by eapply tracked_read|].
  unfold read. erewrite tracked_read.
  - rewrite overridden_twice. by rewrite put_put.
  - rewrite put_lookup_ne by done. exact Hp.
  - exact Hk.
  - exact Hy.
  - by eapply put_lookup.
  - exact Hfp.
  - by apply Hcp.
Qed.

Lemma tracked_read_is_idempotent_witness :
  exists st,
    Fixtures.Counters_mjs Fixtures.st0 = Ok (VRef 9, st)
    /\ exists st1,
         util.get (call (Fixtures.host VUndef) 1) (KStr "a") (VRef 9) st
         = Ok (VRef 0, st1)
         /\ util.get (call (Fixtures.host VUndef) 1) (KStr "a") (VRef 9) st1
            = Ok (VRef 0, st1).
Proof.
  eexists. split; [vm_compute; reflexivity|].
  match goal with |- context [util.get _ _ _ ?s] => set (st := s) end.
  apply (tracked_read_is_idempotent (Fixtures.host VUndef) 0 st 9
           (match heap st !! 9 with Some (Obj ps) => ps | _ => [] end)
           "a" (SymTrackedChild 0 "a") 0
           (match heap st !! 0 with Some (Obj ps) => ps | _ => [] end)
           (PData (VFun F_id) d_configurable)).
  - reflexivity.
  - split; [by eexists|split; eexists; reflexivity].
  - reflexivity.
  - discriminate.
  - reflexivity.
  - reflexivity.
Defined.

(** X6. In index.mjs the child is shared between the copies of a parent
    and has one propagate slot, which every read overwrites: the child
    propagates into the parent it was read through last. Holding the child
    read from one parent, a read of the same child through another parent
    re-aims it, and the commit on the child held is the commit through the
    other parent. *)
Theorem last_read_decides_the_parent
    (host : (val -> val -> val -> M val) -> nat -> val -> val -> M val)
    (fuel : nat) (st : state) (p1 p2 : loc) (ps1 ps2 : props)
    (k1 k2 : string) (y1 y2 : symbol) (lc : loc) (psc : props) (old : prop)
    (u : val) :
  heap st !! p1 = Some (Obj ps1) ->
  heap st !! p2 = Some (Obj ps2) ->
  tracks ps1 (k1, y1, VRef lc) ->
  tracks ps2 (k2, y2, VRef lc) ->
  heap st !! lc = Some (Obj psc) ->
  lc <> p1 -> lc <> p2 ->
  lookup_prop (KSym SymPropagate) psc = Some old ->
  configurable (prop_flags old) = true ->
  let invoke := call host (S fuel) in
  (held ← util.get invoke (KStr k1) (VRef p1);
   _ ← util.get invoke (KStr k2) (VRef p2);
   commit invoke held u) st
  = commit_via invoke (VRef p2) k2 u st.
Proof.
  intros Hp1 Hp2 (_ & (fa1 & Hk1) & (fy1 & Hy1)) (_ & (fa2 & Hk2) & (fy2 & Hy2))
    Hlc Hne1 Hne2 Hold Hconf invoke.
  destruct (applied_data (KSym SymPropagate) (create_propagate_up y1 (VRef p1))
              d_configurable psc) as (fp & Hfp & Hcp).
  unfold invoke, commit_via.
  erewrite bind_Ok; [|by eapply tracked_read].
  erewrite bind_Ok.
  2: { eapply tracked_read.
       - rewrite put_lookup_ne by done. exact Hp2.
       - exact Hk2.
       - exact Hy2.
       - by eapply put_lookup.
       - exact Hfp.
       - by apply Hcp. }
  rewrite overridden_twice, put_put.
  erewrite (bind_Ok (util.get _ (KStr k2) (VRef p2))); [|by eapply tracked_read].
  reflexivity.
Qed.

(** After [leaf] of the two-leaf tree was turned, [leaf2] is one object
    under the old and the new parent. *)
Lemma last_read_decides_the_parent_witness :
  exists tree st t1 st1,
    Fixtures.Tree_mjs Fixtures.st0 = Ok (tree, st)
    /\ Fixtures.turn_leaf "leaf" tree st = Ok (t1, st1)
    /\ (held ← util.get (Fixtures.run 1) (KStr "leaf2") tree;
        _ ← util.get (Fixtures.run 1) (KStr "leaf2") t1;
        commit (Fixtures.run 1) held Fixtures.turn_updater) st1
       = commit_via (Fixtures.run 1) t1 "leaf2" Fixtures.turn_updater st1.
Proof.
  eexists _, _, _, _. split; [vm_compute; reflexivity|].
  split; [vm_compute; reflexivity|].
  match goal with |- context [commit_via _ (VRef ?q) _ _ ?s] =>
    set (st1 := s); set (p2 := q) end.
  apply (last_read_decides_the_parent (Fixtures.host VUndef) 0 st1 11 p2
           (match heap st1 !! 11 with Some (Obj ps) => ps | _ => [] end)
           (match heap st1 !! p2 with Some (Obj ps) => ps | _ => [] end)
           "leaf2" "leaf2" (SymTrackedChild 1 "leaf2") (SymTrackedChild 1 "leaf2")
           3 (match heap st1 !! 3 with Some (Obj ps) => ps | _ => [] end)
           (PData (VFun F_id) d_configurable)).
  - reflexivity.
  - reflexivity.
  - split; [by eexists|split; eexists; reflexivity].
  - split; [by eexists|split; eexists; reflexivity].
  - reflexivity.
  - discriminate.
  - discriminate.
  - reflexivity.
  - reflexivity.
Defined.

(** ** Commits keep a parent tracked *)

Lemma with_child_keys y c es :
  map (fun e => VStr e.1.1) (with_child y c es) = map (fun e => VStr e.1.1) es
  /\ map (fun e => VSym e.1.2) (with_child y c es)
     = map (fun e => VSym e.1.2) es.
Proof.
  unfold with_child. rewrite <- !list_fmap_compose.
  split; apply list_fmap_ext; intros i e _; simpl;
    destruct (decide (e.1.2 = y)) as [<-|]; done.
Qed.

(** X7. In index.mjs a commit through a tracked key hands back a tracked
    parent, for every updater that returns a result and changes no object
    that exists (it may read the store and allocate): the new parent has
    the same ledger (keys and symbols, in order), the same getters, and
    under the symbol of the key, now an ordinary field, the updated child.
    The parent the commit went through is untouched, and so is every
    object of the store but the child read, which changes in its propagate
    slot only, and that at the read, before the updater runs. *)
Theorem commit_keeps_the_parent_tracked
    (host : (val -> val -> val -> M val) -> nat -> val -> val -> M val)
    (fuel : nat) (st : state) (p : loc) (ps : props)
    (es : list (string * symbol * val)) (k : string) (y : symbol)
    (lc : loc) (psc : props) (s u : val) :
  tracking st p ps es ->
  (k, y, VRef lc) ∈ es ->
  heap st !! lc = Some (Obj psc) ->
  lc <> p ->
  propagating_node psc s ->
  let invoke := call host (S (S (S fuel))) in
  let psc1 := overridden SymPropagate (create_propagate_up y (VRef p)) psc in
  util.get invoke (KStr k) (VRef p) st = Ok (VRef lc, put lc psc1 st)
  /\ forall s' stu,
       call host fuel u VUndef s (put lc psc1 st) = Ok (s', stu) ->
       keeps (put lc psc1 st) stu ->
       exists p' ps' st',
         commit_via invoke (VRef p) k u st = Ok (VRef p', st')
         /\ heap stu !! p' = None
         /\ tracking st' p' ps' (with_child y (VRef (length (heap stu))) es)
         /\ ledger_keys st' (VRef p') = ledger_keys st (VRef p)
         /\ ledger_symbols st' (VRef p') = ledger_symbols st (VRef p)
         /\ lookup_prop (KSym y) ps'
            = Some (PData (VRef (length (heap stu))) d_literal)
         /\ (forall k', k' <> KSym y -> lookup_prop k' ps' = lookup_prop k' ps)
         /\ child_state st' (VRef p') y = Some s'
         /\ heap st' !! p = Some (Obj ps)
         /\ heap st' !! lc = Some (Obj psc1)
         /\ (forall l o, l <> lc -> heap st !! l = Some o ->
               heap st' !! l = Some o)
         /\ (forall l o, heap stu !! l = Some o -> heap st' !! l = Some o).
Proof.
  intros Htr Hin Hlc Hne Hnode invoke psc1.
  destruct (tracking_ledger _ _ _ _ Htr) as [Hkeys Hsyms].
  destruct Htr as (Hp & (la & fl & refs & Ht & Hla & Hrefs) & Hes & Hfresh).
  assert (Hty : tracks ps (k, y, VRef lc)).
  { rewrite Forall_forall in Hes. by apply Hes. }
  split; [by eapply tracked_read_node|].
  intros s' stu Hu Hkeeps.
  destruct (mjs_commit_via_step host fuel st p ps k y lc psc s s' u stu
              Hp Hty Hlc Hne Hnode Hu Hkeeps)
    as (st' & psc2 & Hrun & Hp' & Hn & Hnode2 & _ & Hframe & Hfu & Hlc' & Hlen
        & Hsym & _).
  set (n := length (heap stu)) in *.
  set (ps' := store_prop (KSym y) (PData (VRef n) d_literal) ps) in *.
  assert (Hysym : exists n0, y = SymTrackedChild n0 k) by (by destruct Hty).
  assert (Hstate : exists fs, lookup_prop state_key psc = Some (PData s fs)).
  { by destruct Hnode. }
  assert (Htr' : tracking st' (S n) ps' (with_child y (VRef n) es)).
  { split; [exact Hp'|]. split; [|split].
    - exists la, fl, refs. split; [|split].
      + unfold ps'. destruct Hysym as (n0 & ->).
        rewrite lookup_store_ne by done. exact Ht.
      + apply Hframe; [|done]. intros ->. congruence.
      + unfold with_child. apply Forall2_fmap_r.
        eapply Forall2_impl; [exact Hrefs|].
        intros r e (le & -> & Hle).
        assert (Hle' : heap st' !! le = Some (IndexMjs.entry e.1.1 e.1.2)).
        { apply Hframe; [|done]. intros ->. rewrite Hlc in Hle.
          injection Hle as ->. destruct Hstate as (fs & Hs). simpl in Hs.
          done. }
        exists le. split; [done|].
        destruct (decide (e.1.2 = y)) as [<-|]; exact Hle'.
    - unfold with_child. apply Forall_fmap.
      eapply Forall_impl; [exact Hes|]. intros [[k0 y0] c0] H0. simpl.
      destruct (decide (y0 = y)) as [->|Hy0].
      + unfold ps'. eapply tracks_store_same. exact H0.
      + unfold ps'. by apply tracks_store_other.
    - intros n0 d Hn0. unfold ps'.
      assert (SymTrackedChild n0 d <> y).
      { intros Heq. destruct Hty as (_ & _ & (fy & Hy)).
        rewrite <- Heq, (Hfresh n0 d) in Hy; [done|lia]. }
      rewrite lookup_store_ne by congruence. apply Hfresh. lia. }
  exists (S n), ps', st'. split; [exact Hrun|].
  split; [apply lookup_ge_None; unfold n; lia|].
  split; [exact Htr'|].
  destruct (tracking_ledger _ _ _ _ Htr') as [Hkeys' Hsyms'].
  destruct (with_child_keys y (VRef n) es) as [Ek Es].
  split; [by rewrite Hkeys', Hkeys, Ek|].
  split; [by rewrite Hsyms', Hsyms, Es|].
  split; [apply lookup_store_eq|].
  split; [intros k' Hk'; by apply lookup_store_ne|].
  split; [|split; [|split; [|split]]].
  - eapply child_state_node; [exact Hp'|apply lookup_store_eq|exact Hn|done].
  - by apply Hframe.
  - exact Hlc'.
  - exact Hframe.
  - exact Hfu.
Qed.

(** The two-leaf tree of index.mjs, [leaf2] turned. *)
Lemma commit_keeps_the_parent_tracked_witness :
  let host := Fixtures.host VUndef in
  let turn := Fixtures.turn_updater in
  let leaf := SymTrackedChild 0 "leaf" in
  let leaf2 := SymTrackedChild 1 "leaf2" in
  exists st,
    Fixtures.Tree_mjs Fixtures.st0 = Ok (VRef 11, st)
    /\ exists p' st' s',
         commit_via (call host 4) (VRef 11) "leaf2" turn st = Ok (VRef p', st')
         /\ ledger_keys st' (VRef p') = Some [VStr "leaf"; VStr "leaf2"]
         /\ ledger_symbols st' (VRef p') = Some [VSym leaf; VSym leaf2]
         /\ child_state st' (VRef p') leaf2 = Some s'
         /\ field st' s' (KStr "color") = Some (VStr "brown")
         /\ heap st' !! 11 = heap st !! 11.
Proof.
  intros host turn leaf leaf2.
  eexists. split; [vm_compute; reflexivity|].
  match goal with |- context [commit_via _ _ _ _ ?s] => set (st := s) end.
  destruct (commit_keeps_the_parent_tracked host 1 st 11
           (match heap st !! 11 with Some (Obj ps) => ps | _ => [] end)
           [("leaf", leaf, VRef 1); ("leaf2", leaf2, VRef 3)]
           "leaf2" leaf2 3
           (match heap st !! 3 with Some (Obj ps) => ps | _ => [] end)
           (VRef 2) turn)
    as (_ & Hrest).
  - split; [reflexivity|]. split; [|split].
    + eexists _, _, _. split; [reflexivity|]. split; [reflexivity|].
      repeat constructor; eexists; split; reflexivity.
    + repeat constructor; eexists; reflexivity.
    + intros n d Hn. simpl in Hn. simpl.
      repeat (case_decide; [simplify_eq; lia|]). reflexivity.
  - apply list_elem_of_In. simpl. auto.
  - reflexivity.
  - discriminate.
  - split; [eexists; reflexivity|].
    split; [reflexivity|]. split; [reflexivity|]. eexists. split; reflexivity.
  - lazymatch type of Hrest with
    | forall s' stu, call ?h ?f ?u ?t ?x ?s0 = _ -> _ =>
        lazymatch eval vm_compute in (call h f u t x s0) with
        | Ok (?v, ?stu) =>
            destruct (Hrest v stu)
              as (p' & ps' & st' & Hrun & _ & _ & Hk & Hs & _ & _ & Hc & Hp & _)
        end
    end.
    + vm_compute. reflexivity.
    + apply keeps_prefix; [vm_compute; reflexivity|vm_compute; lia].
    + pose proof Hrun as Hrun'.
      vm_compute in Hrun'. injection Hrun' as <- <-.
      eexists _, _, _. split; [exact Hrun|].
      split; [rewrite Hk; vm_compute; reflexivity|].
      split; [rewrite Hs; vm_compute; reflexivity|].
      split; [exact Hc|]. split; [vm_compute; reflexivity|].
      rewrite Hp. reflexivity.
Defined.

(** ** Tracking and committing in index.js *)

(** X8. In index.js tracking an ordinary field that holds a propagating
    child changes the child in place, aiming its propagate slot at the
    parent handed in, and returns a new object that is a copy of that
    parent, property for property: the tracked key is written as an
    ordinary field holding the same child, which for a field of an object
    literal is the field as it was. The parent handed in is untouched and
    nothing is printed. *)
Theorem js_track_key_aims_at_its_argument
    (invoke : val -> val -> val -> M val)
    (st : state) (p : loc) (ps : props) (k : string)
    (lc : loc) (psc : props) (old : prop) :
  heap st !! p = Some (Obj ps) ->
  plain_field ps k (VRef lc) ->
  heap st !! lc = Some (Obj psc) ->
  lc <> p ->
  lookup_prop (KSym SymPropagate) psc = Some old ->
  configurable (prop_flags old) = true ->
  let psc1 := overridden SymPropagate (propagate_up_create k (VRef p)) psc in
  let ps' := store_prop (KStr k) (PData (VRef lc) d_literal) ps in
  IndexJs._track_key invoke k (VRef p) st
  = Ok (VRef (length (heap st)),
        set_heap (<[lc := Obj psc1]> (heap st) ++ [Obj ps']) st)
  /\ (lookup_prop (KStr k) ps = Some (PData (VRef lc) d_literal) -> ps' = ps).
Proof.
  intros Hp (fk & Hk & Hfk) Hlc Hne Hold Hconf psc1 ps'.
  split; [|by apply store_prop_same].
  unfold IndexJs._track_key.
  erewrite bind_Ok; [|apply console_assert_true; by eapply has_data].
  rewrite when_true; [|by eapply has_data].
  unfold util.update.
  erewrite bind_Ok; [|by eapply get_data].
  erewrite bind_Ok.
  2: { unfold _override_propagate. eapply override_internal_ok; [done..|].
       unfold util.redefinable. by rewrite Hconf. }
  fold psc1.
  erewrite copy_with_ok.
  - simpl. by rewrite length_insert.
  - simpl. rewrite list_lookup_insert_ne by done. exact Hp.
  - exact Hk.
Qed.

Lemma js_track_key_aims_at_its_argument_witness :
  exists st,
    Fixtures.two_counters IndexJs.Commutes Fixtures.st0 = Ok (VRef 2, st)
    /\ exists st',
         IndexJs._track_key (Fixtures.run 1) "a" (VRef 2) st = Ok (VRef 3, st')
         /\ heap st' !! 3 = heap st !! 2
         /\ heap st' !! 2 = heap st !! 2
         /\ field st' (VRef 0) (KSym SymPropagate)
            = Some (propagate_up_create "a" (VRef 2)).
Proof.
  eexists. split; [vm_compute; reflexivity|].
  match goal with |- context [IndexJs._track_key _ _ _ ?s] => set (st := s) end.
  destruct (js_track_key_aims_at_its_argument (Fixtures.run 1) st 2
              (match heap st !! 2 with Some (Obj ps) => ps | _ => [] end)
              "a" 0
              (match heap st !! 0 with Some (Obj ps) => ps | _ => [] end)
              (PData (VFun F_id) d_configurable))
    as [Hrun Hsame].
  - reflexivity.
  - eexists. split; reflexivity.
  - reflexivity.
  - discriminate.
  - reflexivity.
  - reflexivity.
  - eexists. split; [exact Hrun|]. split; [|split].
    + reflexivity.
    + reflexivity.
    + reflexivity.
Defined.

(** X9. In index.js a commit on a tracked child returns a copy of the
    parent the child was aimed at when it was tracked, with the tracked key
    holding the updated child, whichever parent object the child was
    reached through: every other field of the result is that snapshot's.
    This holds for every updater that returns a result and changes no
    object that exists (it may read the store and allocate); beyond what
    the updater did, the store only grows by the new child and the new
    parent. *)
Theorem js_commit_returns_copy_of_snapshot
    (host : (val -> val -> val -> M val) -> nat -> val -> val -> M val)
    (fuel : nat) (st stu : state) (q p0 lc : loc) (psq ps0 psc : props)
    (kq k : string) (c0 s s' u : val) (fq fk fs fp : flags) :
  heap st !! q = Some (Obj psq) ->
  lookup_prop (KStr kq) psq = Some (PData (VRef lc) fq) ->
  heap st !! lc = Some (Obj psc) ->
  lookup_prop state_key psc = Some (PData s fs) ->
  lookup_prop commute_key psc = Some (PData (VFun F_proxy_commute) d_nothing) ->
  lookup_prop (KSym SymCommute) psc
    = Some (PData (_commute_wrapper (VFun F_commute)) d_configurable) ->
  lookup_prop (KSym SymPropagate) psc
    = Some (PData (propagate_up_create k (VRef p0)) fp) ->
  heap st !! p0 = Some (Obj ps0) ->
  lookup_prop (KStr k) ps0 = Some (PData c0 fk) ->
  call host fuel u VUndef s st = Ok (s', stu) ->
  keeps st stu ->
  let n := length (heap stu) in
  commit_via (call host (S (S (S fuel)))) (VRef q) kq u st
  = Ok (VRef (S n),
        set_heap
          (heap stu ++ [Obj (store_prop state_key (PData s' d_literal) psc);
                        Obj (store_prop (KStr k) (PData (VRef n) d_literal) ps0)])
          stu).
Proof.
  intros Hq Hkq Hlc Hs Hm Hc Hp Hp0 Hk Hu [Hkeep _] n.
  unfold commit_via.
  erewrite bind_Ok; [|by eapply get_data].
  erewrite bind_Ok; [|by eapply get_data].
  change (_proxy_commute (call host (S (S fuel))) (VRef lc) u st = Ok
    (VRef (S n),
     set_heap
       (heap stu ++ [Obj (store_prop state_key (PData s' d_literal) psc);
                     Obj (store_prop (KStr k) (PData (VRef n) d_literal) ps0)])
       stu)).
  unfold _proxy_commute.
  erewrite bind_Ok; [|by eapply get_data].
  change (propagating_commute (call host (S fuel)) (VFun F_commute) (VRef lc)
            u st = Ok
    (VRef (S n),
     set_heap
       (heap stu ++ [Obj (store_prop state_key (PData s' d_literal) psc);
                     Obj (store_prop (KStr k) (PData (VRef n) d_literal) ps0)])
       stu)).
  unfold propagating_commute.
  erewrite bind_Ok; [|by eapply get_data].
  erewrite bind_Ok.
  2: { eapply _commute_run; [exact Hlc|exact Hs|exact Hu| |exact Hs].
       by apply Hkeep. }
  fold n.
  set (st1 := set_heap _ stu).
  change (propagate_up (call host fuel) (KStr k) (VRef p0) (VRef n) st1 = Ok
    (VRef (S n),
     set_heap
       (heap stu ++ [Obj (store_prop state_key (PData s' d_literal) psc);
                     Obj (store_prop (KStr k) (PData (VRef n) d_literal) ps0)])
       stu)).
  unfold propagate_up, util.update.
  assert (Hp1 : heap st1 !! p0 = Some (Obj ps0)).
  { simpl. apply lookup_app_l_Some. by apply Hkeep. }
  erewrite bind_Ok; [|by eapply get_data].
  erewrite bind_Ok; [|reflexivity].
  erewrite copy_with_ok; [|exact Hp1|exact Hk].
  simpl. rewrite length_app. simpl.
  replace (length (heap stu) + 1) with (S n) by (unfold n; lia).
  by rewrite <- app_assoc.
Qed.

(** The two-leaf tree under index.js: through the parent
    [TracksPropagation] returned, [leaf2] still writes into the copy made
    before it was tracked; the updater is [update(`color`)(...)]. *)
Lemma js_commit_returns_copy_of_snapshot_witness :
  let host := Fixtures.host VUndef in
  let turn := Fixtures.turn_updater in
  exists st,
    Fixtures.Tree2_js Fixtures.st0 = Ok (VRef 6, st)
    /\ exists st',
         commit_via (call host 4) (VRef 6) "leaf2" turn st = Ok (VRef 9, st')
         /\ heap st' !! 9
            = Some (Obj (store_prop (KStr "leaf2") (PData (VRef 8) d_literal)
                           (match heap st !! 5 with
                            | Some (Obj ps) => ps | _ => [] end))).
Proof.
  intros host turn.
  eexists. split; [vm_compute; reflexivity|].
  match goal with |- context [commit_via _ _ _ _ ?s] => set (st := s) end.
  lazymatch eval vm_compute in (call host 1 turn VUndef (VRef 2) st) with
  | Ok (?v, ?stu) =>
      pose proof (js_commit_returns_copy_of_snapshot host 1 st stu 6 5 3
             (match heap st !! 6 with Some (Obj ps) => ps | _ => [] end)
             (match heap st !! 5 with Some (Obj ps) => ps | _ => [] end)
             (match heap st !! 3 with Some (Obj ps) => ps | _ => [] end)
             "leaf2" "leaf2" (VRef 3) (VRef 2) v turn
             d_literal d_literal d_literal d_configurable) as Hrun
  end.
  eexists. split.
  - apply Hrun; try reflexivity.
    apply keeps_prefix; [vm_compute; reflexivity|vm_compute; lia].
  - reflexivity.
Defined.

(** ** What [TracksPropagation] of index.mjs does to the store *)

Lemma mjs_TracksPropagation_effects invoke keys st p ps :
  heap st !! p = Some (Obj ps) ->
  (forall old, lookup_prop (KSym SymTracking) ps = Some old ->
     configurable (prop_flags old) = true) ->
  (forall n d, next_symbol st <= n ->
     lookup_prop (KSym (SymTrackedChild n d)) ps = None) ->
  NoDup keys ->
  Forall (fun k => exists c, plain_field ps k c) keys ->
  let n := length (heap st) in
  let ps1 := util.applied (KSym SymTracking) (PData (VRef n) d_configurable) ps in
  exists p' ps' st' es,
    IndexMjs.TracksPropagation invoke keys (VRef p) st = Ok (VRef p', st')
    /\ tracking st' p' ps' es
    /\ map (fun e => e.1.1) es = keys
    /\ Forall (fun e => plain_field ps e.1.1 e.2) es
    /\ (forall k', k' ∉ keys ->
          lookup_prop (KStr k') ps' = lookup_prop (KStr k') ps)
    /\ heap st' !! p = Some (Obj ps1)
    /\ heap st' !! n = Some (Arr [])
    /\ (forall l o, l <> p -> heap st !! l = Some o -> heap st' !! l = Some o)
    /\ console st' = console st
    /\ Forall (fun e => lookup_prop (KStr e.1.1) ps'
                        = Some (PAccessor (create_propagate_proxy e.1.2)
                                  (Flags true true false))) es.
Proof.
  intros Hp Hold Hfresh Hnd Hall n ps1.
  destruct (mjs_ledger_reset st p ps Hp Hold Hfresh)
    as (Hrun & Htr & Hn1 & Hsame).
  cbv zeta in Hrun, Htr, Hn1, Hsame. fold n ps1 in Hrun, Htr, Hn1, Hsame.
  set (st1 := put p ps1 (set_heap (heap st ++ [Arr []]) st)) in *.
  assert (Hp1 : heap st1 !! p = Some (Obj ps1)) by (by destruct Htr).
  destruct (mjs_fold_track invoke keys st1 p ps1 [] Htr Hnd) as
    (p' & ps' & st' & es & Hfold & Htr' & Hkeys & Hch & Hframe & Hext & Hcon & _
     & _ & Hgets).
  { eapply Forall_impl; [exact Hall|]. intros k (c & fl & Hk & Hfl).
    exists c, fl. split; [|done]. by rewrite Hsame. }
  exists p', ps', st', es.
  split; [|split; [|split; [|split; [|split; [|split; [|split; [|split;
    [|split]]]]]]]]; try done.
  - by rewrite Hrun.
  - eapply Forall_impl; [exact Hch|]. intros e (fl & Hk & Hfl).
    exists fl. split; [|done]. by rewrite Hsame in Hk.
  - intros k' Hk'. rewrite Hframe by done. by rewrite Hsame.
  - by apply Hext.
  - by apply Hext.
  - intros l o Hl Ho. apply Hext. simpl.
    rewrite list_lookup_insert_ne by done. by apply lookup_app_l_Some.
Qed.

(** X10. In index.mjs [TracksPropagation] changes the parent it is given
    in one way: it leaves a new, empty ledger in its ledger slot. Every
    other object of the store is as before; in particular no child is
    overridden when it is tracked, only when its key is read. The entries
    go to the ledger of the parent returned. *)
Theorem mjs_tracking_leaves_an_empty_ledger_behind
    (invoke : val -> val -> val -> M val) (keys : list string)
    (st : state) (p : loc) (ps : props) :
  heap st !! p = Some (Obj ps) ->
  (forall old, lookup_prop (KSym SymTracking) ps = Some old ->
     configurable (prop_flags old) = true) ->
  (forall n d, next_symbol st <= n ->
     lookup_prop (KSym (SymTrackedChild n d)) ps = None) ->
  NoDup keys ->
  Forall (fun k => exists c, plain_field ps k c) keys ->
  exists p' st',
    IndexMjs.TracksPropagation invoke keys (VRef p) st = Ok (VRef p', st')
    /\ ledger_keys st' (VRef p') = Some (map VStr keys)
    /\ ledger_keys st' (VRef p) = Some []
    /\ (forall k, k <> KSym SymTracking ->
          (ps0 ← own_props st' (VRef p); lookup_prop k ps0) = lookup_prop k ps)
    /\ (forall l o, l <> p -> heap st !! l = Some o -> heap st' !! l = Some o)
    /\ console st' = console st.
Proof.
  intros Hp Hold Hfresh Hnd Hall.
  destruct (mjs_TracksPropagation_effects invoke keys st p ps Hp Hold Hfresh
              Hnd Hall)
    as (p' & ps' & st' & es & Hrun & Htr & Hkeys & _ & _ & Hp' & Hn & Hext & Hcon
        & _).
  exists p', st'. split; [exact Hrun|].
  split; [|split; [|split; [|split]]]; try done.
  - destruct (tracking_ledger _ _ _ _ Htr) as [-> _].
    by rewrite <- Hkeys, <- list_fmap_compose.
  - destruct (applied_data (KSym SymTracking) (VRef (length (heap st)))
                d_configurable ps) as (fl & Hled & _).
    unfold ledger_keys.
    erewrite field_data; [|exact Hp'|exact Hled]. simpl.
    by rewrite Hn.
  - intros k Hk. unfold own_props. rewrite Hp'. simpl.
    by rewrite applied_lookup_ne.
Qed.

Lemma mjs_tracking_leaves_an_empty_ledger_behind_witness :
  exists p' st',
    IndexMjs.TracksPropagation (Fixtures.run 1) ["a"; "b"] (VRef 0)
      Fixtures.st_siblings = Ok (VRef p', st')
    /\ ledger_keys st' (VRef p') = Some (map VStr ["a"; "b"])
    /\ ledger_keys st' (VRef 0) = Some [].
Proof.
  destruct (mjs_tracking_leaves_an_empty_ledger_behind (Fixtures.run 1)
              ["a"; "b"] Fixtures.st_siblings 0 Fixtures.siblings)
    as (p' & st' & Hrun & Hkeys & Hempty & _).
  - reflexivity.
  - intros old Hold. vm_compute in Hold. discriminate.
  - intros n d _. reflexivity.
  - apply (bool_decide_unpack _). reflexivity.
  - repeat constructor; eexists _, _; split; reflexivity.
  - by exists p', st'.
Defined.

(** X11. The parent [TracksPropagation] of index.mjs returns, for distinct
    keys that are ordinary fields, carries the values of the parent it was
    given: a field that is not tracked keeps its descriptor and value, and
    for each tracked key, in ledger order, the value hidden under the
    entry's symbol is the value the field held, while the public key is the
    getter for that symbol, enumerable and, as the field was, still
    configurable. (With a key listed twice the getter would be the one of
    the later entry.) *)
Theorem mjs_tracking_keeps_the_values
    (invoke : val -> val -> val -> M val) (keys : list string)
    (st : state) (p : loc) (ps : props) :
  heap st !! p = Some (Obj ps) ->
  (forall old, lookup_prop (KSym SymTracking) ps = Some old ->
     configurable (prop_flags old) = true) ->
  (forall n d, next_symbol st <= n ->
     lookup_prop (KSym (SymTrackedChild n d)) ps = None) ->
  NoDup keys ->
  Forall (fun k => exists c, plain_field ps k c) keys ->
  exists p' ps' st' es,
    IndexMjs.TracksPropagation invoke keys (VRef p) st = Ok (VRef p', st')
    /\ heap st' !! p' = Some (Obj ps')
    /\ ledger_keys st' (VRef p') = Some (map (fun e => VStr e.1.1) es)
    /\ ledger_symbols st' (VRef p') = Some (map (fun e => VSym e.1.2) es)
    /\ map (fun e => e.1.1) es = keys
    /\ Forall (fun e =>
                 field st (VRef p) (KStr e.1.1) = Some e.2
                 /\ field st' (VRef p') (KSym e.1.2) = Some e.2
                 /\ lookup_prop (KStr e.1.1) ps'
                    = Some (PAccessor (create_propagate_proxy e.1.2)
                              (Flags true true false)))
         es
    /\ (forall k', k' ∉ keys ->
          lookup_prop (KStr k') ps' = lookup_prop (KStr k') ps).
Proof.
  intros Hp Hold Hfresh Hnd Hall.
  destruct (mjs_TracksPropagation_effects invoke keys st p ps Hp Hold Hfresh
              Hnd Hall)
    as (p' & ps' & st' & es & Hrun & Htr & Hkeys & Hch & Hframe & _ & _ & _ & _
        & Hgets).
  destruct (tracking_ledger _ _ _ _ Htr) as [Hlk Hls].
  destruct Htr as (Hp' & _ & Hes & _).
  exists p', ps', st', es.
  split; [exact Hrun|]. split; [exact Hp'|]. split; [exact Hlk|].
  split; [exact Hls|]. split; [exact Hkeys|]. split; [|exact Hframe].
  rewrite Forall_forall in Hch, Hes, Hgets. apply Forall_forall.
  intros [[k y] c] He. specialize (Hch _ He). specialize (Hes _ He).
  specialize (Hgets _ He).
  destruct Hch as (fl & Hk & _). destruct Hes as (_ & _ & (fy & Hy)).
  simpl in *.
  split; [by eapply field_data|]. split; [by eapply field_data|done].
Qed.

Lemma mjs_tracking_keeps_the_values_witness :
  exists p' ps' st' es,
    IndexMjs.TracksPropagation (Fixtures.run 1) ["b"] (VRef 0)
      Fixtures.st_siblings = Ok (VRef p', st')
    /\ heap st' !! p' = Some (Obj ps')
    /\ map (fun e => e.1.1) es = ["b"]
    /\ Forall (fun e =>
                 field Fixtures.st_siblings (VRef 0) (KStr e.1.1) = Some e.2
                 /\ field st' (VRef p') (KSym e.1.2) = Some e.2
                 /\ lookup_prop (KStr e.1.1) ps'
                    = Some (PAccessor (create_propagate_proxy e.1.2)
                              (Flags true true false))) es
    /\ lookup_prop (KStr "a") ps' = lookup_prop (KStr "a") Fixtures.siblings.
Proof.
  destruct (mjs_tracking_keeps_the_values (Fixtures.run 1)
              ["b"] Fixtures.st_siblings 0 Fixtures.siblings)
    as (p' & ps' & st' & es & Hrun & Hp' & _ & _ & Hkeys & Hes & Hframe).
  - reflexivity.
  - intros old Hold. vm_compute in Hold. discriminate.
  - intros n d _. reflexivity.
  - apply (bool_decide_unpack _). reflexivity.
  - repeat constructor; eexists _, _; split; reflexivity.
  - exists p', ps', st', es. split; [exact Hrun|]. split; [exact Hp'|].
    split; [exact Hkeys|]. split; [exact Hes|].
    apply Hframe. intros Hin. apply list_elem_of_In in Hin. simpl in Hin.
    destruct Hin as [Hin|[]]. discriminate Hin.
Defined.

(** X12. With no key to track, [TracksPropagation] of index.js is the
    identity. That of index.mjs still resets the ledger: applied to a
    parent that is tracked it returns the same object with an empty ledger,
    while every other own property, so the getters and hidden children of
    the keys tracked before, stays in place, no longer listed. *)
Theorem tracking_nothing_resets_the_ledger
    (invoke : val -> val -> val -> M val)
    (st : state) (p : loc) (ps : props) (es : list (string * symbol * val))
    (ledger : val) (fl : flags) :
  tracking st p ps es ->
  lookup_prop (KSym SymTracking) ps = Some (PData ledger fl) ->
  configurable fl = true ->
  IndexJs.TracksPropagation invoke [] (VRef p) st = Ok (VRef p, st)
  /\ exists ps' st',
       IndexMjs.TracksPropagation invoke [] (VRef p) st = Ok (VRef p, st')
       /\ heap st' !! p = Some (Obj ps')
       /\ ledger_keys st' (VRef p) = Some []
       /\ Forall (tracks ps') es
       /\ (forall k, k <> KSym SymTracking ->
             lookup_prop k ps' = lookup_prop k ps).
Proof.
  intros (Hp & _ & Hes & Hfresh) Ht Hfl. split; [reflexivity|].
  destruct (mjs_ledger_reset st p ps Hp) as (Hrun & Htr & _ & Hsame);
    [intros old Hold; rewrite Ht in Hold; by injection Hold as <-|exact Hfresh|].
  cbv zeta in Hrun, Htr, Hsame.
  eexists _, _. split; [by rewrite Hrun|].
  destruct (tracking_ledger _ _ _ _ Htr) as [Hkeys _].
  destruct Htr as (Hp' & _).
  split; [exact Hp'|]. split; [exact Hkeys|]. split; [|exact Hsame].
  eapply Forall_impl; [exact Hes|].
  intros [[k y] c] ((m & ->) & (fa & Hk) & (fy & Hy)).
  split; [by eexists|]. split.
  - exists fa. by rewrite Hsame.
  - exists fy. by rewrite Hsame.
Qed.

Lemma tracking_nothing_resets_the_ledger_witness :
  exists tree st,
    Fixtures.Counters_mjs Fixtures.st0 = Ok (tree, st)
    /\ ledger_keys st tree = Some [VStr "a"; VStr "b"]
    /\ exists ps' st',
         IndexMjs.TracksPropagation (Fixtures.run 1) [] tree st = Ok (tree, st')
         /\ heap st' !! 9 = Some (Obj ps')
         /\ ledger_keys st' tree = Some []
         /\ Forall (tracks ps')
              [("a", SymTrackedChild 0 "a", VRef 0);
               ("b", SymTrackedChild 1 "b", VRef 1)].
Proof.
  eexists _, _. split; [vm_compute; reflexivity|].
  split; [vm_compute; reflexivity|].
  match goal with |- context [IndexMjs.TracksPropagation _ _ _ ?s] =>
    set (st := s) end.
  destruct (tracking_nothing_resets_the_ledger (Fixtures.run 1) st 9
           (match heap st !! 9 with Some (Obj ps) => ps | _ => [] end)
           [("a", SymTrackedChild 0 "a", VRef 0);
            ("b", SymTrackedChild 1 "b", VRef 1)]
           (VRef 8) d_literal)
    as (_ & ps' & st' & Hrun & Hp & Hkeys & Htracks & _).
  - split; [reflexivity|]. split; [|split].
    + eexists _, _, _. split; [reflexivity|]. split; [reflexivity|].
      repeat constructor; eexists; split; reflexivity.
    + repeat constructor; eexists; reflexivity.
    + intros n d Hn. simpl in Hn. simpl.
      repeat (case_decide; [simplify_eq; lia|]). reflexivity.
  - reflexivity.
  - reflexivity.
  - by exists ps', st'.
Defined.

(** ** Commits through one parent are independent *)

Lemma put_same l ps st : heap st !! l = Some (Obj ps) -> put l ps st = st.
Proof.
  intros H. unfold put, set_heap. rewrite list_insert_id by done.
  by destruct st.
Qed.

(** X13. In index.mjs a commit does not accumulate on the parent it goes
    through. Two commits in a row through the same tracked key of the same
    parent each start from the state the child has under that parent: the
    second result holds the second updater's value on the original state,
    and the first result still holds the first one's. The second read of
    the key changes nothing, the child being aimed at that parent already.
    The updaters return a result and change no object that exists; they may
    read the store and allocate. *)
Theorem commits_through_one_parent_are_independent
    (host : (val -> val -> val -> M val) -> nat -> val -> val -> M val)
    (fuel : nat) (st : state) (p : loc) (ps : props) (k : string) (y : symbol)
    (lc : loc) (psc : props) (s u1 u2 : val) :
  heap st !! p = Some (Obj ps) ->
  tracks ps (k, y, VRef lc) ->
  heap st !! lc = Some (Obj psc) ->
  lc <> p ->
  propagating_node psc s ->
  let invoke := call host (S (S (S fuel))) in
  exists str,
    util.get invoke (KStr k) (VRef p) st = Ok (VRef lc, str)
    /\ forall s1 stu1,
         call host fuel u1 VUndef s str = Ok (s1, stu1) ->
         keeps str stu1 ->
         exists p1 st1,
           commit_via invoke (VRef p) k u1 st = Ok (VRef p1, st1)
           /\ child_state st1 (VRef p1) y = Some s1
           /\ util.get invoke (KStr k) (VRef p) st1 = Ok (VRef lc, st1)
           /\ forall s2 stu2,
                call host fuel u2 VUndef s st1 = Ok (s2, stu2) ->
                keeps st1 stu2 ->
                exists p2 st2,
                  commit_via invoke (VRef p) k u2 st1 = Ok (VRef p2, st2)
                  /\ p1 <> p2
                  /\ child_state st2 (VRef p2) y = Some s2
                  /\ child_state st2 (VRef p1) y = Some s1
                  /\ child_state st2 (VRef p) y = Some s.
Proof.
  intros Hp Hty Hlc Hne Hnode invoke.
  set (over := create_propagate_up y (VRef p)).
  set (psc1 := overridden SymPropagate over psc).
  exists (put lc psc1 st). split; [by eapply tracked_read_node|].
  intros s1 stu1 Hu1 Hk1.
  destruct (mjs_commit_via_step host fuel st p ps k y lc psc s s1 u1 stu1
              Hp Hty Hlc Hne Hnode Hu1 Hk1)
    as (st1 & psa & Hrun1 & Hp1 & Hn1 & Hnode1 & _ & Hframe1 & _ & Hlc1 & Hlen1
        & _ & Hlenst1).
  fold over psc1 in Hlc1.
  set (n := length (heap stu1)) in *.
  assert (Hnodec1 : propagating_node psc1 s).
  { unfold psc1. by apply propagating_node_override. }
  assert (Hpst1 : heap st1 !! p = Some (Obj ps)) by (by apply Hframe1).
  assert (Hsame : put lc (overridden SymPropagate over psc1) st1 = st1).
  { unfold psc1 at 1. rewrite overridden_twice. by apply put_same. }
  exists (S n), st1. split; [exact Hrun1|]. split; [|split].
  - eapply child_state_node; [exact Hp1|apply lookup_store_eq|exact Hn1|done].
  - unfold invoke. erewrite tracked_read_node by done.
    fold over. by rewrite Hsame.
  - intros s2 stu2 Hu2 Hk2.
    rewrite <- Hsame in Hu2, Hk2.
    destruct (mjs_commit_via_step host fuel st1 p ps k y lc psc1 s s2 u2 stu2
                Hpst1 Hty Hlc1 Hne Hnodec1 Hu2 Hk2)
      as (st2 & psb & Hrun2 & Hp2 & Hn2 & Hnode2 & Hkeep2 & Hframe2 & _ & _
          & Hlen2 & _).
    set (m := length (heap stu2)) in *.
    assert (Hlcn : lc < n).
    { apply lookup_lt_Some in Hlc. lia. }
    assert (Hnm : S n < m) by lia.
    destruct (Hkeep2 lc psc1 s Hlc1 Hnodec1) as (psc2 & Hlc2 & Hnodec2).
    exists (S m), st2.
    split; [exact Hrun2|]. split; [lia|]. split; [|split].
    + eapply child_state_node; [exact Hp2|apply lookup_store_eq|exact Hn2|done].
    + eapply child_state_node; [|apply lookup_store_eq| |exact Hnode1].
      * apply Hframe2; [lia|exact Hp1].
      * apply Hframe2; [lia|exact Hn1].
    + destruct Hty as (_ & _ & (fy & Hy)).
      eapply child_state_node; [|exact Hy|exact Hlc2|exact Hnodec2].
      apply Hframe2; [congruence|exact Hpst1].
Qed.

(** The Tree example of index.mjs: [leaf] of one tree turned twice gives
    two trees with a brown leaf, and the tree itself keeps its green one. *)
Lemma commits_through_one_parent_are_independent_witness :
  let host := Fixtures.host VUndef in
  let turn := Fixtures.turn_updater in
  let leaf := SymTrackedChild 0 "leaf" in
  exists st,
    Fixtures.Tree_mjs Fixtures.st0 = Ok (VRef 11, st)
    /\ exists p1 st1 p2 st2 s1 s2,
         commit_via (call host 4) (VRef 11) "leaf" turn st = Ok (VRef p1, st1)
         /\ commit_via (call host 4) (VRef 11) "leaf" turn st1 = Ok (VRef p2, st2)
         /\ p1 <> p2
         /\ child_state st2 (VRef p1) leaf = Some s1
         /\ child_state st2 (VRef p2) leaf = Some s2
         /\ field st2 s1 (KStr "color") = Some (VStr "brown")
         /\ field st2 s2 (KStr "color") = Some (VStr "brown")
         /\ child_state st2 (VRef 11) leaf = Some (VRef 0)
         /\ field st2 (VRef 0) (KStr "color") = Some (VStr "green").
Proof.
  intros host turn leaf.
  eexists. split; [vm_compute; reflexivity|].
  match goal with |- context [commit_via _ _ _ _ ?s] => set (st := s) end.
  destruct (commits_through_one_parent_are_independent host 1 st 11
           (match heap st !! 11 with Some (Obj ps) => ps | _ => [] end)
           "leaf" leaf 1
           (match heap st !! 1 with Some (Obj ps) => ps | _ => [] end)
           (VRef 0) turn turn)
    as (str & Hread & Hrest).
  - reflexivity.
  - split; [by eexists|split; eexists; reflexivity].
  - reflexivity.
  - discriminate.
  - split; [eexists; reflexivity|].
    split; [reflexivity|]. split; [reflexivity|]. eexists. split; reflexivity.
  - vm_compute in Hread. injection Hread as <-.
    lazymatch type of Hrest with
    | forall s1 stu1, call ?h ?f ?u ?t ?x ?s0 = _ -> _ =>
        lazymatch eval vm_compute in (call h f u t x s0) with
        | Ok (?v, ?stu) =>
            destruct (Hrest v stu) as (p1 & st1 & Hc1 & _ & _ & Hrest2)
        end
    end.
    + vm_compute. reflexivity.
    + apply keeps_prefix; [vm_compute; reflexivity|vm_compute; lia].
    + pose proof Hc1 as Hrun1.
      vm_compute in Hc1. injection Hc1 as <- <-.
      lazymatch type of Hrest2 with
      | forall s2 stu2, call ?h ?f ?u ?t ?x ?s0 = _ -> _ =>
          lazymatch eval vm_compute in (call h f u t x s0) with
          | Ok (?v, ?stu) =>
              destruct (Hrest2 v stu)
                as (p2 & st2 & Hc2 & Hne & Hs2 & Hs1 & Hs)
          end
      end.
      * vm_compute. reflexivity.
      * apply keeps_prefix; [vm_compute; reflexivity|vm_compute; lia].
      * pose proof Hc2 as Hrun2.
        vm_compute in Hc2. injection Hc2 as <- <-.
        eexists _, _, _, _, _, _.
        split; [exact Hrun1|]. split; [exact Hrun2|]. split; [exact Hne|].
        split; [exact Hs1|]. split; [exact Hs2|].
        split; [vm_compute; reflexivity|]. split; [vm_compute; reflexivity|].
        split; [exact Hs|]. vm_compute. reflexivity.
Defined.

(** ** The symbols of a ledger *)

(** X14. In index.mjs every entry of the ledger gets a hidden slot of its
    own, also when a key is listed more than once: the symbols in the
    ledger of the parent returned are as many as the listed keys the
    parent has, repeats counted, and pairwise distinct, each made by its
    own call of [Symbol]. The preconditions are those under which the fold
    goes through (C6). *)
Theorem ledger_symbols_are_distinct
    (host : (val -> val -> val -> M val) -> nat -> val -> val -> M val)
    (fuel : nat) (keys : list string) (st : state) (p : loc) (ps : props) :
  heap st !! p = Some (Obj ps) ->
  (forall old, lookup_prop (KSym SymTracking) ps = Some old ->
     configurable (prop_flags old) = true) ->
  (forall n d, next_symbol st <= n ->
     lookup_prop (KSym (SymTrackedChild n d)) ps = None) ->
  (forall k, k ∈ keys -> is_Some (lookup_prop (KStr k) ps) ->
     exists c, plain_field ps k c) ->
  (forall k c, listed_twice k keys -> plain_field ps k c -> overridable st c) ->
  exists p' st' syms,
    IndexMjs.TracksPropagation (call host (S fuel)) keys (VRef p) st
    = Ok (VRef p', st')
    /\ ledger_symbols st' (VRef p') = Some (map VSym syms)
    /\ length syms = length (present ps keys)
    /\ NoDup syms
    /\ Forall (fun y => is_Some (field st' (VRef p') (KSym y))) syms.
Proof.
  intros Hp Hold Hfresh Hplain Htwice.
  destruct (mjs_TracksPropagation_any host fuel keys st p ps Hp Hold Hfresh
              Hplain Htwice)
    as (p' & ps' & st' & es & Hrun & Hled & Hkeys & Hnd).
  exists p', st', (map (fun e => e.1.2) es).
  split; [exact Hrun|].
  destruct Hled as (Hp' & (la & fl & refs & Ht & Hla & Hrefs) & Hes & _).
  destruct (ledger_reads st' p' ps' la fl refs es Hp' Ht Hla Hrefs) as [_ ->].
  split; [by rewrite <- list_fmap_compose|].
  split; [by rewrite <- Hkeys, !length_map|]. split; [exact Hnd|].
  apply Forall_fmap. eapply Forall_impl; [exact Hes|].
  intros [[k y] c] (_ & (fy & Hy)). simpl. exists c. by eapply field_data.
Qed.

(** The parent [{ a: 1, b: 2 }] with [a] listed twice: two symbols, both
    made for [a]. *)
Lemma ledger_symbols_are_distinct_witness :
  exists p' st',
    IndexMjs.TracksPropagation (call (Fixtures.host VUndef) 1) ["a"; "a"]
      (VRef 0) Fixtures.st_siblings = Ok (VRef p', st')
    /\ ledger_symbols st' (VRef p')
       = Some [VSym (SymTrackedChild 0 "a"); VSym (SymTrackedChild 1 "a")]
    /\ exists syms,
         ledger_symbols st' (VRef p') = Some (map VSym syms)
         /\ length syms = 2
         /\ NoDup syms.
Proof.
  destruct (ledger_symbols_are_distinct (Fixtures.host VUndef) 0 ["a"; "a"]
              Fixtures.st_siblings 0 Fixtures.siblings)
    as (p' & st' & syms & Hrun & Hsyms & Hlen & Hnd & _).
  - reflexivity.
  - intros old Hold. vm_compute in Hold. discriminate.
  - intros n d _. reflexivity.
  - intros k Hin Hsome. apply list_elem_of_In in Hin. simpl in Hin.
    destruct Hin as [<-|[<-|[]]]; eexists _, _; split; reflexivity.
  - intros k c _ (fl & Hl & _). simpl in Hl.
    repeat case_decide; simplify_eq; (split; [done|intros lc Hc; discriminate Hc]).
  - exists p', st'. split; [exact Hrun|]. split.
    + pose proof Hrun as Hrun'. vm_compute in Hrun'. injection Hrun' as <- <-.
      vm_compute. reflexivity.
    + exists syms. split; [exact Hsyms|]. split; [exact Hlen|exact Hnd].
Defined.

(** ** Tracking a value that does not propagate *)

(** X15. A tracked key may hold a value without a propagate slot (a
    number, a node that only commutes). index.js then prints the
    diagnostic of [override_internal] once, when the key is tracked, and
    returns the copy of the parent. index.mjs prints it at every read of
    the key, returning the value each time. On [undefined] there is no
    diagnostic: the test for the slot throws, in index.js when the key is
    tracked and in index.mjs when it is read. *)
Theorem tracking_a_value_that_does_not_propagate
    (host : (val -> val -> val -> M val) -> nat -> val -> val -> M val)
    (invoke : val -> val -> val -> M val) (fuel : nat)
    (st : state) (p : loc) (ps : props) (k : string) (y : symbol) (c : val) :
  heap st !! p = Some (Obj ps) ->
  let warn := log "override_internal: Symbol(propagate) does not exist!" in
  let read := util.get (call host (S fuel)) (KStr k) (VRef p) in
  let ps' := store_prop (KStr k) (PData c d_literal) ps in
  (util.has (KSym SymPropagate) c st = Ok false ->
   (plain_field ps k c ->
    IndexJs._track_key invoke k (VRef p) st
    = Ok (VRef (length (heap st)), set_heap (heap st ++ [Obj ps']) (warn st)))
   /\ (tracks ps (k, y, c) ->
       read st = Ok (c, warn st)
       /\ read (warn st) = Ok (c, warn (warn st))))
  /\ (c = VUndef ->
      (plain_field ps k c ->
       exists e, IndexJs._track_key invoke k (VRef p) st = Throws e)
      /\ (tracks ps (k, y, c) -> exists e, read st = Throws e)).
Proof.
  intros Hp warn read ps'. split.
  - intros Hno. split.
    + intros (fk & Hk & Hfk).
      unfold IndexJs._track_key.
      erewrite bind_Ok; [|apply console_assert_true; by eapply has_data].
      rewrite when_true; [|by eapply has_data].
      unfold util.update.
      erewrite bind_Ok; [|by eapply get_data].
      erewrite bind_Ok.
      2: { unfold _override_propagate. by apply override_internal_missing. }
      by erewrite copy_with_ok; [|exact Hp|exact Hk].
    + intros (_ & (fa & Hk) & (fy & Hy)). unfold read. split.
      * erewrite proxy_getter_run; [|done..].
        unfold _override_propagate. by rewrite override_internal_missing.
      * erewrite proxy_getter_run; [|exact Hp|exact Hk|exact Hy].
        unfold _override_propagate. by rewrite override_internal_missing.
  - intros ->. split.
    + intros (fk & Hk & Hfk).
      unfold IndexJs._track_key.
      erewrite bind_Ok; [|apply console_assert_true; by eapply has_data].
      rewrite when_true; [|by eapply has_data].
      unfold util.update.
      erewrite bind_Ok; [|by eapply get_data].
      by eexists.
    + intros (_ & (fa & Hk) & (fy & Hy)). unfold read.
      erewrite proxy_getter_run; [|done..]. by eexists.
Qed.

(** The parent [{ a: 1, b: 2 }] with [a] tracked, by index.js and by
    index.mjs. *)
Lemma tracking_a_value_that_does_not_propagate_witness :
  let st := Fixtures.st_siblings in
  let warn := log "override_internal: Symbol(propagate) does not exist!" in
  let read := util.get (call (Fixtures.host VUndef) 1) (KStr "a") (VRef 4) in
  IndexJs._track_key (Fixtures.run 1) "a" (VRef 0) st
  = Ok (VRef 1, set_heap (heap st ++ [Obj Fixtures.siblings]) (warn st))
  /\ exists st',
       IndexMjs.TracksPropagation (Fixtures.run 1) ["a"] (VRef 0) st
       = Ok (VRef 4, st')
       /\ console st' = []
       /\ read st' = Ok (VNum 1, warn st')
       /\ read (warn st') = Ok (VNum 1, warn (warn st')).
Proof.
  intros st warn read. split.
  - destruct (tracking_a_value_that_does_not_propagate (Fixtures.host VUndef)
                (Fixtures.run 1) 0 st 0 Fixtures.siblings "a" SymTracking
                (VNum 1) eq_refl) as [Hnum _].
    destruct (Hnum eq_refl) as [Hjs _].
    apply Hjs. eexists. split; reflexivity.
  - eexists. split; [vm_compute; reflexivity|]. split; [reflexivity|].
    match goal with |- context [read ?s] => set (st' := s) end.
    destruct (tracking_a_value_that_does_not_propagate (Fixtures.host VUndef)
                (Fixtures.run 1) 0 st' 4
                (match heap st' !! 4 with Some (Obj ps) => ps | _ => [] end)
                "a" (SymTrackedChild 0 "a") (VNum 1)) as [Hnum _];
      [reflexivity|].
    destruct Hnum as [_ Hmjs]; [reflexivity|].
    apply Hmjs. split; [by eexists|]. split; eexists; reflexivity.
Defined.
